(** * project-launcher: display model, edit session and launcher

    A shallow embedding of the Go program (package main, the file with the
    Link and Category fields) and of the pieces of the Go standard library
    it calls, followed by the properties of the specification.

    Conventions.
    - A Go [string] is a byte string: Rocq's [string].  Comparison with [<]
      is bytewise ([String.ltb]).
    - A Go [int] that can hold the sentinel [-1] or come from the terminal
      (cursor, widths, scroll offset, edit row) is a [Z], without the
      wrap-around of the machine integer: a property that depends on a
      difference or a sum staying in range says so in a hypothesis.
      Indices used inside package sort are naturals: they never leave the
      slice.
    - A run-time panic (index out of range) is [Panic].
    - Case mapping ([strings.ToLower], [strings.EqualFold]) is embedded on
      the ASCII range, where Go takes its byte-wise fast path; bytes from
      0x80 up are left as they are.  A property that depends on the case
      mapping is stated of ASCII strings. *)

From Stdlib Require Import String Ascii List ZArith NArith Lia Bool Arith.
From Stdlib Require Import Permutation.
From Stdlib Require OrderedTypeEx.
Import ListNotations.

Local Open Scope string_scope.

(* ===================================================================== *)
(** * Package strings *)
(* ===================================================================== *)

Module strings.

(** [strings.HasPrefix(s, prefix)] *)
Definition HasPrefix (s prefix : string) : bool := String.prefix prefix s.

(** [strings.HasSuffix(s, suffix)]:
    [len(s) >= len(suffix) && s[len(s)-len(suffix):] == suffix] *)
Definition HasSuffix (s suffix : string) : bool :=
  (String.length suffix <=? String.length s)%nat &&
  (substring (String.length s - String.length suffix) (String.length suffix) s
   =? suffix).

(** The scan of [strings.Replace] with [n < 0] and a non-empty [old]:
    the leftmost occurrence is replaced, the scan resumes after it.
    [skip] counts the bytes of a matched occurrence still to be dropped. *)
Fixpoint replaceFrom (old new s : string) (skip : nat) : string :=
  match s with
  | EmptyString => EmptyString
  | String c s' =>
      match skip with
      | S k => replaceFrom old new s' k
      | O =>
          if String.prefix old s
          then new ++ replaceFrom old new s' (String.length old - 1)
          else String c (replaceFrom old new s' 0)
      end
  end.

(** With an empty [old], [new] is put before every byte and at the end. *)
Fixpoint interleave (new s : string) : string :=
  match s with
  | EmptyString => new
  | String c s' => new ++ String c (interleave new s')
  end.

(** [strings.ReplaceAll(s, old, new)] *)
Definition ReplaceAll (s old new : string) : string :=
  match old with
  | EmptyString => interleave new s
  | String _ _ => replaceFrom old new s 0
  end.

Definition isUpper (c : ascii) : bool :=
  (65 <=? nat_of_ascii c)%nat && (nat_of_ascii c <=? 90)%nat.

(** [c += 'a' - 'A'] for ['A' <= c <= 'Z'] *)
Definition lowerByte (c : ascii) : ascii :=
  if isUpper c then ascii_of_nat (nat_of_ascii c + 32) else c.

(** [strings.ToLower(s)] *)
Fixpoint ToLower (s : string) : string :=
  match s with
  | EmptyString => EmptyString
  | String c s' => String (lowerByte c) (ToLower s')
  end.

(** One step of the loop of [strings.EqualFold]: the bytes are equal, or
    the smaller one is an upper-case letter and the other its lower case. *)
Definition foldEq (sr tr : ascii) : bool :=
  if Ascii.eqb tr sr then true
  else
    let lo := if Ascii.ltb tr sr then tr else sr in
    let hi := if Ascii.ltb tr sr then sr else tr in
    isUpper lo && (nat_of_ascii hi =? nat_of_ascii lo + 32)%nat.

(** [strings.EqualFold(s, t)] *)
Fixpoint EqualFold (s t : string) : bool :=
  match s, t with
  | EmptyString, EmptyString => true
  | String sr s', String tr t' => foldEq sr tr && EqualFold s' t'
  | _, _ => false
  end.

(** [fmt.Sprintf] with [%s] verbs only is concatenation. *)
Definition concat (parts : list string) : string :=
  fold_right String.append "" parts.

End strings.

(* ===================================================================== *)
(** * Package sort: [sort.Slice]

    [sort.Slice(x, less)] runs [pdqsort_func] (pattern-defeating quicksort,
    package sort since Go 1.19) on the pair of [less] and the slice's
    swapper.  Slices of at most twelve elements are sorted by insertion.
    The documentation of [sort.Slice] says that the sort is not guaranteed
    to be stable. *)
(* ===================================================================== *)

Module sort.

Section LessSwap.

Context {A : Type}.
(** The zero value of the element type: never read, every index that
    package sort passes to [Less] and [Swap] lies inside the slice. *)
Variable zero : A.
(** [less] compares elements; the program's closure reads them at the two
    indices it is given. *)
Variable less : A -> A -> bool.

Fixpoint update (x : list A) (i : nat) (v : A) : list A :=
  match x, i with
  | [], _ => []
  | _ :: x', O => v :: x'
  | h :: x', S i' => h :: update x' i' v
  end.

(** [data.Less(i, j)] *)
Definition Less (x : list A) (i j : nat) : bool :=
  less (nth i x zero) (nth j x zero).

(** [data.Swap(i, j)] *)
Definition Swap (x : list A) (i j : nat) : list A :=
  match nth_error x i, nth_error x j with
  | Some vi, Some vj => update (update x i vj) j vi
  | _, _ => x
  end.

(** ** insertionSort_func *)

(** [for j := i; j > a && data.Less(j, j-1); j-- { data.Swap(j, j-1) }] *)
Fixpoint insertionInner (x : list A) (a j : nat) : list A :=
  match j with
  | O => x
  | S j' =>
      if (a <? j)%nat && Less x j j'
      then insertionInner (Swap x j j') a j'
      else x
  end.

(** [for i := a + 1; i < b; i++ { ... }], [n] iterations left *)
Fixpoint insertionOuter (x : list A) (a i n : nat) : list A :=
  match n with
  | O => x
  | S n' => insertionOuter (insertionInner x a i) a (S i) n'
  end.

Definition insertionSort (x : list A) (a b : nat) : list A :=
  insertionOuter x a (a + 1) (b - (a + 1)).

(** ** heapSort_func *)

(** [siftDown]: the loop ends when [child >= hi]; [root] grows at every
    turn, so [hi - lo + 1] turns are enough. *)
Fixpoint siftDown (fuel : nat) (x : list A) (root hi first : nat)
  : option (list A) :=
  match fuel with
  | O => None
  | S fuel' =>
      let child := 2 * root + 1 in
      if (hi <=? child)%nat then Some x
      else
        let child :=
          if (child + 1 <? hi)%nat && Less x (first + child) (first + child + 1)
          then child + 1 else child in
        if negb (Less x (first + root) (first + child)) then Some x
        else siftDown fuel' (Swap x (first + root) (first + child))
                      child hi first
  end.

(** [for i := (hi - 1) / 2; i >= 0; i-- { siftDown(data, i, hi, first) }] *)
Fixpoint heapBuild (x : list A) (hi first i : nat) : option (list A) :=
  match siftDown (S hi) x i hi first with
  | None => None
  | Some x' =>
      match i with
      | O => Some x'
      | S i' => heapBuild x' hi first i'
      end
  end.

(** [for i := hi - 1; i >= 0; i-- { data.Swap(first, first+i);
      siftDown(data, lo, i, first) }], from [i = n - 1] down *)
Fixpoint heapPop (x : list A) (first n : nat) : option (list A) :=
  match n with
  | O => Some x
  | S i =>
      match siftDown (S i) (Swap x first (first + i)) 0 i first with
      | None => None
      | Some x' => heapPop x' first i
      end
  end.

Definition heapSort (x : list A) (a b : nat) : option (list A) :=
  let first := a in
  let hi := b - a in
  match heapBuild x hi first ((hi - 1) / 2) with
  | None => None
  | Some x' => heapPop x' first hi
  end.

(** ** choosePivot_func *)

Inductive sortedHint := unknownHint | increasingHint | decreasingHint.

Definition maxInsertion : nat := 12.
Definition shortestNinther : nat := 50.
Definition maxSwaps : nat := 4 * 3.
Definition maxSteps : nat := 5.
Definition shortestShifting : nat := 50.

Definition order2 (x : list A) (a b swaps : nat) : nat * nat * nat :=
  if Less x b a then (b, a, S swaps) else (a, b, swaps).

Definition median (x : list A) (a b c swaps : nat) : nat * nat :=
  let '(a, b, swaps) := order2 x a b swaps in
  let '(b, c, swaps) := order2 x b c swaps in
  let '(a, b, swaps) := order2 x a b swaps in
  (b, swaps).

Definition medianAdjacent (x : list A) (a swaps : nat) : nat * nat :=
  median x (a - 1) a (a + 1) swaps.

Definition choosePivot (x : list A) (a b : nat) : nat * sortedHint :=
  let l := b - a in
  let swaps := 0 in
  let i := a + l / 4 * 1 in
  let j := a + l / 4 * 2 in
  let k := a + l / 4 * 3 in
  let '(j, swaps) :=
    if (8 <=? l)%nat then
      let '(i, j, k, swaps) :=
        if (shortestNinther <=? l)%nat then
          let '(i, swaps) := medianAdjacent x i swaps in
          let '(j, swaps) := medianAdjacent x j swaps in
          let '(k, swaps) := medianAdjacent x k swaps in
          (i, j, k, swaps)
        else (i, j, k, swaps) in
      median x i j k swaps
    else (j, swaps) in
  if (swaps =? 0)%nat then (j, increasingHint)
  else if (swaps =? maxSwaps)%nat then (j, decreasingHint)
  else (j, unknownHint).

(** ** reverseRange_func: [for i < j { Swap(i, j); i++; j-- }] *)
Fixpoint reverseLoop (x : list A) (i j n : nat) : list A :=
  match n with
  | O => x
  | S n' =>
      if (i <? j)%nat then reverseLoop (Swap x i j) (S i) (j - 1) n' else x
  end.

Definition reverseRange (x : list A) (a b : nat) : list A :=
  reverseLoop x a (b - 1) ((b - a) / 2).

(** ** partialInsertionSort_func *)

(** [for i < b && !data.Less(i, i-1) { i++ }], [n = b - i] *)
Fixpoint scanSorted (x : list A) (i n : nat) : nat :=
  match n with
  | O => i
  | S n' => if negb (Less x i (i - 1)) then scanSorted x (S i) n' else i
  end.

(** [for j := i - 1; j >= 1; j-- { if !Less(j, j-1) { break }; Swap(j, j-1) }] *)
Fixpoint shiftLeft (x : list A) (j : nat) : list A :=
  match j with
  | O => x
  | S j' => if negb (Less x j j') then x else shiftLeft (Swap x j j') j'
  end.

(** [for j := i + 1; j < b; j++ { if !Less(j, j-1) { break }; Swap(j, j-1) }] *)
Fixpoint shiftRight (x : list A) (j n : nat) : list A :=
  match n with
  | O => x
  | S n' =>
      if negb (Less x j (j - 1)) then x
      else shiftRight (Swap x j (j - 1)) (S j) n'
  end.

Fixpoint partialInsertionLoop (x : list A) (a b i steps : nat)
  : list A * bool :=
  match steps with
  | O => (x, false)
  | S steps' =>
      let i := scanSorted x i (b - i) in
      if (i =? b)%nat then (x, true)
      else if (b - a <? shortestShifting)%nat then (x, false)
      else
        let x := Swap x i (i - 1) in
        let x := if (2 <=? i - a)%nat then shiftLeft x (i - 1) else x in
        let x := if (2 <=? b - i)%nat
                 then shiftRight x (i + 1) (b - (i + 1)) else x in
        partialInsertionLoop x a b i steps'
  end.

Definition partialInsertionSort (x : list A) (a b : nat) : list A * bool :=
  partialInsertionLoop x a b (a + 1) maxSteps.

(** ** partition_func and partitionEqual_func *)

(** [for i <= j && data.Less(i, a) { i++ }], [n = j + 1 - i] *)
Fixpoint scanUp (x : list A) (a i n : nat) : nat :=
  match n with
  | O => i
  | S n' => if Less x i a then scanUp x a (S i) n' else i
  end.

(** [for i <= j && !data.Less(j, a) { j-- }], [n = j + 1 - i] *)
Fixpoint scanDown (x : list A) (a j n : nat) : nat :=
  match n with
  | O => j
  | S n' => if negb (Less x j a) then scanDown x a (j - 1) n' else j
  end.

(** The [for] loop of [partition]; [j + 1 - i] shrinks at every turn, and
    the loop is left at the latest when it is [0], so [n >= j + 1 - i]
    turns are enough. *)
Fixpoint partitionLoop (x : list A) (a i j n : nat) : list A * nat :=
  let i := scanUp x a i (j + 1 - i) in
  let j := scanDown x a j (j + 1 - i) in
  if (j <? i)%nat then (x, j)
  else
    match n with
    | O => (x, j)
    | S n' => partitionLoop (Swap x i j) a (S i) (j - 1) n'
    end.

Definition partition (x : list A) (a b pivot : nat) : list A * nat * bool :=
  let x := Swap x a pivot in
  let i := a + 1 in
  let j := b - 1 in
  let i := scanUp x a i (j + 1 - i) in
  let j := scanDown x a j (j + 1 - i) in
  if (j <? i)%nat then (Swap x j a, j, true)
  else
    let x := Swap x i j in
    let '(x, j) := partitionLoop x a (S i) (j - 1) (b - a) in
    (Swap x j a, j, false).

(** [for i <= j && !data.Less(a, i) { i++ }] *)
Fixpoint scanUpEq (x : list A) (a i n : nat) : nat :=
  match n with
  | O => i
  | S n' => if negb (Less x a i) then scanUpEq x a (S i) n' else i
  end.

(** [for i <= j && data.Less(a, j) { j-- }] *)
Fixpoint scanDownEq (x : list A) (a j n : nat) : nat :=
  match n with
  | O => j
  | S n' => if Less x a j then scanDownEq x a (j - 1) n' else j
  end.

Fixpoint partitionEqualLoop (x : list A) (a i j n : nat) : list A * nat :=
  let i := scanUpEq x a i (j + 1 - i) in
  let j := scanDownEq x a j (j + 1 - i) in
  if (j <? i)%nat then (x, i)
  else
    match n with
    | O => (x, i)
    | S n' => partitionEqualLoop (Swap x i j) a (S i) (j - 1) n'
    end.

Definition partitionEqual (x : list A) (a b pivot : nat) : list A * nat :=
  let x := Swap x a pivot in
  partitionEqualLoop x a (a + 1) (b - 1) (b - a).

(** ** breakPatterns_func *)

(** [xorshift.Next] on a [uint64] *)
Definition xorshiftNext (r : N) : N :=
  let r := N.lxor r (N.shiftl r 13 mod 2 ^ 64) in
  let r := N.lxor r (N.shiftr r 7) in
  let r := N.lxor r (N.shiftl r 17 mod 2 ^ 64) in
  r.

(** [bits.Len(uint(length))] *)
Definition bitsLen (length : nat) : nat := N.size_nat (N.of_nat length).

(** [nextPowerOfTwo(length)]: [1 << bits.Len(uint(length))] *)
Definition nextPowerOfTwo (length : nat) : N := 2 ^ N.of_nat (bitsLen length).

(** [for i := 0; i < 3; i++ { ... data.Swap(idx-1+i, a+other) }].  No
    property below depends on which places are swapped, only on there
    being swaps inside the range. *)
Fixpoint breakLoop (x : list A) (a length idx : nat) (modulus random : N)
  (i n : nat) : list A :=
  match n with
  | O => x
  | S n' =>
      let random := xorshiftNext random in
      let other := N.to_nat (N.land random (modulus - 1)) in
      let other := if (length <=? other)%nat then other - length else other in
      breakLoop (Swap x (idx - 1 + i) (a + other)) a length idx modulus random
                (S i) n'
  end.

Definition breakPatterns (x : list A) (a b : nat) : list A :=
  let length := b - a in
  if (8 <=? length)%nat then
    let random := N.of_nat length in
    let modulus := nextPowerOfTwo length in
    let idx := a + (length / 4) * 2 - 1 in
    breakLoop x a length idx modulus random 0 3
  else x.

(** ** pdqsort_func

    One unit of [fuel] is spent per turn of the [for] loop and per
    recursive call; [b - a] shrinks at each, so [b - a + 1] units are
    enough (see [pdqsort_total]).  The recursive call starts with fresh
    [wasBalanced] and [wasPartitioned]; the next turn of the loop keeps
    the ones just computed. *)
Fixpoint pdqsort (fuel : nat) (x : list A) (a b limit : nat)
  (wasBalanced wasPartitioned : bool) : option (list A) :=
  match fuel with
  | O => None
  | S fuel' =>
      let length := b - a in
      if (length <=? maxInsertion)%nat then Some (insertionSort x a b)
      else if (limit =? 0)%nat then heapSort x a b
      else
        let '(x, limit) :=
          if negb wasBalanced then (breakPatterns x a b, limit - 1)
          else (x, limit) in
        let '(pivot, hint) := choosePivot x a b in
        let '(x, pivot, hint) :=
          match hint with
          | decreasingHint =>
              (reverseRange x a b, (b - 1) - (pivot - a), increasingHint)
          | _ => (x, pivot, hint)
          end in
        let '(x, sorted) :=
          match hint with
          | increasingHint =>
              if wasBalanced && wasPartitioned
              then partialInsertionSort x a b else (x, false)
          | _ => (x, false)
          end in
        if sorted then Some x
        else if (0 <? a)%nat && negb (Less x (a - 1) pivot) then
          let '(x, mid) := partitionEqual x a b pivot in
          pdqsort fuel' x mid b limit wasBalanced wasPartitioned
        else
          let '(x, mid, alreadyPartitioned) := partition x a b pivot in
          let wasPartitioned := alreadyPartitioned in
          let leftLen := mid - a in
          let rightLen := b - mid in
          let balanceThreshold := length / 8 in
          if (leftLen <? rightLen)%nat then
            let wasBalanced := (balanceThreshold <=? leftLen)%nat in
            match pdqsort fuel' x a mid limit true true with
            | None => None
            | Some x =>
                pdqsort fuel' x (mid + 1) b limit wasBalanced wasPartitioned
            end
          else
            let wasBalanced := (balanceThreshold <=? rightLen)%nat in
            match pdqsort fuel' x (mid + 1) b limit true true with
            | None => None
            | Some x => pdqsort fuel' x a mid limit wasBalanced wasPartitioned
            end
  end.

(** [sort.Slice(x, less)]: [pdqsort_func(lessSwap{less, swap}, 0, length,
    bits.Len(uint(length)))].  The [None] branch is never taken
    ([Slice_runs]). *)
Definition SliceRun (x : list A) : option (list A) :=
  let length := List.length x in
  pdqsort (S length) x 0 length (bitsLen length) true true.

Definition Slice (x : list A) : list A :=
  match SliceRun x with
  | Some x' => x'
  | None => x
  end.

End LessSwap.

End sort.

(* ===================================================================== *)
(** * Run-time panics *)
(* ===================================================================== *)

Inductive result (A : Type) : Type :=
| Ok (a : A)
| Panic.
Arguments Ok {A} a.
Arguments Panic {A}.

Definition bind {A B : Type} (r : result A) (k : A -> result B) : result B :=
  match r with
  | Ok a => k a
  | Panic => Panic
  end.

Notation "x <- r ;; k" := (bind r (fun x => k))
  (at level 61, r at next level, right associativity).
Notation "' p <- r ;; k" := (bind r (fun p => k))
  (at level 61, p pattern, r at next level, right associativity).

(** [s[i]]: index out of range panics. *)
Definition index {A : Type} (s : list A) (i : Z) : result A :=
  if (i <? 0)%Z then Panic
  else match nth_error s (Z.to_nat i) with
       | Some v => Ok v
       | None => Panic
       end.

(** [len(s)] *)
Definition len {A : Type} (s : list A) : Z := Z.of_nat (List.length s).

Fixpoint replaceNth {A : Type} (s : list A) (i : nat) (v : A) : list A :=
  match s, i with
  | [], _ => []
  | _ :: s', O => v :: s'
  | h :: s', S i' => h :: replaceNth s' i' v
  end.

(** [s[i] = v]: index out of range panics. *)
Definition store {A : Type} (s : list A) (i : Z) (v : A) : result (list A) :=
  if (i <? 0)%Z then Panic
  else if (Z.to_nat i <? List.length s)%nat then Ok (replaceNth s (Z.to_nat i) v)
  else Panic.

(* ===================================================================== *)
(** * The widgets, as far as the program reads and writes them

    Of [table.Model]: the columns and the rows it was last given, the
    cursor, and the height it was last asked for.  Its viewport and its
    styles are left out, and with the viewport what the widget does when
    it renders again after a change: the rendering fails when a row shown
    has more cells than there are columns, [SetRows] may lower the cursor
    to the last row, and the lines of the header are taken from the
    height.  Of [textinput.Model]: the value, the cursor and the focus.
    Its character limit and the cleaning of the text it is given are left
    out: value and cursor are right for texts that the widget stores as
    they are given.  The properties below that depend on what is left out
    say so in their hypotheses. *)
(* ===================================================================== *)

Module table.

Record Column := { Title : string; Width : Z }.

Definition Row := list string.

Record Model := {
  cols : list Column;
  rows : list Row;
  cursor : Z;
  height : Z
}.

Definition Columns (t : Model) : list Column := cols t.
Definition Cursor (t : Model) : Z := cursor t.
Definition SetRows (t : Model) (r : list Row) : Model :=
  {| cols := cols t; rows := r; cursor := cursor t; height := height t |}.
Definition SetColumns (t : Model) (c : list Column) : Model :=
  {| cols := c; rows := rows t; cursor := cursor t; height := height t |}.
Definition SetHeight (t : Model) (h : Z) : Model :=
  {| cols := cols t; rows := rows t; cursor := cursor t; height := h |}.

End table.

Module textinput.

Record Model := {
  value : string;
  pos : Z;
  focus : bool
}.

Definition Value (t : Model) : string := value t.
Definition SetValue (t : Model) (s : string) : Model :=
  {| value := s; pos := pos t; focus := focus t |}.
Definition SetCursor (t : Model) (p : Z) : Model :=
  {| value := value t;
     pos := Z.max 0 (Z.min p (Z.of_nat (String.length (value t))));
     focus := focus t |}.
Definition Focus (t : Model) : Model :=
  {| value := value t; pos := pos t; focus := true |}.
Definition Blur (t : Model) : Model :=
  {| value := value t; pos := pos t; focus := false |}.

End textinput.

(** [tea.Cmd]: the commands the program returns to the event loop. *)
Module tea.

Inductive Msg := statusMsg (message : string).

Inductive Cmd :=
| Nil
| Quit
| Emit (msg : Msg).

End tea.

(** [showStatus(msg)] *)
Definition showStatus (msg : string) : tea.Cmd := tea.Emit (tea.statusMsg msg).

Module syscall.

Record SysProcAttr := { Setpgid : bool; Pgid : Z }.

End syscall.

Module exec.

(** Of [exec.Cmd]: the argument vector, the working directory and the
    process attributes.  [Path], which [exec.Command] takes from a lookup
    of the name on the machine, is left out. *)
Record Cmd := {
  Args : list string;
  Dir : string;
  SysProcAttr : option syscall.SysProcAttr
}.

(** [exec.Command(name, arg...)]:
    [Args: append([]string{name}, arg...)] *)
Definition Command (name : string) (arg : list string) : Cmd :=
  {| Args := name :: arg; Dir := ""; SysProcAttr := None |}.

End exec.

(* ===================================================================== *)
(** * The program *)
(* ===================================================================== *)

Record Project := {
  Name : string;
  Path : string;
  Command : string;
  Link : string;
  Category : string
}.

(** The zero value of [Project]. *)
Definition zeroProject : Project :=
  {| Name := ""; Path := ""; Command := ""; Link := ""; Category := "" |}.

Record model := {
  projects : list Project;
  table : table.Model;
  editMode : bool;
  editRow : Z;
  editCol : Z;
  textInput : textinput.Model;
  configFile : string;
  width : Z;
  height : Z;
  statusMsg : string;
  statusExpiry : Z;
  scrollOffset : Z;
  maxCols : Z;
  projectIndices : list Z
}.

(** [m.f = v], one per field the program assigns. *)
Definition set_projects (m : model) (v : list Project) : model :=
  {| projects := v; table := table m; editMode := editMode m;
     editRow := editRow m; editCol := editCol m; textInput := textInput m;
     configFile := configFile m; width := width m; height := height m;
     statusMsg := statusMsg m; statusExpiry := statusExpiry m;
     scrollOffset := scrollOffset m; maxCols := maxCols m;
     projectIndices := projectIndices m |}.

Definition set_table (m : model) (v : table.Model) : model :=
  {| projects := projects m; table := v; editMode := editMode m;
     editRow := editRow m; editCol := editCol m; textInput := textInput m;
     configFile := configFile m; width := width m; height := height m;
     statusMsg := statusMsg m; statusExpiry := statusExpiry m;
     scrollOffset := scrollOffset m; maxCols := maxCols m;
     projectIndices := projectIndices m |}.

Definition set_editMode (m : model) (v : bool) : model :=
  {| projects := projects m; table := table m; editMode := v;
     editRow := editRow m; editCol := editCol m; textInput := textInput m;
     configFile := configFile m; width := width m; height := height m;
     statusMsg := statusMsg m; statusExpiry := statusExpiry m;
     scrollOffset := scrollOffset m; maxCols := maxCols m;
     projectIndices := projectIndices m |}.

Definition set_editRow (m : model) (v : Z) : model :=
  {| projects := projects m; table := table m; editMode := editMode m;
     editRow := v; editCol := editCol m; textInput := textInput m;
     configFile := configFile m; width := width m; height := height m;
     statusMsg := statusMsg m; statusExpiry := statusExpiry m;
     scrollOffset := scrollOffset m; maxCols := maxCols m;
     projectIndices := projectIndices m |}.

Definition set_editCol (m : model) (v : Z) : model :=
  {| projects := projects m; table := table m; editMode := editMode m;
     editRow := editRow m; editCol := v; textInput := textInput m;
     configFile := configFile m; width := width m; height := height m;
     statusMsg := statusMsg m; statusExpiry := statusExpiry m;
     scrollOffset := scrollOffset m; maxCols := maxCols m;
     projectIndices := projectIndices m |}.

Definition set_textInput (m : model) (v : textinput.Model) : model :=
  {| projects := projects m; table := table m; editMode := editMode m;
     editRow := editRow m; editCol := editCol m; textInput := v;
     configFile := configFile m; width := width m; height := height m;
     statusMsg := statusMsg m; statusExpiry := statusExpiry m;
     scrollOffset := scrollOffset m; maxCols := maxCols m;
     projectIndices := projectIndices m |}.

Definition set_width (m : model) (v : Z) : model :=
  {| projects := projects m; table := table m; editMode := editMode m;
     editRow := editRow m; editCol := editCol m; textInput := textInput m;
     configFile := configFile m; width := v; height := height m;
     statusMsg := statusMsg m; statusExpiry := statusExpiry m;
     scrollOffset := scrollOffset m; maxCols := maxCols m;
     projectIndices := projectIndices m |}.

Definition set_height (m : model) (v : Z) : model :=
  {| projects := projects m; table := table m; editMode := editMode m;
     editRow := editRow m; editCol := editCol m; textInput := textInput m;
     configFile := configFile m; width := width m; height := v;
     statusMsg := statusMsg m; statusExpiry := statusExpiry m;
     scrollOffset := scrollOffset m; maxCols := maxCols m;
     projectIndices := projectIndices m |}.

Definition set_statusMsg (m : model) (v : string) : model :=
  {| projects := projects m; table := table m; editMode := editMode m;
     editRow := editRow m; editCol := editCol m; textInput := textInput m;
     configFile := configFile m; width := width m; height := height m;
     statusMsg := v; statusExpiry := statusExpiry m;
     scrollOffset := scrollOffset m; maxCols := maxCols m;
     projectIndices := projectIndices m |}.

Definition set_statusExpiry (m : model) (v : Z) : model :=
  {| projects := projects m; table := table m; editMode := editMode m;
     editRow := editRow m; editCol := editCol m; textInput := textInput m;
     configFile := configFile m; width := width m; height := height m;
     statusMsg := statusMsg m; statusExpiry := v;
     scrollOffset := scrollOffset m; maxCols := maxCols m;
     projectIndices := projectIndices m |}.

Definition set_scrollOffset (m : model) (v : Z) : model :=
  {| projects := projects m; table := table m; editMode := editMode m;
     editRow := editRow m; editCol := editCol m; textInput := textInput m;
     configFile := configFile m; width := width m; height := height m;
     statusMsg := statusMsg m; statusExpiry := statusExpiry m;
     scrollOffset := v; maxCols := maxCols m;
     projectIndices := projectIndices m |}.

Definition set_maxCols (m : model) (v : Z) : model :=
  {| projects := projects m; table := table m; editMode := editMode m;
     editRow := editRow m; editCol := editCol m; textInput := textInput m;
     configFile := configFile m; width := width m; height := height m;
     statusMsg := statusMsg m; statusExpiry := statusExpiry m;
     scrollOffset := scrollOffset m; maxCols := v;
     projectIndices := projectIndices m |}.

Definition set_projectIndices (m : model) (v : list Z) : model :=
  {| projects := projects m; table := table m; editMode := editMode m;
     editRow := editRow m; editCol := editCol m; textInput := textInput m;
     configFile := configFile m; width := width m; height := height m;
     statusMsg := statusMsg m; statusExpiry := statusExpiry m;
     scrollOffset := scrollOffset m; maxCols := maxCols m;
     projectIndices := v |}.

(** What the program does to the outside: [WriteFile] is a call of
    [os.WriteFile] with the catalog as JSON, [StartProcess c] a call of
    [c.Start()]. *)
Inductive effect :=
| WriteFile (name : string) (content : list Project)
| StartProcess (c : exec.Cmd).

Local Open Scope Z_scope.

(** [for i := start; i < end && i < len(s); i++ { out = append(out, s[i]) }]
    with [n] turns to go. *)
Fixpoint collect {A : Type} (s : list A) (i : Z) (n : nat) : result (list A) :=
  match n with
  | O => Ok []
  | S n' =>
      v <- index s i ;;
      out <- collect s (i + 1) n' ;;
      Ok (v :: out)
  end.

(** The number of turns of that loop. *)
Definition turns {A : Type} (s : list A) (startCol endCol : Z) : nat :=
  Z.to_nat (Z.min endCol (len s) - startCol).

(** ** getSortedProjects *)

(** [if category == "" { category = "N/A" }] *)
Definition orNA (category : string) : string :=
  if (category =? "")%string then "N/A" else category.

(** The closure given to [sort.Slice], on the two elements it reads. *)
Definition projectLess (pI pJ : Project) : bool :=
  let categoryI := orNA (Category pI) in
  let categoryJ := orNA (Category pJ) in
  if negb (strings.EqualFold categoryI categoryJ)
  then String.ltb (strings.ToLower categoryI) (strings.ToLower categoryJ)
  else String.ltb (strings.ToLower (Name pI)) (strings.ToLower (Name pJ)).

Definition getSortedProjects (m : model) : list Project :=
  let sortedProjects := projects m in
  sort.Slice zeroProject projectLess sortedProjects.

(** ** updateTable *)

(** [headerRow[i]] for [i] from the given one, [n] cells to go. *)
Fixpoint headerCells (categoryHeader : string) (startCol i : Z) (n : nat)
  : table.Row :=
  match n with
  | O => []
  | S n' =>
      (if startCol + i =? 0 then categoryHeader else "")
        :: headerCells categoryHeader startCol (i + 1) n'
  end.

Definition headerRow (t : table.Model) (scrollOffset : Z)
  (displayCategory : string) : table.Row :=
  let categoryHeader := strings.concat ["📂 "; displayCategory] in
  let visibleCols := List.length (table.Columns t) in
  headerCells categoryHeader scrollOffset 0 visibleCols.

Definition fullRow (project : Project) : list string :=
  [Name project; Path project; Command project; orNA (Category project);
   Link project].

Definition projectRow (t : table.Model) (scrollOffset : Z) (project : Project)
  : result table.Row :=
  let visibleCols := len (table.Columns t) in
  let startCol := scrollOffset in
  let endCol := startCol + visibleCols in
  let endCol := if endCol >? len (fullRow project)
                then len (fullRow project) else endCol in
  collect (fullRow project) startCol (turns (fullRow project) startCol endCol).

(** The loop over [sortedProjects]: the rows and the index map appended
    from this record on. *)
Fixpoint tableRows (t : table.Model) (scrollOffset : Z)
  (sortedProjects : list Project) (lastCategory : string) (projectIndex : Z)
  : result (list table.Row * list Z) :=
  match sortedProjects with
  | [] => Ok ([], [])
  | project :: rest =>
      let displayCategory := orNA (Category project) in
      let isNew := negb (displayCategory =? lastCategory)%string in
      let lastCategory := if isNew then displayCategory else lastCategory in
      visibleRow <- projectRow t scrollOffset project ;;
      '(rows, indices) <-
         tableRows t scrollOffset rest lastCategory (projectIndex + 1) ;;
      Ok (if isNew
          then (headerRow t scrollOffset displayCategory :: visibleRow :: rows,
                (-1) :: projectIndex :: indices)
          else (visibleRow :: rows, projectIndex :: indices))
  end.

Definition updateTable (m : model) : result model :=
  let sortedProjects := getSortedProjects m in
  '(rows, indices) <-
     tableRows (table m) (scrollOffset m) sortedProjects "" 0 ;;
  Ok (set_table (set_projectIndices m indices) (table.SetRows (table m) rows)).

(** ** getProjectByDisplayIndex, getOriginalIndexByDisplayIndex *)

Definition sameIdentity (p sortedProject : Project) : bool :=
  (Name p =? Name sortedProject)%string &&
  (Path p =? Path sortedProject)%string &&
  (Command p =? Command sortedProject)%string.

(** [for i := range m.projects { if ... { return i } }; return -1] *)
Fixpoint findOriginal (ps : list Project) (sortedProject : Project) (i : Z)
  : Z :=
  match ps with
  | [] => -1
  | p :: ps' =>
      if sameIdentity p sortedProject then i
      else findOriginal ps' sortedProject (i + 1)
  end.

Definition getOriginalIndexByDisplayIndex (m : model) (displayIndex : Z)
  : result Z :=
  if (displayIndex <? 0) || (displayIndex >=? len (projectIndices m))
  then Ok (-1)
  else
    projectIndex <- index (projectIndices m) displayIndex ;;
    if projectIndex =? -1 then Ok (-1)
    else
      let sortedProjects := getSortedProjects m in
      if projectIndex >=? len sortedProjects then Ok (-1)
      else
        sortedProject <- index sortedProjects projectIndex ;;
        Ok (findOriginal (projects m) sortedProject 0).

(** The pointer [&m.projects[i]] is given as the record it points to;
    [nil] is [None]. *)
Definition getProjectByDisplayIndex (m : model) (displayIndex : Z)
  : result (option Project) :=
  if (displayIndex <? 0) || (displayIndex >=? len (projectIndices m))
  then Ok None
  else
    projectIndex <- index (projectIndices m) displayIndex ;;
    if projectIndex =? -1 then Ok None
    else
      let sortedProjects := getSortedProjects m in
      if projectIndex >=? len sortedProjects then Ok None
      else
        sortedProject <- index sortedProjects projectIndex ;;
        let i := findOriginal (projects m) sortedProject 0 in
        if i =? -1 then Ok None
        else p <- index (projects m) i ;; Ok (Some p).

(** ** adjustLayout *)

Definition allColumns : list table.Column :=
  [ {| table.Title := "Name"; table.Width := 30 |};
    {| table.Title := "Path"; table.Width := 35 |};
    {| table.Title := "Command"; table.Width := 35 |};
    {| table.Title := "Category"; table.Width := 15 |};
    {| table.Title := "Link"; table.Width := 30 |} ].

(** [for i, col := range allColumns { if totalWidth+col.Width <=
    availableWidth { ... } else { break } ... }] *)
Fixpoint fitColumns (columns : list table.Column)
  (availableWidth totalWidth visibleCols : Z) : Z * Z :=
  match columns with
  | [] => (totalWidth, visibleCols)
  | col :: rest =>
      if totalWidth + table.Width col <=? availableWidth
      then fitColumns rest availableWidth (totalWidth + table.Width col)
                      (visibleCols + 1)
      else (totalWidth, visibleCols)
  end.

Definition addWidth (col : table.Column) (extra : Z) : table.Column :=
  {| table.Title := table.Title col; table.Width := table.Width col + extra |}.

(** [allColumns[0].Width = availableWidth] *)
Definition setFirstWidth (columns : list table.Column) (w : Z)
  : list table.Column :=
  match columns with
  | [] => []
  | col :: rest =>
      {| table.Title := table.Title col; table.Width := w |} :: rest
  end.

(** [visibleColumns[len(visibleColumns)-1].Width += extraWidth] *)
Fixpoint widenLast (columns : list table.Column) (extraWidth : Z)
  : list table.Column :=
  match columns with
  | [] => []
  | [col] => [addWidth col extraWidth]
  | col :: rest => col :: widenLast rest extraWidth
  end.

Definition usedWidthOf (columns : list table.Column) : Z :=
  fold_left (fun usedWidth col => usedWidth + table.Width col) columns 0.

Definition adjustLayout (m : model) : result model :=
  let tableHeight := height m - 6 in
  let tableHeight := if tableHeight <? 5 then 5 else tableHeight in
  let availableWidth := width m - 6 in
  let '(_, visibleCols) := fitColumns allColumns availableWidth 0 0 in
  let '(visibleCols, columns) :=
    if visibleCols =? 0
    then (1, setFirstWidth allColumns availableWidth)
    else (visibleCols, allColumns) in
  let startCol := scrollOffset m in
  let endCol := startCol + visibleCols in
  let '(startCol, endCol, m) :=
    if endCol >? len columns then
      let endCol := len columns in
      let startCol := endCol - visibleCols in
      let startCol := if startCol <? 0 then 0 else startCol in
      (startCol, endCol, set_scrollOffset m startCol)
    else (startCol, endCol, m) in
  visibleColumns <- collect columns startCol (turns columns startCol endCol) ;;
  let visibleColumns :=
    if len visibleColumns >? 0 then
      let extraWidth := availableWidth - usedWidthOf visibleColumns in
      if extraWidth >? 0 then widenLast visibleColumns extraWidth
      else visibleColumns
    else visibleColumns in
  let t := table.SetColumns (table m) visibleColumns in
  let t := table.SetHeight t tableHeight in
  Ok (set_maxCols (set_table m t) (len columns)).

(** [case tea.WindowSizeMsg] of [Update] *)
Definition windowSize (m : model) (w h : Z) : result model :=
  adjustLayout (set_height (set_width m w) h).

(** [case "right"] of [updateNormal] *)
Definition scrollRight (m : model) : result model :=
  let maxOffset := maxCols m - len (table.Columns (table m)) in
  let maxOffset := if maxOffset <? 0 then 0 else maxOffset in
  if scrollOffset m <? maxOffset then
    m <- adjustLayout (set_scrollOffset m (scrollOffset m + 1)) ;;
    updateTable m
  else Ok m.

(** ** The edit session *)

(** [switch m.editCol { case 0: ... project.Name ... case 4: ...
    project.Category }]; no case, no assignment. *)
Definition fieldOf (project : Project) (col : Z) : string :=
  if col =? 0 then Name project
  else if col =? 1 then Path project
  else if col =? 2 then Command project
  else if col =? 3 then Link project
  else if col =? 4 then Category project
  else "".

Definition setField (p : Project) (col : Z) (value : string) : Project :=
  if col =? 0 then
    {| Name := value; Path := Path p; Command := Command p; Link := Link p;
       Category := Category p |}
  else if col =? 1 then
    {| Name := Name p; Path := value; Command := Command p; Link := Link p;
       Category := Category p |}
  else if col =? 2 then
    {| Name := Name p; Path := Path p; Command := value; Link := Link p;
       Category := Category p |}
  else if col =? 3 then
    {| Name := Name p; Path := Path p; Command := Command p; Link := value;
       Category := Category p |}
  else if col =? 4 then
    {| Name := Name p; Path := Path p; Command := Command p; Link := Link p;
       Category := value |}
  else p.

(** [len(s)] of a string *)
Definition strlen (s : string) : Z := Z.of_nat (String.length s).

(** [m.textInput.SetValue(v); m.textInput.SetCursor(len(v))] *)
Definition loadInput (t : textinput.Model) (v : string) : textinput.Model :=
  textinput.SetCursor (textinput.SetValue t v) (strlen v).

Definition startEdit (m : model) : result model :=
  if len (projects m) =? 0 then Ok m
  else
    let m := set_editMode m true in
    let displayIndex := table.Cursor (table m) in
    originalIndex <- getOriginalIndexByDisplayIndex m displayIndex ;;
    let m := set_editRow m originalIndex in
    if editRow m =? -1 then Ok m
    else
      let m := set_editCol m 0 in
      project <- index (projects m) (editRow m) ;;
      let initialValue := fieldOf project (editCol m) in
      Ok (set_textInput m
            (textinput.Focus (loadInput (textInput m) initialValue))).

(** [os.WriteFile(m.configFile, data, 0644)], [data] the catalog as JSON;
    the error is dropped. *)
Definition saveProjects (m : model) : list effect :=
  [WriteFile (configFile m) (projects m)].

Definition saveEdit (m : model) : result (model * list effect) :=
  if negb (editMode m) || (editRow m <? 0) || (editRow m >=? len (projects m))
  then Ok (m, [])
  else
    let value := textinput.Value (textInput m) in
    project <- index (projects m) (editRow m) ;;
    ps <- store (projects m) (editRow m) (setField project (editCol m) value) ;;
    let m := set_projects m ps in
    let fx := saveProjects m in
    m <- updateTable m ;;
    Ok (m, fx).

Definition cancelEdit (m : model) : model :=
  let m := set_editMode m false in
  let m := set_editRow m (-1) in
  let m := set_editCol m (-1) in
  set_textInput m (textinput.SetValue (textinput.Blur (textInput m)) "").

(** The shared tail of the [tab] and [shift+tab] cases. *)
Definition moveField (m : model) (col : Z) : result model :=
  let m := set_editCol m col in
  project <- index (projects m) (editRow m) ;;
  let newValue := fieldOf project (editCol m) in
  Ok (set_textInput m (loadInput (textInput m) newValue)).

(** [updateEdit(msg)], [key] being [msg.String()]; [forward] is
    [m.textInput.Update], the text editor of the widget library. *)
Definition updateEdit
  (forward : textinput.Model -> string -> textinput.Model * tea.Cmd)
  (m : model) (key : string) : result (model * tea.Cmd * list effect) :=
  if (key =? "esc")%string then Ok (cancelEdit m, tea.Nil, [])
  else if (key =? "enter")%string then
    '(m, fx) <- saveEdit m ;;
    Ok (cancelEdit m, showStatus "✅ Project updated", fx)
  else if (key =? "tab")%string then
    '(m, fx) <- saveEdit m ;;
    m <- moveField m (Z.rem (editCol m + 1) 5) ;;
    Ok (m, tea.Nil, fx)
  else if (key =? "shift+tab")%string then
    '(m, fx) <- saveEdit m ;;
    m <- moveField m (Z.rem (editCol m - 1 + 5) 5) ;;
    Ok (m, tea.Nil, fx)
  else
    let '(t, cmd) := forward (textInput m) key in
    Ok (set_textInput m t, cmd, []).

(** ** The launcher *)

(** The two [strings.ReplaceAll] of [launchProject]. *)
Definition windowsPathOf (path : string) : string :=
  let windowsPath := strings.ReplaceAll path "/mnt/c" "C:" in
  strings.ReplaceAll windowsPath "/" "\".

(** [start] is [cmd.Start()]: [None] for a nil error, else the text of the
    error. *)
Definition launchProject (start : exec.Cmd -> option string)
  (project : Project) : list effect * tea.Cmd :=
  let isWindowsPath := strings.HasPrefix (Path project) "/mnt/c/" in
  let cmd :=
    if isWindowsPath then
      let windowsPath := windowsPathOf (Path project) in
      if strings.HasSuffix (Command project) ".exe" then
        let psCommand :=
          strings.concat ["Set-Location '"; windowsPath; "'; Start-Process '";
                          Command project; "'"] in
        exec.Command "powershell.exe" ["-Command"; psCommand]
      else
        let psCommand :=
          strings.concat ["Set-Location '"; windowsPath; "'; ";
                          Command project] in
        exec.Command "powershell.exe" ["-Command"; psCommand]
    else
      let cmdString :=
        strings.concat ["cd '"; Path project; "' && "; Command project] in
      let cmd := exec.Command "bash" ["-c"; cmdString] in
      {| exec.Args := exec.Args cmd;
         exec.Dir := Path project;
         exec.SysProcAttr :=
           Some {| syscall.Setpgid := true; syscall.Pgid := 0 |} |} in
  let err := start cmd in
  let status :=
    match err with
    | Some e =>
        showStatus (strings.concat ["❌ Failed to launch "; Name project; ": "; e])
    | None =>
        if isWindowsPath then
          let method :=
            if strings.HasSuffix (Command project) ".exe"
            then "PowerShell Start-Process" else "PowerShell" in
          showStatus (strings.concat ["🚀 Launched "; Name project;
                                      " (Windows via "; method; ")"])
        else showStatus (strings.concat ["🚀 Launched "; Name project])
    end in
  ([StartProcess cmd], status).

Definition openProjectLink (start : exec.Cmd -> option string)
  (project : Project) : list effect * tea.Cmd :=
  if (Link project =? "")%string then ([], showStatus "📭 No Link Associated")
  else
    let cmd := exec.Command "cmd.exe" ["/c"; "start"; Link project] in
    let err := start cmd in
    match err with
    | Some e =>
        ([StartProcess cmd],
         showStatus (strings.concat ["❌ Failed to open link: "; e]))
    | None =>
        ([StartProcess cmd],
         showStatus (strings.concat ["🌐 Opened "; Name project;
                                     " link in browser"]))
    end.

(** What [fork/exec] does with [SysProcAttr] (package syscall, Linux):
    with [Setpgid] the child calls [setpgid(0, Pgid)], and a [Pgid] of [0]
    makes its own process id its group; without it the child stays in the
    group of its parent. *)
Definition childPgid (attr : option syscall.SysProcAttr)
  (parentPgid childPid : Z) : Z :=
  match attr with
  | Some a =>
      if syscall.Setpgid a
      then (if syscall.Pgid a =? 0 then childPid else syscall.Pgid a)
      else parentPgid
  | None => parentPgid
  end.

(** ** The program at start-up *)

(** The struct literal of [main], with the widgets it creates: the text
    input of [textinput.New] and the table with its four columns. *)
Definition initModel (configFile : string) (loaded : list Project) : model :=
  {| projects := loaded;
     table :=
       {| table.cols :=
            [ {| table.Title := "Name"; table.Width := 30 |};
              {| table.Title := "Path"; table.Width := 40 |};
              {| table.Title := "Command"; table.Width := 30 |};
              {| table.Title := "Category"; table.Width := 15 |} ];
          table.rows := [];
          table.cursor := 0;
          table.height := 10 |};
     editMode := false;
     editRow := -1;
     editCol := -1;
     textInput :=
       {| textinput.value := ""; textinput.pos := 0;
          textinput.focus := false |};
     configFile := configFile;
     width := 100;
     height := 24;
     statusMsg := "";
     statusExpiry := 0;
     scrollOffset := 0;
     maxCols := 5;
     projectIndices := [] |}.

(* ===================================================================== *)
(** * The properties of the specification, as predicates on the program *)
(* ===================================================================== *)

(** What the lookups match on: name, path and command. *)
Definition identity (p : Project) : string * string * string :=
  (Name p, Path p, Command p).

(** Display row [d] is a record row: inside the index map, and not marked
    as a header. *)
Definition recordRow (m : model) (d : Z) : Prop :=
  exists k, index (projectIndices m) d = Ok k /\ k <> -1.

(** Record [p] is shown at display row [d]: the index map names its place
    in the sorted copy, and the row holds its cells. *)
Definition shownAt (m : model) (d : Z) (p : Project) : Prop :=
  exists k row,
    index (projectIndices m) d = Ok k /\
    index (getSortedProjects m) k = Ok p /\
    index (table.rows (table m)) d = Ok row /\
    projectRow (table m) (scrollOffset m) p = Ok row.

(** Every record row resolves to a catalog index. *)
Definition resolvesValid (m : model) : Prop :=
  forall d, recordRow m d ->
    exists i, getOriginalIndexByDisplayIndex m d = Ok i /\
              0 <= i < len (projects m).

(** Two record rows never resolve to the same catalog index. *)
Definition resolvesDistinct (m : model) : Prop :=
  forall d1 d2 i1 i2,
    recordRow m d1 -> recordRow m d2 -> d1 <> d2 ->
    getOriginalIndexByDisplayIndex m d1 = Ok i1 ->
    getOriginalIndexByDisplayIndex m d2 = Ok i2 ->
    i1 <> i2.

(** The catalog record a row resolves to is the record shown there. *)
Definition resolvesShown (m : model) : Prop :=
  forall d i, recordRow m d ->
    getOriginalIndexByDisplayIndex m d = Ok i ->
    exists p, index (projects m) i = Ok p /\ shownAt m d p.

(** The catalog record a row resolves to has the name, path and command of
    the record shown there. *)
Definition resolvesIdentity (m : model) : Prop :=
  forall d i, recordRow m d ->
    getOriginalIndexByDisplayIndex m d = Ok i ->
    exists p q, index (projects m) i = Ok p /\ shownAt m d q /\
                identity p = identity q.

(** The number of header rows of the projection. *)
Definition headerCount (m : model) : nat :=
  count_occ Z.eq_dec (projectIndices m) (-1).

(** The display categories present in a catalog, each once. *)
Definition displayCategories (ps : list Project) : list string :=
  nodup string_dec (map (fun p => orNA (Category p)) ps).

(** The two records compare equal under the comparator's keys: categories
    by [EqualFold], names by their lower-case forms. *)
Definition sameKey (p q : Project) : bool :=
  strings.EqualFold (orNA (Category p)) (orNA (Category q)) &&
  (strings.ToLower (Name p) =? strings.ToLower (Name q))%string.

(** [sorted] keeps the records of every key class in the order they have
    in [ps]. *)
Definition keepsOrder (ps sorted : list Project) : Prop :=
  forall p, filter (sameKey p) sorted = filter (sameKey p) ps.

(** The byte [c] occurs in [s]. *)
Fixpoint hasByte (c : ascii) (s : string) : bool :=
  match s with
  | EmptyString => false
  | String c' s' => Ascii.eqb c c' || hasByte c s'
  end.

(** The string [old] occurs in [s]. *)
Fixpoint occursIn (old s : string) : bool :=
  String.prefix old s ||
  match s with
  | EmptyString => false
  | String _ s' => occursIn old s'
  end.

(** [strings.Join(pieces, sep)] *)
Fixpoint joined (sep : string) (pieces : list string) : string :=
  match pieces with
  | [] => ""
  | [s] => s
  | s :: rest => s ++ sep ++ joined sep rest
  end.

(** The words of the specification for the separators: every [/] is a
    backslash, every other byte is what it was. *)
Fixpoint backslashed (s : string) : string :=
  match s with
  | EmptyString => EmptyString
  | String c s' =>
      String (if Ascii.eqb c "/" then "\"%char else c) (backslashed s')
  end.

(** All byte values. *)
Definition allBytes : list ascii := map ascii_of_nat (seq 0 256).

(** ** The inputs of the scenarios and of the examples *)

Definition project (name category : string) : Project :=
  {| Name := name; Path := "/srv/" ++ name; Command := "make run";
     Link := ""; Category := category |}.

(** The catalog of the projection scenario. *)
Definition scenarioCatalog : list Project :=
  [project "Zeta" "Web"; project "Alpha" "Web"; project "Beta" ""].

(** One category spelt in two ways. *)
Definition mixedCaseCatalog : list Project :=
  [project "a" "Web"; project "b" "web"; project "c" "Web"].

(** Two records of one key, told apart by their links, and one of a
    smaller category between them. *)
Definition sameKeyCatalog : list Project :=
  [ {| Name := "Api"; Path := "/srv/api"; Command := "make run";
       Link := "first"; Category := "web" |};
    project "zed" "Cli";
    {| Name := "API"; Path := "/srv/api"; Command := "make run";
       Link := "second"; Category := "Web" |} ].

(** Two records with one name, path and command. *)
Definition twinCatalog : list Project :=
  [ {| Name := "api"; Path := "/srv/api"; Command := "make run";
       Link := ""; Category := "Staging" |};
    {| Name := "api"; Path := "/srv/api"; Command := "make run";
       Link := ""; Category := "Prod" |} ].

(** Thirteen records: twelve of one name and category, told apart by
    their links, then one of a smaller category. *)
Definition tool (link : string) : Project :=
  {| Name := "tool"; Path := "/srv/tool"; Command := "make run";
     Link := link; Category := "Web" |}.

Definition thirteenCatalog : list Project :=
  [tool "a"; tool "b"; tool "c"; tool "d"; tool "e"; tool "f"; tool "g";
   tool "h"; tool "i"; tool "j"; tool "k"; tool "l"; project "first" "Cli"].

(** A catalog of one record, shown by the program at start-up: the cursor
    is on row 0, the header of its category. *)
Definition oneCatalog : list Project := [project "api" "Web"].

(** The dashboard, started on an empty catalog, in a pane of width 80
    (two columns fit), after the right key was pressed three times. *)
Definition scrolledModel : result model :=
  m <- windowSize (initModel "cfg" []) 80 24 ;;
  m <- scrollRight m ;;
  m <- scrollRight m ;;
  scrollRight m.

Definition scenarioNative : Project :=
  {| Name := "api"; Path := "/home/x/api"; Command := "python main.py";
     Link := ""; Category := "" |}.

Definition scenarioForeign : Project :=
  {| Name := "app"; Path := "/mnt/c/Users/x/app"; Command := "app.exe";
     Link := ""; Category := "" |}.

(** A path that holds the mount prefix twice. *)
Definition scenarioTwice : Project :=
  {| Name := "twice"; Path := "/mnt/c/a/mnt/c/b"; Command := "run.exe";
     Link := ""; Category := "" |}.

Definition scenarioScript : Project :=
  {| Name := "tool"; Path := "/mnt/c/tools"; Command := "python run.py";
     Link := "https://example.org"; Category := "" |}.

(* ===================================================================== *)
(** * The rest of the key and message handling *)
(* ===================================================================== *)

(** [table.SetCursor(n)] of the table widget: the cursor is clamped to the
    rows, [clamp(n, 0, len(m.rows)-1)]. *)
Definition table_SetCursor (t : table.Model) (n : Z) : table.Model :=
  {| table.cols := table.cols t; table.rows := table.rows t;
     table.cursor := Z.min (Z.max n 0) (len (table.rows t) - 1);
     table.height := table.height t |}.

(** [append(s[:i], s[i+1:]...)]: slicing outside the slice panics. *)
Definition removeAt {A : Type} (s : list A) (i : Z) : result (list A) :=
  if (i <? 0) || (len s <? i + 1) then Panic
  else Ok (firstn (Z.to_nat i) s ++ skipn (Z.to_nat (i + 1)) s)%list.

(** The record that the add key appends. *)
Definition newProject : Project :=
  {| Name := "New Project"; Path := "/path/to/project"; Command := "command";
     Link := ""; Category := "" |}.

(** [case "left"] of [updateNormal] *)
Definition scrollLeft (m : model) : result model :=
  if scrollOffset m >? 0 then
    m <- adjustLayout (set_scrollOffset m (scrollOffset m - 1)) ;;
    updateTable m
  else Ok m.

(** [case "n", "a"] of [updateNormal] *)
Definition addProject (m : model) : result (model * tea.Cmd * list effect) :=
  let m := set_projects m (projects m ++ [newProject])%list in
  m <- updateTable m ;;
  let fx := saveProjects m in
  let m := set_table m (table_SetCursor (table m) (len (projects m) - 1)) in
  m <- startEdit m ;;
  Ok (m, showStatus "➕ New project added", fx).

(** [case "d", "delete"] of [updateNormal] *)
Definition deleteProject (m : model) : result (model * tea.Cmd * list effect) :=
  if len (projects m) >? 0 then
    let displayIndex := table.Cursor (table m) in
    originalIndex <- getOriginalIndexByDisplayIndex m displayIndex ;;
    if originalIndex =? -1 then Ok (m, tea.Nil, [])
    else
      p <- index (projects m) originalIndex ;;
      let projectName := Name p in
      ps <- removeAt (projects m) originalIndex ;;
      let m := set_projects m ps in
      let fx := saveProjects m in
      m <- updateTable m ;;
      Ok (m, showStatus (strings.concat ["🗑️ Deleted "; projectName]), fx)
  else Ok (m, tea.Nil, []).

(** [case " ", "enter"] and [case "o"] of [updateNormal]: [run] is
    [m.launchProject] or [m.openProjectLink]. *)
Definition onSelected (run : Project -> list effect * tea.Cmd) (m : model)
  : result (model * tea.Cmd * list effect) :=
  if len (projects m) >? 0 then
    let displayIndex := table.Cursor (table m) in
    project <- getProjectByDisplayIndex m displayIndex ;;
    match project with
    | Some p => let '(fx, cmd) := run p in Ok (m, cmd, fx)
    | None => Ok (m, tea.Nil, [])
    end
  else Ok (m, tea.Nil, []).

(** [case "r"] of [updateNormal]; [load] is [loadProjects]: what the file
    holds when it is read, the empty catalog when it cannot be read. *)
Definition refresh (load : string -> list Project) (m : model)
  : result (model * tea.Cmd * list effect) :=
  let m := set_projects m (load (configFile m)) in
  m <- updateTable m ;;
  Ok (m, showStatus "🔄 Refreshed", []).

(** [updateNormal(msg)], [key] being [msg.String()]; [navigate] is
    [m.table.Update], the navigation of the table widget. *)
Definition updateNormal
  (start : exec.Cmd -> option string)
  (load : string -> list Project)
  (navigate : table.Model -> string -> table.Model * tea.Cmd)
  (m : model) (key : string) : result (model * tea.Cmd * list effect) :=
  if (key =? "q")%string || (key =? "ctrl+c")%string then Ok (m, tea.Quit, [])
  else if (key =? "e")%string then m <- startEdit m ;; Ok (m, tea.Nil, [])
  else if (key =? "n")%string || (key =? "a")%string then addProject m
  else if (key =? "d")%string || (key =? "delete")%string then deleteProject m
  else if (key =? " ")%string || (key =? "enter")%string
  then onSelected (launchProject start) m
  else if (key =? "r")%string then refresh load m
  else if (key =? "o")%string then onSelected (openProjectLink start) m
  else if (key =? "left")%string then
    m <- scrollLeft m ;; Ok (m, tea.Nil, [])
  else if (key =? "right")%string then
    m <- scrollRight m ;; Ok (m, tea.Nil, [])
  else
    let '(t, cmd) := navigate (table m) key in
    Ok (set_table m t, cmd, []).

(** The messages [Update] tells apart; [OtherMsg] stands for every other
    message (the mouse), named by a string. *)
Inductive message :=
| StatusMsg (text : string)
| WindowSizeMsg (w h : Z)
| KeyMsg (key : string)
| OtherMsg (name : string).

(** [3 * time.Second], in nanoseconds. *)
Definition statusDuration : Z := 3 * 1000000000.

(** [Update(msg)]; [now] is [time.Now()]. *)
Definition Update
  (start : exec.Cmd -> option string)
  (load : string -> list Project)
  (navigate : table.Model -> string -> table.Model * tea.Cmd)
  (forward : textinput.Model -> string -> textinput.Model * tea.Cmd)
  (now : Z) (m : model) (msg : message)
  : result (model * tea.Cmd * list effect) :=
  match msg with
  | StatusMsg text =>
      let m := set_statusMsg m text in
      let m := set_statusExpiry m (now + statusDuration) in
      Ok (m, tea.Nil, [])
  | WindowSizeMsg w h => m <- windowSize m w h ;; Ok (m, tea.Nil, [])
  | KeyMsg key =>
      if editMode m then updateEdit forward m key
      else updateNormal start load navigate m key
  | OtherMsg name =>
      if negb (editMode m) then
        let '(t, cmd) := navigate (table m) name in
        Ok (set_table m t, cmd, [])
      else Ok (m, tea.Nil, [])
  end.

(* ===================================================================== *)
(** * More properties of the program, as predicates *)
(* ===================================================================== *)

(** Display row [d] is a header row. *)
Definition headerAt (m : model) (d : Z) : Prop :=
  index (projectIndices m) d = Ok (-1).

(** Display row [d] is the header row of display category [c]. *)
Definition headerOf (m : model) (d : Z) (c : string) : Prop :=
  index (projectIndices m) d = Ok (-1) /\
  index (table.rows (table m)) d
  = Ok (headerRow (table m) (scrollOffset m) c).

(** Every entry of the index map is a place or the header mark. *)
Definition indexMapOk (m : model) : Prop :=
  Forall (fun k => -1 <= k) (projectIndices m).

(** What the handlers rely on and keep: a scroll offset that is not
    negative and an index map of places and header marks. *)
Definition ready (m : model) : Prop :=
  0 <= scrollOffset m /\ indexMapOk m.

(** The edit row is a place of the catalog. *)
Definition sessionOk (m : model) : Prop :=
  0 <= editRow m < len (projects m).

(** A session on the first record of the scenario catalog, its name field
    overtyped. *)
Definition editingModel : model :=
  set_textInput
    (set_editCol (set_editRow (set_editMode
       (initModel "cfg" scenarioCatalog) true) 0) 0)
    {| textinput.value := "Zulu"; textinput.pos := 4;
       textinput.focus := true |}.

(** The model [main] hands to the event loop for the scenario catalog,
    the cursor moved down to row 1, the record Beta. *)
Definition selectedModel : model :=
  match updateTable (initModel "cfg" scenarioCatalog) with
  | Ok m => set_table m (table_SetCursor (table m) 1)
  | Panic => initModel "cfg" scenarioCatalog
  end.

(** Texts that the text input stores as they are given: within the
    character limit of 200 that [main] sets, and of printable ASCII, which
    the cleaning of the widget leaves alone. *)
Fixpoint printable (s : string) : bool :=
  match s with
  | EmptyString => true
  | String c s' =>
      (32 <=? nat_of_ascii c)%nat && (nat_of_ascii c <? 127)%nat &&
      printable s'
  end.

Definition keptByInput (s : string) : Prop :=
  (String.length s <= 200)%nat /\ printable s = true.

(** The shapes a step in normal mode can take. *)
Definition normalStep (load : string -> list Project) (m : model)
  (key : string) (m' : model) (fx : list effect) : Prop :=
  ready m' /\ configFile m' = configFile m /\
  ((projects m' = projects m /\ fx = []) \/
   (m' = m /\ In key [" "; "enter"; "o"] /\
    exists p c,
      getProjectByDisplayIndex m (table.Cursor (table m)) = Ok (Some p) /\
      fx = [StartProcess c]) \/
   (fx = [WriteFile (configFile m) (projects m')] /\
    In key ["n"; "a"; "d"; "delete"]) \/
   (key = "r" /\ projects m' = load (configFile m) /\ fx = [])).

(** The shapes a step in edit mode can take. *)
Definition editStep (m : model) (key : string) (m' : model)
  (fx : list effect) : Prop :=
  ready m' /\ configFile m' = configFile m /\
  ((projects m' = projects m /\ fx = []) \/
   (fx = [WriteFile (configFile m) (projects m')] /\ sessionOk m /\
    In key ["enter"; "tab"; "shift+tab"])).

(** The shapes a step of [Update] can take: a quiet step, a launch, a
    write of the catalog, a reload. *)
Definition stepShape (load : string -> list Project) (m : model)
  (msg : message) (m' : model) (fx : list effect) : Prop :=
  ready m' /\ configFile m' = configFile m /\
  ((projects m' = projects m /\ fx = []) \/
   (editMode m = false /\ m' = m /\
    exists key p c,
      msg = KeyMsg key /\ In key [" "; "enter"; "o"] /\
      getProjectByDisplayIndex m (table.Cursor (table m)) = Ok (Some p) /\
      fx = [StartProcess c]) \/
   (fx = [WriteFile (configFile m) (projects m')] /\
    exists key,
      msg = KeyMsg key /\
      ((editMode m = true /\ sessionOk m /\
        In key ["enter"; "tab"; "shift+tab"]) \/
       (editMode m = false /\ In key ["n"; "a"; "d"; "delete"]))) \/
   (editMode m = false /\ msg = KeyMsg "r" /\
    projects m' = load (configFile m) /\ fx = [])).

(** The messages that [Update] handles by the program's own code, with no
    call of [SetColumns] and without handing the message to a widget:
    the status message; in edit mode, the keys esc, enter, tab and
    shift+tab and the messages that are no keys; in normal mode, the keys
    of the program but for the two that scroll. *)
Definition handledHere (m : model) (msg : message) : Prop :=
  match msg with
  | StatusMsg _ => True
  | WindowSizeMsg _ _ => False
  | KeyMsg key =>
      if editMode m then In key ["esc"; "enter"; "tab"; "shift+tab"]
      else In key ["q"; "ctrl+c"; "e"; "n"; "a"; "d"; "delete"; " ";
                   "enter"; "r"; "o"]
  | OtherMsg _ => editMode m = true
  end.

(** A model in edit mode on an empty catalog: a session on no record. *)
Definition strandedModel : model :=
  set_editMode (initModel "cfg" []) true.

(** The model is laid out and projected: laying it out again and
    rebuilding the projection change nothing. *)
Definition settled (m : model) : Prop :=
  adjustLayout m = Ok m /\ updateTable m = Ok m.

(** Two models agree on all that layout and projection leave alone. *)
Definition sameSession (a b : model) : Prop :=
  projects a = projects b /\ editMode a = editMode b /\
  editRow a = editRow b /\ editCol a = editCol b /\
  textInput a = textInput b /\ configFile a = configFile b /\
  width a = width b /\ height a = height b /\
  statusMsg a = statusMsg b /\ statusExpiry a = statusExpiry b /\
  table.cursor (table a) = table.cursor (table b).

(** The model of the scenario catalog once the terminal has reported a
    pane of 80 by 24 and the projection has been rebuilt. *)
Definition settledModel : model :=
  match (m <- windowSize (initModel "cfg" scenarioCatalog) 80 24 ;;
         updateTable m) with
  | Ok m => m
  | Panic => initModel "cfg" scenarioCatalog
  end.

(* ===================================================================== *)
(** * Orders and sorted slices, as predicates *)
(* ===================================================================== *)

(** [less] is a strict weak order: irreflexive, transitive, and with a
    transitive incomparability. *)
Definition strictWeakOrder {A : Type} (less : A -> A -> bool) : Prop :=
  (forall x, less x x = false) /\
  (forall x y z, less x y = true -> less y z = true -> less x z = true) /\
  (forall x y z, less x z = true -> less x y = true \/ less y z = true).

(** No element of [l] is less than one before it. *)
Definition ordered {A : Type} (less : A -> A -> bool) (l : list A) : Prop :=
  forall i j p q, (i < j)%nat ->
    nth_error l i = Some p -> nth_error l j = Some q -> less q p = false.

(** The same of the range [a, b) of the slice [x]. *)
Definition sortedIn {A : Type} (zero : A) (less : A -> A -> bool)
  (x : list A) (a b : nat) : Prop :=
  forall i j, (a <= i)%nat -> (i < j)%nat -> (j < b)%nat ->
    less (nth j x zero) (nth i x zero) = false.

(** [x'] is [x] with elements moved inside the range [a, b): the rest is
    as it was, and what the range holds it held before. *)
Definition movedIn {A : Type} (zero : A) (x x' : list A) (a b : nat) : Prop :=
  List.length x' = List.length x /\
  (forall k, (k < a \/ b <= k)%nat -> nth k x' zero = nth k x zero) /\
  (forall k, (a <= k < b)%nat ->
     exists k', (a <= k' < b)%nat /\ nth k x' zero = nth k' x zero).

(** The element before the range, when there is one, is less than none
    of the range: what [pdqsort_func] relies on when it is called on the
    right part of a partition. *)
Definition predOk {A : Type} (zero : A) (less : A -> A -> bool)
  (x : list A) (a b : nat) : Prop :=
  (0 < a)%nat -> forall k, (a <= k < b)%nat ->
    less (nth k x zero) (nth (a - 1) x zero) = false.

(** The keys the comparator of [getSortedProjects] orders by. *)
Definition sortKey (p : Project) : string * string :=
  (strings.ToLower (orNA (Category p)), strings.ToLower (Name p)).

(** The heap of [heapSort_func] on [x[first : first+hi]]: from node [lo]
    on, no node is less than its children. *)
Definition heapFrom {A : Type} (zero : A) (less : A -> A -> bool)
  (x : list A) (first lo hi : nat) : Prop :=
  forall p c, (lo <= p)%nat -> (c < hi)%nat ->
    (c = 2 * p + 1 \/ c = 2 * p + 2)%nat ->
    less (nth (first + p) x zero) (nth (first + c) x zero) = false.

(** The same but at node [r], whose children are not above the parent of
    [r]: the state of [siftDown_func] while it sinks the element at [r]. *)
Definition heapBut {A : Type} (zero : A) (less : A -> A -> bool)
  (x : list A) (first lo hi r : nat) : Prop :=
  (forall p c, (lo <= p)%nat -> (c < hi)%nat ->
     (c = 2 * p + 1 \/ c = 2 * p + 2)%nat -> p <> r ->
     less (nth (first + p) x zero) (nth (first + c) x zero) = false) /\
  (forall g c, (lo <= g)%nat -> (c < hi)%nat ->
     (r = 2 * g + 1 \/ r = 2 * g + 2)%nat ->
     (c = 2 * r + 1 \/ c = 2 * r + 2)%nat ->
     less (nth (first + g) x zero) (nth (first + c) x zero) = false).

(** Categories that differ in case only are spelled alike: no two display
    categories of the catalog are equal under [EqualFold] without being
    equal. *)
Definition consistentSpelling (ps : list Project) : Prop :=
  forall p q, In p ps -> In q ps ->
    strings.EqualFold (orNA (Category p)) (orNA (Category q)) = true ->
    orNA (Category p) = orNA (Category q).

(** Strings of ASCII bytes: the range on which the case mapping of
    package strings is embedded. *)
Fixpoint isASCII (s : string) : bool :=
  match s with
  | EmptyString => true
  | String c s' => (nat_of_ascii c <? 128)%nat && isASCII s'
  end.

(** Records whose sort keys are read from ASCII strings. *)
Definition asciiRecord (p : Project) : Prop :=
  isASCII (Category p) = true /\ isASCII (Name p) = true.

Definition asciiCatalog (ps : list Project) : Prop :=
  forall p, In p ps -> asciiRecord p.

(** Closes a goal about a closed term by evaluation. *)
Ltac concrete := vm_compute; intuition congruence.

(* ===================================================================== *)
(** * Examples on package strings *)
(* ===================================================================== *)

Example ReplaceAll_mount :
  strings.ReplaceAll "/mnt/c/Users/x/app" "/mnt/c" "C:" = "C:/Users/x/app".
Proof. reflexivity. Qed.

Example EqualFold_case : strings.EqualFold "Web" "wEB" = true.
Proof. reflexivity. Qed.

Example EqualFold_brackets : strings.EqualFold "[" "{" = false.
Proof. reflexivity. Qed.

Example HasSuffix_exe : strings.HasSuffix "app.exe" ".exe" = true.
Proof. reflexivity. Qed.

Example Slice_sorts :
  sort.SliceRun 0%nat Nat.ltb
    [5; 3; 9; 1; 2; 8; 7; 6; 4; 0; 11; 10; 15; 14; 13; 12]%nat
  = Some [0; 1; 2; 3; 4; 5; 6; 7; 8; 9; 10; 11; 12; 13; 14; 15]%nat.
Proof. vm_compute. reflexivity. Qed.

(* ===================================================================== *)
(** * Facts about package sort *)
(* ===================================================================== *)

Create HintDb perm.

Section SortFacts.

Context {A : Type}.
Variable zero : A.
Variable less : A -> A -> bool.

Lemma update_length (x : list A) i v :
  List.length (sort.update x i v) = List.length x.
Proof.
  revert i; induction x as [|h x IH]; intros [|i]; simpl; auto.
Qed.

Lemma update_nth_error_same (x : list A) i v :
  (i < List.length x)%nat -> nth_error (sort.update x i v) i = Some v.
Proof.
  revert i; induction x as [|h x IH]; intros [|i] Hi; simpl in *;
    try lia; auto.
  apply IH; lia.
Qed.

Lemma update_nth_error_other (x : list A) i j v :
  i <> j -> nth_error (sort.update x i v) j = nth_error x j.
Proof.
  revert i j; induction x as [|h x IH]; intros [|i] [|j] Hij; simpl;
    auto; try congruence.
Qed.

(** Writing [v] over [a] at index [i] trades one for the other. *)
Lemma update_perm (x : list A) i a v :
  nth_error x i = Some a ->
  Permutation (v :: x) (a :: sort.update x i v).
Proof.
  revert i; induction x as [|h x IH]; intros [|i] Hi; simpl in *;
    try discriminate.
  - injection Hi as ->. apply perm_swap.
  - apply perm_trans with (h :: v :: x); [apply perm_swap|].
    apply perm_trans with (h :: a :: sort.update x i v); [|apply perm_swap].
    apply perm_skip. now apply IH.
Qed.

Lemma Swap_length (x : list A) i j : List.length (sort.Swap x i j) = List.length x.
Proof.
  unfold sort.Swap.
  destruct (nth_error x i), (nth_error x j); auto.
  now rewrite !update_length.
Qed.

Lemma Swap_perm (x : list A) i j : Permutation x (sort.Swap x i j).
Proof.
  unfold sort.Swap.
  destruct (nth_error x i) as [vi|] eqn:Hi; [|apply Permutation_refl].
  destruct (nth_error x j) as [vj|] eqn:Hj; [|apply Permutation_refl].
  apply Permutation_cons_inv with (a := vj).
  apply perm_trans with (vi :: sort.update x i vj).
  - now apply update_perm.
  - apply update_perm.
    destruct (Nat.eq_dec i j) as [->|Hij].
    + apply update_nth_error_same. apply nth_error_Some. congruence.
    + rewrite update_nth_error_other; auto.
Qed.

Local Hint Resolve Permutation_refl Swap_perm : perm.

Ltac perm_step :=
  eapply perm_trans; [apply Swap_perm|].

Lemma insertionInner_perm j : forall x a,
  Permutation x (sort.insertionInner zero less x a j).
Proof.
  induction j as [|j IH]; intros x a; simpl; auto with perm.
  destruct (_ && _); auto with perm.
  perm_step. apply IH.
Qed.

Lemma insertionOuter_perm n : forall x a i,
  Permutation x (sort.insertionOuter zero less x a i n).
Proof.
  induction n as [|n IH]; intros x a i; simpl; auto with perm.
  eapply perm_trans; [apply insertionInner_perm|apply IH].
Qed.

Lemma insertionSort_perm x a b :
  Permutation x (sort.insertionSort zero less x a b).
Proof. apply insertionOuter_perm. Qed.

Lemma siftDown_perm fuel : forall x root hi first y,
  sort.siftDown zero less fuel x root hi first = Some y -> Permutation x y.
Proof.
  induction fuel as [|fuel IH]; intros x root hi first y; simpl;
    [discriminate|].
  destruct (hi <=? _)%nat; [intros [= <-]; auto with perm|].
  destruct (negb _); [intros [= <-]; auto with perm|].
  intros H. perm_step. eapply IH, H.
Qed.

Lemma heapBuild_perm i : forall x hi first y,
  sort.heapBuild zero less x hi first i = Some y -> Permutation x y.
Proof.
  induction i as [|i IH]; intros x hi first y; cbn [sort.heapBuild];
    destruct (sort.siftDown _ _ _ _ _ _ _) as [x'|] eqn:Hs;
    try discriminate; apply siftDown_perm in Hs.
  - intros [= <-]. exact Hs.
  - intros H. eapply perm_trans; [exact Hs|eapply IH, H].
Qed.

Lemma heapPop_perm n : forall x first y,
  sort.heapPop zero less x first n = Some y -> Permutation x y.
Proof.
  induction n as [|n IH]; intros x first y; cbn [sort.heapPop].
  - intros [= <-]; auto with perm.
  - destruct (sort.siftDown _ _ _ _ _ _ _) as [x'|] eqn:Hs;
      try discriminate; apply siftDown_perm in Hs.
    intros H. perm_step.
    eapply perm_trans; [exact Hs|eapply IH, H].
Qed.

Lemma heapSort_perm x a b y :
  sort.heapSort zero less x a b = Some y -> Permutation x y.
Proof.
  unfold sort.heapSort.
  destruct (sort.heapBuild _ _ _ _ _ _) as [x'|] eqn:Hb; [|discriminate].
  intros H. eapply perm_trans; [eapply heapBuild_perm, Hb|].
  eapply heapPop_perm, H.
Qed.

Lemma reverseLoop_perm n : forall (x : list A) i j,
  Permutation x (sort.reverseLoop x i j n).
Proof.
  induction n as [|n IH]; intros x i j; simpl; auto with perm.
  destruct (i <? j)%nat; auto with perm.
  perm_step. apply IH.
Qed.

Lemma shiftLeft_perm j : forall x,
  Permutation x (sort.shiftLeft zero less x j).
Proof.
  induction j as [|j IH]; intros x; simpl; auto with perm.
  destruct (negb _); auto with perm.
  perm_step. apply IH.
Qed.

Lemma shiftRight_perm n : forall x j,
  Permutation x (sort.shiftRight zero less x j n).
Proof.
  induction n as [|n IH]; intros x j; simpl; auto with perm.
  destruct (negb _); auto with perm.
  perm_step. apply IH.
Qed.

Lemma partialInsertionLoop_perm steps : forall x a b i,
  Permutation x (fst (sort.partialInsertionLoop zero less x a b i steps)).
Proof.
  induction steps as [|steps IH]; intros x a b i;
    cbn [sort.partialInsertionLoop]; auto with perm.
  set (i' := sort.scanSorted zero less x i (b - i)).
  destruct (Nat.eqb i' b); cbn [fst]; auto with perm.
  destruct (Nat.ltb (b - a) sort.shortestShifting); cbn [fst]; auto with perm.
  eapply perm_trans; [|apply IH].
  perm_step.
  destruct (Nat.leb 2 (i' - a)).
  - eapply perm_trans; [apply shiftLeft_perm|].
    destruct (Nat.leb 2 (b - i')); auto with perm. apply shiftRight_perm.
  - destruct (Nat.leb 2 (b - i')); auto with perm. apply shiftRight_perm.
Qed.

Lemma partitionLoop_perm n : forall x a i j,
  Permutation x (fst (sort.partitionLoop zero less x a i j n)).
Proof.
  induction n as [|n IH]; intros x a i j; simpl.
  - destruct (_ <? _)%nat; simpl; auto with perm.
  - destruct (_ <? _)%nat; simpl; auto with perm.
    perm_step. apply IH.
Qed.

Lemma partition_perm x a b pivot :
  Permutation x (fst (fst (sort.partition zero less x a b pivot))).
Proof.
  unfold sort.partition.
  destruct (_ <? _)%nat; simpl.
  - perm_step. apply Swap_perm.
  - destruct (sort.partitionLoop _ _ _ _ _ _ _) as [y j] eqn:Hl; simpl.
    perm_step. perm_step.
    eapply perm_trans; [|apply Swap_perm].
    change y with (fst (y, j)). rewrite <- Hl. apply partitionLoop_perm.
Qed.

Lemma partitionEqualLoop_perm n : forall x a i j,
  Permutation x (fst (sort.partitionEqualLoop zero less x a i j n)).
Proof.
  induction n as [|n IH]; intros x a i j; simpl.
  - destruct (_ <? _)%nat; simpl; auto with perm.
  - destruct (_ <? _)%nat; simpl; auto with perm.
    perm_step. apply IH.
Qed.

Lemma partitionEqual_perm x a b pivot :
  Permutation x (fst (sort.partitionEqual zero less x a b pivot)).
Proof.
  unfold sort.partitionEqual. perm_step. apply partitionEqualLoop_perm.
Qed.

Lemma breakLoop_perm n : forall (x : list A) a length idx modulus random i,
  Permutation x (sort.breakLoop x a length idx modulus random i n).
Proof.
  induction n as [|n IH]; intros; simpl; auto with perm.
  perm_step. apply IH.
Qed.

Lemma breakPatterns_perm (x : list A) a b : Permutation x (sort.breakPatterns x a b).
Proof.
  unfold sort.breakPatterns.
  destruct (8 <=? _)%nat; auto with perm. apply breakLoop_perm.
Qed.

Lemma pdqsort_perm fuel : forall x a b limit wb wp y,
  sort.pdqsort zero less fuel x a b limit wb wp = Some y -> Permutation x y.
Proof.
  induction fuel as [|fuel IH]; intros x a b limit wb wp y; simpl;
    [discriminate|].
  destruct (_ <=? sort.maxInsertion)%nat.
  { intros [= <-]. apply insertionSort_perm. }
  destruct (limit =? 0)%nat.
  { apply heapSort_perm. }
  set (xl := if negb wb then _ else _).
  assert (Hxl : Permutation x (fst xl)).
  { subst xl. destruct (negb wb); simpl; auto with perm.
    apply breakPatterns_perm. }
  destruct xl as [x1 limit1]; simpl in Hxl.
  destruct (sort.choosePivot zero less x1 a b) as [pivot hint].
  set (xph := match hint with sort.decreasingHint => _ | _ => _ end).
  assert (Hxph : Permutation x1 (fst (fst xph))).
  { subst xph. destruct hint; simpl; auto with perm.
    apply reverseLoop_perm. }
  destruct xph as [[x2 pivot2] hint2]; simpl in Hxph.
  set (xs := match hint2 with sort.increasingHint => _ | _ => _ end).
  assert (Hxs : Permutation x2 (fst xs)).
  { subst xs. destruct hint2; simpl; auto with perm.
    destruct (wb && wp); simpl; auto with perm.
    apply partialInsertionLoop_perm. }
  destruct xs as [x3 sorted]; simpl in Hxs.
  assert (H03 : Permutation x x3).
  { eapply perm_trans; [exact Hxl|].
    eapply perm_trans; [exact Hxph|exact Hxs]. }
  destruct sorted.
  { intros [= <-]. exact H03. }
  destruct (_ && _).
  - pose proof (partitionEqual_perm x3 a b pivot2) as Hp.
    destruct (sort.partitionEqual _ _ _ _ _ _) as [x4 mid]; simpl in Hp.
    intros H. apply IH in H.
    eapply perm_trans; [exact H03|]. eapply perm_trans; [exact Hp|exact H].
  - pose proof (partition_perm x3 a b pivot2) as Hp.
    destruct (sort.partition _ _ _ _ _ _) as [[x4 mid] already];
      simpl in Hp.
    assert (H04 : Permutation x x4) by (eapply perm_trans; eauto).
    destruct (_ <? _)%nat.
    + destruct (sort.pdqsort _ _ fuel x4 a mid _ _ _) as [x5|] eqn:H5;
        [|discriminate].
      intros H. apply IH in H5. apply IH in H.
      eapply perm_trans; [exact H04|]. eapply perm_trans; eauto.
    + destruct (sort.pdqsort _ _ fuel x4 (mid + 1) b _ _ _) as [x5|] eqn:H5;
        [|discriminate].
      intros H. apply IH in H5. apply IH in H.
      eapply perm_trans; [exact H04|]. eapply perm_trans; eauto.
Qed.

(** [sort.Slice] rearranges the slice: it only ever swaps. *)
Lemma Slice_perm x : Permutation x (sort.Slice zero less x).
Proof.
  unfold sort.Slice, sort.SliceRun.
  destruct (sort.pdqsort _ _ _ _ _ _ _ _ _) as [y|] eqn:H; auto with perm.
  eapply pdqsort_perm, H.
Qed.

End SortFacts.

(** ** [sort.Slice] returns: the fuel of [pdqsort] is enough *)

Section SortRuns.

Context {A : Type}.
Variable zero : A.
Variable less : A -> A -> bool.

Lemma scanUp_bounds n : forall (x : list A) a i,
  (i <= sort.scanUp zero less x a i n <= i + n)%nat.
Proof.
  induction n as [|n IH]; intros x a i; simpl; [lia|].
  destruct (sort.Less _ _ _ _ _); [|lia].
  specialize (IH x a (S i)). lia.
Qed.

Lemma scanDown_bounds n : forall (x : list A) a j,
  (j - n <= sort.scanDown zero less x a j n <= j)%nat.
Proof.
  induction n as [|n IH]; intros x a j; simpl; [lia|].
  destruct (negb _); [|lia].
  specialize (IH x a (j - 1)%nat). lia.
Qed.

Lemma scanUpEq_bounds n : forall (x : list A) a i,
  (i <= sort.scanUpEq zero less x a i n <= i + n)%nat.
Proof.
  induction n as [|n IH]; intros x a i; simpl; [lia|].
  destruct (negb _); [|lia].
  specialize (IH x a (S i)). lia.
Qed.

Lemma scanDownEq_bounds n : forall (x : list A) a j,
  (j - n <= sort.scanDownEq zero less x a j n <= j)%nat.
Proof.
  induction n as [|n IH]; intros x a j; simpl; [lia|].
  destruct (sort.Less _ _ _ _ _); [|lia].
  specialize (IH x a (j - 1)%nat). lia.
Qed.

Lemma partitionLoop_bounds n : forall (x : list A) a i j,
  (Nat.min (i - 1) j <= snd (sort.partitionLoop zero less x a i j n) <= j)%nat.
Proof.
  induction n as [|n IH]; intros x a i j; cbn [sort.partitionLoop];
    set (i1 := sort.scanUp zero less x a i (j + 1 - i));
    pose proof (scanUp_bounds (j + 1 - i) x a i) as Hi; fold i1 in Hi;
    clearbody i1;
    set (j1 := sort.scanDown zero less x a j (j + 1 - i1));
    pose proof (scanDown_bounds (j + 1 - i1) x a j) as Hj; fold j1 in Hj;
    clearbody j1.
  - destruct (Nat.ltb j1 i1); cbn [snd]; lia.
  - destruct (Nat.ltb j1 i1) eqn:Hlt; cbn [snd]; [lia|].
    apply Nat.ltb_ge in Hlt.
    specialize (IH (sort.Swap x i1 j1) a (S i1) (j1 - 1)%nat). lia.
Qed.

(** The pivot lands inside the range. *)
Lemma partition_mid (x : list A) a b pivot :
  (a < b)%nat ->
  (a <= snd (fst (sort.partition zero less x a b pivot)) < b)%nat.
Proof.
  intros Hab. unfold sort.partition.
  set (x0 := sort.Swap x a pivot).
  set (i1 := sort.scanUp zero less x0 a (a + 1) (b - 1 + 1 - (a + 1))).
  pose proof (scanUp_bounds (b - 1 + 1 - (a + 1)) x0 a (a + 1)%nat) as Hi.
  fold i1 in Hi; clearbody i1.
  set (j1 := sort.scanDown zero less x0 a (b - 1) (b - 1 + 1 - i1)).
  pose proof (scanDown_bounds (b - 1 + 1 - i1) x0 a (b - 1)%nat) as Hj.
  fold j1 in Hj; clearbody j1.
  destruct (Nat.ltb j1 i1) eqn:Hlt; cbn [fst snd]; [lia|].
  apply Nat.ltb_ge in Hlt.
  pose proof (partitionLoop_bounds (b - a) (sort.Swap x0 i1 j1) a (S i1)
                (j1 - 1)%nat) as Hl.
  destruct (sort.partitionLoop _ _ _ _ _ _ _) as [y j2].
  cbn [fst snd] in *. lia.
Qed.

Lemma partitionEqualLoop_bounds n : forall (x : list A) a i j,
  (i <= snd (sort.partitionEqualLoop zero less x a i j n)
     <= Nat.max (j + 1) i)%nat.
Proof.
  induction n as [|n IH]; intros x a i j; cbn [sort.partitionEqualLoop];
    set (i1 := sort.scanUpEq zero less x a i (j + 1 - i));
    pose proof (scanUpEq_bounds (j + 1 - i) x a i) as Hi; fold i1 in Hi;
    clearbody i1;
    set (j1 := sort.scanDownEq zero less x a j (j + 1 - i1));
    pose proof (scanDownEq_bounds (j + 1 - i1) x a j) as Hj; fold j1 in Hj;
    clearbody j1.
  - destruct (Nat.ltb j1 i1); cbn [snd]; lia.
  - destruct (Nat.ltb j1 i1) eqn:Hlt; cbn [snd]; [lia|].
    apply Nat.ltb_ge in Hlt.
    specialize (IH (sort.Swap x i1 j1) a (S i1) (j1 - 1)%nat). lia.
Qed.

Lemma partitionEqual_mid (x : list A) a b pivot :
  (a < b)%nat ->
  (a < snd (sort.partitionEqual zero less x a b pivot) <= b)%nat.
Proof.
  intros Hab. unfold sort.partitionEqual.
  pose proof (partitionEqualLoop_bounds (b - a) (sort.Swap x a pivot) a
                (a + 1)%nat (b - 1)%nat).
  lia.
Qed.

Lemma siftDown_total fuel : forall (x : list A) root hi first,
  (hi - root < fuel)%nat ->
  exists y, sort.siftDown zero less fuel x root hi first = Some y.
Proof.
  induction fuel as [|fuel IH]; intros x root hi first Hf; [lia|].
  cbn [sort.siftDown].
  destruct (Nat.leb hi (2 * root + 1)) eqn:Hc; [eauto|].
  apply Nat.leb_gt in Hc.
  match goal with |- context [negb ?c] => destruct (negb c) end; [eauto|].
  apply IH.
  match goal with |- context [if ?c then _ else _] => destruct c end; lia.
Qed.

Lemma heapBuild_total i : forall (x : list A) hi first,
  exists y, sort.heapBuild zero less x hi first i = Some y.
Proof.
  induction i as [|i IH]; intros x hi first; cbn [sort.heapBuild].
  - destruct (siftDown_total (S hi) x 0%nat hi first) as [y ->]; [lia|eauto].
  - destruct (siftDown_total (S hi) x (S i) hi first) as [y ->]; [lia|].
    apply IH.
Qed.

Lemma heapPop_total n : forall (x : list A) first,
  exists y, sort.heapPop zero less x first n = Some y.
Proof.
  induction n as [|n IH]; intros x first; cbn [sort.heapPop]; [eauto|].
  destruct (siftDown_total (S n) (sort.Swap x first (first + n)) 0%nat n first)
    as [y ->]; [lia|].
  apply IH.
Qed.

Lemma heapSort_total (x : list A) a b :
  exists y, sort.heapSort zero less x a b = Some y.
Proof.
  unfold sort.heapSort.
  destruct (heapBuild_total ((b - a - 1) / 2) x (b - a)%nat a) as [y ->].
  apply heapPop_total.
Qed.

Lemma pdqsort_total fuel : forall (x : list A) a b limit wb wp,
  (b - a < fuel)%nat ->
  exists y, sort.pdqsort zero less fuel x a b limit wb wp = Some y.
Proof.
  induction fuel as [|fuel IH]; intros x a b limit wb wp Hf; [lia|].
  cbn [sort.pdqsort].
  destruct (Nat.leb (b - a) sort.maxInsertion) eqn:Hlen; [eauto|].
  apply Nat.leb_gt in Hlen. unfold sort.maxInsertion in Hlen.
  destruct (Nat.eqb limit 0); [apply heapSort_total|].
  destruct (if negb wb then _ else _) as [x1 limit1].
  destruct (sort.choosePivot zero less x1 a b) as [pivot hint].
  destruct (match hint with sort.decreasingHint => _ | _ => _ end)
    as [[x2 pivot2] hint2].
  destruct (match hint2 with sort.increasingHint => _ | _ => _ end)
    as [x3 sorted].
  destruct sorted; [eauto|].
  match goal with |- context [if ?c then _ else _] => destruct c end.
  - pose proof (partitionEqual_mid x3 a b pivot2 ltac:(lia)) as Hm.
    destruct (sort.partitionEqual _ _ _ _ _ _) as [x4 mid].
    cbn [snd] in Hm. apply IH. lia.
  - pose proof (partition_mid x3 a b pivot2 ltac:(lia)) as Hm.
    destruct (sort.partition _ _ _ _ _ _) as [[x4 mid] already].
    cbn [fst snd] in Hm.
    destruct (Nat.ltb (mid - a) (b - mid)).
    + destruct (IH x4 a mid limit1 true true ltac:(lia)) as [x5 ->].
      apply IH. lia.
    + destruct (IH x4 (mid + 1)%nat b limit1 true true ltac:(lia)) as [x5 ->].
      apply IH. lia.
Qed.

(** [sort.Slice] returns on every slice. *)
Lemma Slice_runs (x : list A) :
  sort.SliceRun zero less x = Some (sort.Slice zero less x).
Proof.
  unfold sort.Slice.
  destruct (pdqsort_total (S (List.length x)) x 0%nat (List.length x)
              (sort.bitsLen (List.length x)) true true ltac:(lia)) as [y H].
  unfold sort.SliceRun. now rewrite H.
Qed.

(** Up to twelve elements [sort.Slice] is the insertion sort. *)
Lemma Slice_short (x : list A) :
  (List.length x <= 12)%nat ->
  sort.Slice zero less x = sort.insertionSort zero less x 0 (List.length x).
Proof.
  intros Hlen. unfold sort.Slice, sort.SliceRun. cbn [sort.pdqsort].
  replace (Nat.leb (List.length x - 0) sort.maxInsertion) with true; auto.
  symmetry. apply Nat.leb_le. unfold sort.maxInsertion. lia.
Qed.

Lemma partitionLoop_fuel n : forall m (x : list A) a i j,
  (j + 1 - i <= n)%nat -> (j + 1 - i <= m)%nat ->
  sort.partitionLoop zero less x a i j n
  = sort.partitionLoop zero less x a i j m.
Proof.
  induction n as [|n IH]; intros [|m] x a i j Hn Hm;
    cbn [sort.partitionLoop]; auto;
    set (i1 := sort.scanUp zero less x a i (j + 1 - i));
    pose proof (scanUp_bounds (j + 1 - i) x a i) as Hi; fold i1 in Hi;
    clearbody i1;
    set (j1 := sort.scanDown zero less x a j (j + 1 - i1));
    pose proof (scanDown_bounds (j + 1 - i1) x a j) as Hj; fold j1 in Hj;
    clearbody j1;
    destruct (Nat.ltb j1 i1) eqn:Hlt; auto; apply Nat.ltb_ge in Hlt;
    try lia.
  apply IH; lia.
Qed.

Lemma partitionEqualLoop_fuel n : forall m (x : list A) a i j,
  (j + 1 - i <= n)%nat -> (j + 1 - i <= m)%nat ->
  sort.partitionEqualLoop zero less x a i j n
  = sort.partitionEqualLoop zero less x a i j m.
Proof.
  induction n as [|n IH]; intros [|m] x a i j Hn Hm;
    cbn [sort.partitionEqualLoop]; auto;
    set (i1 := sort.scanUpEq zero less x a i (j + 1 - i));
    pose proof (scanUpEq_bounds (j + 1 - i) x a i) as Hi; fold i1 in Hi;
    clearbody i1;
    set (j1 := sort.scanDownEq zero less x a j (j + 1 - i1));
    pose proof (scanDownEq_bounds (j + 1 - i1) x a j) as Hj; fold j1 in Hj;
    clearbody j1;
    destruct (Nat.ltb j1 i1) eqn:Hlt; auto; apply Nat.ltb_ge in Hlt;
    try lia.
  apply IH; lia.
Qed.

End SortRuns.

(** ** The insertion sort keeps equal elements in order *)

Section InsertionStable.

Context {A : Type}.
Variable zero : A.
Variable less : A -> A -> bool.
(** [keep] picks a class of elements that [less] never separates. *)
Variable keep : A -> bool.
Hypothesis keep_unordered :
  forall u v, less u v = true -> keep u = true -> keep v = true -> False.

Lemma Swap_cons (h : A) t i j :
  sort.Swap (h :: t) (S i) (S j) = h :: sort.Swap t i j.
Proof.
  unfold sort.Swap; simpl.
  destruct (nth_error t i), (nth_error t j); reflexivity.
Qed.

Lemma Swap_adjacent_filter : forall (x : list A) j,
  sort.Less zero less x (S j) j = true ->
  filter keep (sort.Swap x (S j) j) = filter keep x.
Proof.
  induction x as [|h t IH]; intros [|j] Hless; try reflexivity.
  - destruct t as [|v t']; [reflexivity|].
    unfold sort.Less in Hless; simpl in Hless.
    unfold sort.Swap; simpl.
    destruct (keep h) eqn:Hh, (keep v) eqn:Hv; try reflexivity.
    exfalso. eapply keep_unordered; eauto.
  - rewrite Swap_cons. simpl. rewrite IH; auto.
Qed.

Lemma insertionInner_filter j : forall x a,
  filter keep (sort.insertionInner zero less x a j) = filter keep x.
Proof.
  induction j as [|j IH]; intros x a; cbn [sort.insertionInner]; auto.
  destruct (Nat.ltb a (S j)); cbn [andb]; auto.
  destruct (sort.Less zero less x (S j) j) eqn:Hless; auto.
  rewrite IH. now apply Swap_adjacent_filter.
Qed.

Lemma insertionOuter_filter n : forall x a i,
  filter keep (sort.insertionOuter zero less x a i n) = filter keep x.
Proof.
  induction n as [|n IH]; intros x a i; cbn [sort.insertionOuter]; auto.
  rewrite IH. apply insertionInner_filter.
Qed.

Lemma insertionSort_filter x a b :
  filter keep (sort.insertionSort zero less x a b) = filter keep x.
Proof. apply insertionOuter_filter. Qed.

End InsertionStable.

(* ===================================================================== *)
(** * Facts about package strings *)
(* ===================================================================== *)

Lemma allBytes_all (c : ascii) : In c allBytes.
Proof.
  unfold allBytes. rewrite <- (ascii_nat_embedding c).
  apply in_map, in_seq. pose proof (nat_ascii_bounded c). lia.
Qed.

Lemma foldEq_lowerByte (a b : ascii) :
  strings.foldEq a b = Ascii.eqb (strings.lowerByte a) (strings.lowerByte b).
Proof.
  assert (H : forallb (fun a => forallb (fun b =>
              Bool.eqb (strings.foldEq a b)
                (Ascii.eqb (strings.lowerByte a) (strings.lowerByte b)))
              allBytes) allBytes = true) by (vm_compute; reflexivity).
  rewrite forallb_forall in H. specialize (H a (allBytes_all a)).
  rewrite forallb_forall in H. specialize (H b (allBytes_all b)).
  now apply Bool.eqb_prop in H.
Qed.

(** On byte strings, folding is comparing the lower-case forms. *)
Lemma EqualFold_ToLower : forall s t,
  strings.EqualFold s t = (strings.ToLower s =? strings.ToLower t)%string.
Proof.
  induction s as [|a s IH]; intros [|b t]; simpl; auto.
  rewrite foldEq_lowerByte, IH. reflexivity.
Qed.

Lemma ltb_irrefl (s : string) : String.ltb s s = false.
Proof.
  unfold String.ltb.
  pose proof (String.compare_antisym s s) as H.
  destruct (String.compare s s); auto; discriminate.
Qed.

(* ===================================================================== *)
(** * The display model *)
(* ===================================================================== *)

Lemma Ok_inj {A : Type} (a b : A) : Ok a = Ok b -> a = b.
Proof. intros H. now injection H. Qed.

Lemma index_Ok {A : Type} (s : list A) (i : Z) (v : A) :
  index s i = Ok v <-> 0 <= i /\ nth_error s (Z.to_nat i) = Some v.
Proof.
  unfold index. destruct (Z.ltb_spec i 0).
  - split; [discriminate|lia].
  - destruct (nth_error s (Z.to_nat i)) as [w|]; split.
    + intros [= ->]; auto.
    + intros [_ [= ->]]; auto.
    + discriminate.
    + intros [_ [=]].
Qed.

Lemma index_range {A : Type} (s : list A) (i : Z) (v : A) :
  index s i = Ok v -> 0 <= i < len s.
Proof.
  rewrite index_Ok. intros [Hi Hn]. split; auto.
  assert (Z.to_nat i < List.length s)%nat
    by (apply nth_error_Some; congruence).
  unfold len. lia.
Qed.

Lemma index_total {A : Type} (s : list A) (i : Z) :
  0 <= i < len s -> exists v, index s i = Ok v.
Proof.
  unfold len. intros Hi.
  destruct (nth_error s (Z.to_nat i)) as [v|] eqn:Hn.
  - exists v. apply index_Ok. split; [lia|auto].
  - apply nth_error_None in Hn. lia.
Qed.

Lemma len_cons {A : Type} (a : A) (s : list A) : len (a :: s) = len s + 1.
Proof. unfold len. simpl List.length. lia. Qed.

(** The shape of one turn of the loop of [updateTable]. *)
Lemma tableRows_cons t off p rest last k rows idx :
  tableRows t off (p :: rest) last k = Ok (rows, idx) ->
  exists row rows' idx',
    projectRow t off p = Ok row /\
    tableRows t off rest
      (if negb (orNA (Category p) =? last)%string
       then orNA (Category p) else last) (k + 1) = Ok (rows', idx') /\
    ((negb (orNA (Category p) =? last)%string = true /\
      rows = headerRow t off (orNA (Category p)) :: row :: rows' /\
      idx = (-1) :: k :: idx') \/
     (negb (orNA (Category p) =? last)%string = false /\
      rows = row :: rows' /\ idx = k :: idx')).
Proof.
  cbn [tableRows]. unfold bind.
  destruct (projectRow t off p) as [row|]; [|discriminate].
  destruct (tableRows t off rest _ (k + 1)) as [[rows' idx']|];
    [|discriminate].
  destruct (negb _) eqn:Hnew; intros [= <- <-];
    exists row, rows', idx'; repeat split; auto.
Qed.

(** An entry of the index map that is not the header mark is the place of
    a record in the sorted copy, and the row holds that record. *)
Lemma tableRows_entries t off : forall sorted last k rows idx,
  tableRows t off sorted last k = Ok (rows, idx) -> 0 <= k ->
  forall d kd, nth_error idx d = Some kd -> kd <> -1 ->
    k <= kd < k + len sorted /\
    exists p row,
      nth_error sorted (Z.to_nat (kd - k)) = Some p /\
      nth_error rows d = Some row /\
      projectRow t off p = Ok row.
Proof.
  induction sorted as [|p rest IH]; intros last k rows idx H Hk d kd Hd Hkd.
  - injection H as <- <-. destruct d; discriminate.
  - apply tableRows_cons in H.
    destruct H as (row & rows' & idx' & Hrow & Hrest & Hshape).
    rewrite len_cons.
    assert (Hhere : k <= k < k + (len rest + 1) /\
      exists p0 row0, nth_error (p :: rest) (Z.to_nat (k - k)) = Some p0 /\
        Some row = Some row0 /\ projectRow t off p0 = Ok row0).
    { split; [unfold len; lia|]. exists p, row.
      rewrite Z.sub_diag. auto. }
    assert (Hthere : forall d', nth_error idx' d' = Some kd ->
      k <= kd < k + (len rest + 1) /\
      exists p0 row0, nth_error (p :: rest) (Z.to_nat (kd - k)) = Some p0 /\
        nth_error rows' d' = Some row0 /\ projectRow t off p0 = Ok row0).
    { intros d' Hd'.
      destruct (IH _ _ _ _ Hrest ltac:(lia) d' kd Hd' Hkd)
        as (Hr & p0 & row0 & Hp0 & Hrow0 & Hpr).
      split; [lia|]. exists p0, row0. repeat split; auto.
      replace (Z.to_nat (kd - k)) with (S (Z.to_nat (kd - (k + 1)))) by lia.
      exact Hp0. }
    destruct Hshape as [(_ & -> & ->)|(_ & -> & ->)].
    + destruct d as [|[|d]]; simpl in Hd.
      * injection Hd as <-. contradiction.
      * injection Hd as <-. exact Hhere.
      * apply Hthere, Hd.
    + destruct d as [|d]; simpl in Hd.
      * injection Hd as <-. exact Hhere.
      * apply Hthere, Hd.
Qed.

(** The record entries of the index map grow with the display row. *)
Lemma tableRows_increasing t off : forall sorted last k rows idx,
  tableRows t off sorted last k = Ok (rows, idx) -> 0 <= k ->
  forall d1 d2 k1 k2, (d1 < d2)%nat ->
    nth_error idx d1 = Some k1 -> nth_error idx d2 = Some k2 ->
    k1 <> -1 -> k2 <> -1 -> k1 < k2.
Proof.
  induction sorted as [|p rest IH];
    intros last k rows idx H Hk d1 d2 k1 k2 Hlt H1 H2 Hk1 Hk2.
  - injection H as <- <-. destruct d1; discriminate.
  - apply tableRows_cons in H.
    destruct H as (row & rows' & idx' & Hrow & Hrest & Hshape).
    assert (Hafter : forall d', nth_error idx' d' = Some k2 -> k < k2).
    { intros d' Hd'.
      destruct (tableRows_entries _ _ _ _ _ _ _ Hrest ltac:(lia) d' k2 Hd' Hk2).
      lia. }
    destruct Hshape as [(_ & -> & ->)|(_ & -> & ->)].
    + destruct d1 as [|[|d1]]; simpl in H1.
      * injection H1 as <-. contradiction.
      * injection H1 as <-. destruct d2 as [|[|d2]]; try lia.
        simpl in H2. eapply Hafter, H2.
      * destruct d2 as [|[|d2]]; try lia. simpl in H2.
        eapply (IH _ _ _ _ Hrest ltac:(lia) d1 d2); eauto. lia.
    + destruct d1 as [|d1]; simpl in H1.
      * injection H1 as <-. destruct d2 as [|d2]; try lia.
        simpl in H2. eapply Hafter, H2.
      * destruct d2 as [|d2]; try lia. simpl in H2.
        eapply (IH _ _ _ _ Hrest ltac:(lia) d1 d2); eauto. lia.
Qed.

(** [updateTable] writes the rows and the index map and nothing else. *)
Lemma updateTable_inv m m' :
  updateTable m = Ok m' ->
  tableRows (table m) (scrollOffset m) (getSortedProjects m) "" 0
    = Ok (table.rows (table m'), projectIndices m') /\
  projects m' = projects m /\
  scrollOffset m' = scrollOffset m /\
  table.cols (table m') = table.cols (table m) /\
  getSortedProjects m' = getSortedProjects m.
Proof.
  unfold updateTable, bind.
  destruct (tableRows _ _ _ _ _) as [[rows idx]|]; [|discriminate].
  intros [= <-]. repeat split.
Qed.

Lemma projectRow_cols t t' off p :
  table.cols t' = table.cols t -> projectRow t' off p = projectRow t off p.
Proof. unfold projectRow, table.Columns. now intros ->. Qed.

Lemma getSortedProjects_perm m :
  Permutation (projects m) (getSortedProjects m).
Proof. apply Slice_perm. Qed.

Lemma sameIdentity_eq p q :
  sameIdentity p q = true <-> identity p = identity q.
Proof.
  unfold sameIdentity, identity. rewrite !andb_true_iff, !String.eqb_eq.
  split; [intros [[-> ->] ->]; reflexivity|intros [= -> -> ->]; auto].
Qed.

(** The search of the lookups stops at the first record of that identity. *)
Lemma findOriginal_found : forall ps sp k,
  (exists p, In p ps /\ identity p = identity sp) ->
  k <= findOriginal ps sp k < k + len ps /\
  exists p, nth_error ps (Z.to_nat (findOriginal ps sp k - k)) = Some p /\
            identity p = identity sp.
Proof.
  induction ps as [|h ps IH]; intros sp k (p & Hin & Hid); [destruct Hin|].
  rewrite len_cons. cbn [findOriginal].
  destruct (sameIdentity h sp) eqn:Hs.
  - split; [unfold len; lia|]. exists h. rewrite Z.sub_diag.
    split; auto. now apply sameIdentity_eq.
  - destruct Hin as [->|Hin].
    { apply sameIdentity_eq in Hid. congruence. }
    destruct (IH sp (k + 1) (ex_intro _ p (conj Hin Hid)))
      as (Hr & q & Hq & Hqid).
    split; [lia|]. exists q. split; auto.
    replace (Z.to_nat (findOriginal ps sp (k + 1) - k))
      with (S (Z.to_nat (findOriginal ps sp (k + 1) - (k + 1)))) by lia.
    exact Hq.
Qed.

Lemma NoDup_map_nth_error {A B : Type} (f : A -> B) : forall (l : list A) i j a b,
  NoDup (map f l) ->
  nth_error l i = Some a -> nth_error l j = Some b -> f a = f b -> i = j.
Proof.
  intros l i j a b Hnd Hi Hj Hf.
  assert (Hi' : nth_error (map f l) i = Some (f a))
    by (rewrite nth_error_map, Hi; reflexivity).
  assert (Hj' : nth_error (map f l) j = Some (f b))
    by (rewrite nth_error_map, Hj; reflexivity).
  rewrite NoDup_nth_error in Hnd. apply Hnd.
  - apply nth_error_Some. congruence.
  - congruence.
Qed.

Lemma NoDup_map_In {A B : Type} (f : A -> B) (l : list A) a b :
  NoDup (map f l) -> In a l -> In b l -> f a = f b -> a = b.
Proof.
  intros Hnd Ha Hb Hf.
  apply In_nth_error in Ha, Hb. destruct Ha as [i Hi], Hb as [j Hj].
  assert (i = j) by (eapply NoDup_map_nth_error; eauto). subst j.
  congruence.
Qed.

(** What a lookup finds on a record row of a rebuilt projection. *)
Lemma lookup_on_record_row m m' d :
  updateTable m = Ok m' -> recordRow m' d ->
  exists i p q,
    getOriginalIndexByDisplayIndex m' d = Ok i /\
    0 <= i < len (projects m') /\
    index (projects m') i = Ok p /\
    shownAt m' d q /\
    identity p = identity q.
Proof.
  intros Hup (kd & Hkd & Hne).
  destruct (updateTable_inv _ _ Hup) as (Hrows & Hps & Hoff & Hcols & Hsorted).
  pose proof (index_range _ _ _ Hkd) as Hd.
  apply index_Ok in Hkd as Hkd'. destruct Hkd' as [_ Hnth].
  destruct (tableRows_entries _ _ _ _ _ _ _ Hrows ltac:(lia) _ _ Hnth Hne)
    as (Hr & q & row & Hq & Hrow & Hpr).
  rewrite Z.sub_0_r in Hq.
  assert (Hsq : index (getSortedProjects m') kd = Ok q).
  { rewrite Hsorted. apply index_Ok. split; [lia|exact Hq]. }
  assert (Hin : In q (projects m')).
  { rewrite Hps. eapply Permutation_in.
    - apply Permutation_sym, getSortedProjects_perm.
    - eapply nth_error_In, Hq. }
  destruct (findOriginal_found (projects m') q 0
              (ex_intro _ q (conj Hin eq_refl))) as (Hi & p & Hp & Hid).
  rewrite Z.sub_0_r in Hp.
  exists (findOriginal (projects m') q 0), p, q.
  repeat split; try lia; auto.
  - unfold getOriginalIndexByDisplayIndex.
    replace (d <? 0) with false by (symmetry; apply Z.ltb_ge; lia).
    replace (d >=? len (projectIndices m')) with false
      by (symmetry; rewrite Z.geb_leb; apply Z.leb_gt; lia).
    cbn [orb]. rewrite Hkd. cbn [bind].
    replace (kd =? -1) with false by (symmetry; apply Z.eqb_neq; auto).
    replace (kd >=? len (getSortedProjects m')) with false.
    2:{ symmetry. rewrite Z.geb_leb. apply Z.leb_gt.
        rewrite Hsorted. lia. }
    rewrite Hsq. reflexivity.
  - apply index_Ok. split; [lia|exact Hp].
  - exists kd, row. repeat split; auto.
    + apply index_Ok. split; [lia|exact Hrow].
    + rewrite Hoff, (projectRow_cols (table m)); auto.
Qed.

Lemma collect_total {A : Type} (s : list A) : forall n i,
  0 <= i -> i + Z.of_nat n <= len s ->
  exists out, collect s i n = Ok out /\ List.length out = n.
Proof.
  induction n as [|n IH]; intros i Hi Hn; cbn [collect].
  - exists []. auto.
  - destruct (index_total s i ltac:(lia)) as [v ->].
    destruct (IH (i + 1) ltac:(lia) ltac:(lia)) as (out & -> & Hlen).
    exists (v :: out). cbn [bind]. simpl. auto.
Qed.

Lemma turns_fit {A : Type} (s : list A) (startCol endCol : Z) :
  0 <= startCol -> startCol + Z.of_nat (turns s startCol endCol) <= len s
  \/ turns s startCol endCol = 0%nat.
Proof. unfold turns, len. lia. Qed.

(** With the columns scrolled to an offset that is not negative, a row is
    built for every record. *)
Lemma projectRow_total t off p :
  0 <= off -> exists row, projectRow t off p = Ok row.
Proof.
  intros Hoff. unfold projectRow.
  match goal with |- context [collect ?s ?i ?n] =>
    destruct (turns_fit s i
      (if off + len (table.Columns t) >? len (fullRow p)
       then len (fullRow p) else off + len (table.Columns t)) Hoff)
      as [Hfit|Hzero]
  end.
  - destruct (collect_total _ _ _ Hoff Hfit) as (out & Hout & _). eauto.
  - rewrite Hzero. simpl. eauto.
Qed.

Lemma tableRows_total t off : 0 <= off -> forall sorted last k,
  exists rows idx, tableRows t off sorted last k = Ok (rows, idx).
Proof.
  intros Hoff. induction sorted as [|p rest IH]; intros last k.
  - exists [], []. reflexivity.
  - cbn [tableRows].
    destruct (projectRow_total t off p Hoff) as [row ->].
    match goal with |- context [tableRows t off rest ?l ?k'] =>
      destruct (IH l k') as (rows & idx & ->) end.
    cbn [bind]. destruct (negb _); eauto.
Qed.

(** [updateTable] returns whenever the scroll offset is not negative. *)
Lemma updateTable_total m :
  0 <= scrollOffset m -> exists m', updateTable m = Ok m'.
Proof.
  intros Hoff. unfold updateTable.
  destruct (tableRows_total (table m) (scrollOffset m) Hoff
              (getSortedProjects m) "" 0) as (rows & idx & ->).
  cbn [bind]. eauto.
Qed.

(* ===================================================================== *)
(** * C1: from a display row back to the catalog *)
(* ===================================================================== *)

(** C1, as the program has it.  After the projection is rebuilt, every
    record row resolves to a valid catalog index, and the record there has
    the name, path and command of the record shown at the row.  When no
    two catalog records share name, path and command, the indices of
    different rows differ and the record at the index is the record
    shown. *)
Theorem original_index_of_record_rows m m' :
  updateTable m = Ok m' ->
  resolvesValid m' /\ resolvesIdentity m' /\
  (NoDup (map identity (projects m)) ->
   resolvesDistinct m' /\ resolvesShown m').
Proof.
  intros Hup. split; [|split].
  - intros d Hd.
    destruct (lookup_on_record_row _ _ _ Hup Hd) as (i & p & q & Hi & Hr & _).
    eauto.
  - intros d i Hd Hi.
    destruct (lookup_on_record_row _ _ _ Hup Hd)
      as (i' & p & q & Hi' & Hr & Hp & Hq & Hid).
    rewrite Hi in Hi'. injection Hi' as <-. eauto.
  - intros Hnd.
    destruct (updateTable_inv _ _ Hup) as (Hrows & Hps & Hoff & Hcols & Hsorted).
    assert (Hsame : forall d i, recordRow m' d ->
              getOriginalIndexByDisplayIndex m' d = Ok i ->
              exists p, index (projects m') i = Ok p /\ shownAt m' d p).
    { intros d i Hd Hi.
      destruct (lookup_on_record_row _ _ _ Hup Hd)
        as (i' & p & q & Hi' & Hr & Hp & Hq & Hid).
      rewrite Hi in Hi'. injection Hi' as <-.
      exists p. split; auto.
      replace p with q; auto. symmetry.
      apply (NoDup_map_In identity (projects m)); auto.
      - rewrite <- Hps. apply index_Ok in Hp. eapply nth_error_In, Hp.
      - destruct Hq as (k & row & _ & Hq & _).
        apply index_Ok in Hq. destruct Hq as [_ Hq].
        apply nth_error_In in Hq. rewrite Hsorted in Hq.
        eapply Permutation_in; [|exact Hq].
        apply Permutation_sym, getSortedProjects_perm. }
    split; auto.
    intros d1 d2 i1 i2 Hd1 Hd2 Hne H1 H2 ->.
    destruct (Hsame _ _ Hd1 H1) as (p1 & Hp1 & k1 & row1 & Hk1 & Hs1 & _).
    destruct (Hsame _ _ Hd2 H2) as (p2 & Hp2 & k2 & row2 & Hk2 & Hs2 & _).
    rewrite Hp1 in Hp2. injection Hp2 as <-.
    assert (Hnds : NoDup (map identity (getSortedProjects m'))).
    { rewrite Hsorted. eapply Permutation_NoDup; [|exact Hnd].
      apply Permutation_map, getSortedProjects_perm. }
    apply index_Ok in Hs1, Hs2. destruct Hs1 as [Hk1' Hs1], Hs2 as [Hk2' Hs2].
    assert (Hkk : Z.to_nat k1 = Z.to_nat k2)
      by (eapply NoDup_map_nth_error; eauto).
    assert (k1 = k2) by lia. subst k2.
    destruct Hd1 as (k1' & Hk1'' & Hn1). rewrite Hk1 in Hk1''.
    injection Hk1'' as <-.
    apply index_Ok in Hk1, Hk2.
    destruct Hk1 as [Hd1' Hk1], Hk2 as [Hd2' Hk2].
    destruct (Nat.lt_total (Z.to_nat d1) (Z.to_nat d2)) as [Hlt|[Heq|Hlt]].
    + pose proof (tableRows_increasing _ _ _ _ _ _ _ Hrows ltac:(lia)
                    _ _ _ _ Hlt Hk1 Hk2 Hn1 Hn1). lia.
    + lia.
    + pose proof (tableRows_increasing _ _ _ _ _ _ _ Hrows ltac:(lia)
                    _ _ _ _ Hlt Hk2 Hk1 Hn1 Hn1). lia.
Qed.

(** The records of the scenario catalog differ in their names: all four
    properties hold on its projection. *)
Lemma original_index_of_record_rows_witness :
  exists m', updateTable (initModel "cfg" scenarioCatalog) = Ok m' /\
    resolvesValid m' /\ resolvesIdentity m' /\
    resolvesDistinct m' /\ resolvesShown m'.
Proof.
  destruct (updateTable (initModel "cfg" scenarioCatalog)) as [m'|] eqn:Hup;
    [|vm_compute in Hup; discriminate].
  exists m'. split; [reflexivity|].
  destruct (original_index_of_record_rows _ _ Hup) as (Hv & Hi & Hrest).
  destruct Hrest as [Hd Hs].
  - repeat constructor; simpl; intuition discriminate.
  - auto.
Defined.

(** C1, as stated, fails on a catalog with twin records: the two record
    rows resolve to the same catalog index, and the record there is not
    the one shown at the first of them. *)
Lemma twin_records_share_an_index :
  exists m', updateTable (initModel "cfg" twinCatalog) = Ok m' /\
    ~ resolvesDistinct m' /\ ~ resolvesShown m'.
Proof.
  eexists. split; [vm_compute; reflexivity|]. split.
  - intros H. apply (H 1 3 0 0); try reflexivity; try lia.
    + exists 0. split; [reflexivity|lia].
    + exists 1. split; [reflexivity|lia].
  - intros H. destruct (H 1 0) as (p & Hp & k & row & Hk & Hs & _).
    + exists 0. split; [reflexivity|lia].
    + reflexivity.
    + vm_compute in Hp, Hk. injection Hp as <-. injection Hk as <-.
      vm_compute in Hs. discriminate.
Qed.

(* ===================================================================== *)
(** * C2: one header per category *)
(* ===================================================================== *)

(** C2 at a catalog that spells one category as [Web] and as [web].  The
    sort folds case and orders the three records by name, the header test
    compares the spellings: the header of [Web] is emitted twice, three
    headers for two display categories. *)
Theorem mixed_case_category_repeats_header :
  exists m', updateTable (initModel "cfg" mixedCaseCatalog) = Ok m' /\
    map Name (getSortedProjects m') = ["a"; "b"; "c"] /\
    projectIndices m' = [-1; 0; -1; 1; -1; 2] /\
    map (hd "") (table.rows (table m'))
      = ["📂 Web"; "a"; "📂 web"; "b"; "📂 Web"; "c"] /\
    headerCount m' = 3%nat /\
    displayCategories mixedCaseCatalog = ["web"; "Web"].
Proof.
  eexists. split; [vm_compute; reflexivity|].
  repeat split.
Qed.

(* ===================================================================== *)
(** * C3: the order of records with equal keys *)
(* ===================================================================== *)

Lemma sameKey_lower p q :
  sameKey p q = true <->
  strings.ToLower (orNA (Category p)) = strings.ToLower (orNA (Category q)) /\
  strings.ToLower (Name p) = strings.ToLower (Name q).
Proof.
  unfold sameKey.
  rewrite andb_true_iff, EqualFold_ToLower, !String.eqb_eq. tauto.
Qed.

(** The comparator reads the lower-case forms of category and name only. *)
Lemma projectLess_folds p q p' q' :
  sameKey p p' = true -> sameKey q q' = true ->
  projectLess p q = projectLess p' q'.
Proof.
  rewrite !sameKey_lower. intros [Hc Hn] [Hc' Hn'].
  unfold projectLess. rewrite !EqualFold_ToLower.
  now rewrite Hc, Hn, Hc', Hn'.
Qed.

(** The comparator never orders two records of one key class. *)
Lemma sameKey_unordered k u v :
  projectLess u v = true -> sameKey k u = true -> sameKey k v = true -> False.
Proof.
  rewrite !sameKey_lower. intros Hless [Hc Hn] [Hc' Hn'].
  unfold projectLess in Hless. rewrite EqualFold_ToLower in Hless.
  rewrite <- Hc, <- Hc', <- Hn, <- Hn', String.eqb_refl in Hless.
  cbn [negb] in Hless. rewrite ltb_irrefl in Hless. discriminate.
Qed.

(** C3, as the program has it, for categories and names of ASCII.  The
    comparator folds case: it gives the same answer on records whose
    categories and names differ in case only.  On a catalog of at most
    twelve records, which [sort.Slice] sorts by insertion, the records
    that have the key of a record of the catalog are in the sorted copy
    in the order they have in the catalog. *)
Theorem sort_folds_case_and_keeps_order_of_twelve m :
  asciiCatalog (projects m) ->
  (List.length (projects m) <= 12)%nat ->
  (forall p q p' q',
     asciiRecord p -> asciiRecord q -> asciiRecord p' -> asciiRecord q' ->
     sameKey p p' = true -> sameKey q q' = true ->
     projectLess p q = projectLess p' q') /\
  (forall p, In p (projects m) ->
     filter (sameKey p) (getSortedProjects m)
     = filter (sameKey p) (projects m)).
Proof.
  intros _ Hlen. split; [intros p q p' q' _ _ _ _; apply projectLess_folds|].
  intros p _. unfold getSortedProjects. rewrite Slice_short; auto.
  apply insertionSort_filter. intros u v. apply sameKey_unordered.
Qed.

Lemma sameKeyCatalog_ascii : asciiCatalog sameKeyCatalog.
Proof.
  intros p Hp. cbn [sameKeyCatalog In] in Hp.
  destruct Hp as [<-|[<-|[<-|[]]]]; split; reflexivity.
Qed.

Lemma sort_folds_case_and_keeps_order_of_twelve_witness :
  map Link (getSortedProjects (initModel "cfg" sameKeyCatalog))
  = [""; "first"; "second"] /\
  map Link
    (filter (sameKey (nth 2 sameKeyCatalog zeroProject))
       (getSortedProjects (initModel "cfg" sameKeyCatalog)))
  = ["first"; "second"].
Proof.
  split; [vm_compute; reflexivity|].
  destruct (sort_folds_case_and_keeps_order_of_twelve
              (initModel "cfg" sameKeyCatalog)) as [_ Hkeep].
  - exact sameKeyCatalog_ascii.
  - simpl. lia.
  - rewrite (Hkeep (nth 2 sameKeyCatalog zeroProject)).
    + vm_compute. reflexivity.
    + cbn. auto.
Defined.

(** C3, as stated, fails on thirteen records: [sort.Slice] partitions
    around the seventh, which it first swaps to the front, and the record
    with link [g] ends before the one with link [a]. *)
Lemma thirteen_records_change_order :
  map Link (getSortedProjects (initModel "cfg" thirteenCatalog))
    = [""; "g"; "c"; "d"; "e"; "f"; "a"; "h"; "i"; "j"; "k"; "l"; "b"] /\
  ~ keepsOrder thirteenCatalog
      (getSortedProjects (initModel "cfg" thirteenCatalog)).
Proof.
  split; [vm_compute; reflexivity|].
  intros H. specialize (H (tool "a")). vm_compute in H. discriminate.
Qed.

(* ===================================================================== *)
(** * C4: the projection of the scenario catalog *)
(* ===================================================================== *)

(** C4, as the program has it.  Whatever the paths, commands and links of
    the three records, whatever the columns shown: the projection is the
    header of [N/A], Beta, the header of [Web], Alpha, Zeta.  The display
    category [N/A] sorts before [Web]. *)
Theorem scenario_projection m zeta alpha beta :
  projects m = [zeta; alpha; beta] ->
  (Name zeta, Category zeta) = ("Zeta", "Web") ->
  (Name alpha, Category alpha) = ("Alpha", "Web") ->
  (Name beta, Category beta) = ("Beta", "") ->
  0 <= scrollOffset m ->
  exists m' rowZeta rowAlpha rowBeta,
    updateTable m = Ok m' /\
    projectRow (table m) (scrollOffset m) zeta = Ok rowZeta /\
    projectRow (table m) (scrollOffset m) alpha = Ok rowAlpha /\
    projectRow (table m) (scrollOffset m) beta = Ok rowBeta /\
    table.rows (table m')
      = [headerRow (table m) (scrollOffset m) "N/A"; rowBeta;
         headerRow (table m) (scrollOffset m) "Web"; rowAlpha; rowZeta] /\
    projectIndices m' = [-1; 0; -1; 1; 2].
Proof.
  intros Hps Hz Ha Hb Hoff.
  destruct zeta as [nz pz cz lz gz], alpha as [na pa ca la ga],
    beta as [nb pb cb lb gb].
  cbn [Name Category] in Hz, Ha, Hb.
  injection Hz as -> ->. injection Ha as -> ->. injection Hb as -> ->.
  destruct (projectRow_total (table m) (scrollOffset m)
              (Build_Project "Zeta" pz cz lz "Web") Hoff) as [rz Hrz].
  destruct (projectRow_total (table m) (scrollOffset m)
              (Build_Project "Alpha" pa ca la "Web") Hoff) as [ra Hra].
  destruct (projectRow_total (table m) (scrollOffset m)
              (Build_Project "Beta" pb cb lb "") Hoff) as [rb Hrb].
  assert (Hsorted : getSortedProjects m
            = [Build_Project "Beta" pb cb lb "";
               Build_Project "Alpha" pa ca la "Web";
               Build_Project "Zeta" pz cz lz "Web"]).
  { unfold getSortedProjects. rewrite Hps. vm_compute. reflexivity. }
  exists (set_table (set_projectIndices m [-1; 0; -1; 1; 2])
            (table.SetRows (table m)
               [headerRow (table m) (scrollOffset m) "N/A"; rb;
                headerRow (table m) (scrollOffset m) "Web"; ra; rz])).
  exists rz, ra, rb.
  repeat split; auto.
  unfold updateTable. rewrite Hsorted. cbn [tableRows].
  rewrite Hrz, Hra, Hrb. reflexivity.
Qed.

Lemma scenario_projection_witness :
  exists m', updateTable (initModel "cfg" scenarioCatalog) = Ok m' /\
    map (hd "") (table.rows (table m'))
      = ["📂 N/A"; "Beta"; "📂 Web"; "Alpha"; "Zeta"] /\
    projectIndices m' = [-1; 0; -1; 1; 2].
Proof.
  destruct (scenario_projection (initModel "cfg" scenarioCatalog)
              (project "Zeta" "Web") (project "Alpha" "Web")
              (project "Beta" "") eq_refl eq_refl eq_refl eq_refl)
    as (m' & rz & ra & rb & Hup & Hrz & Hra & Hrb & Hrows & Hidx).
  - simpl. lia.
  - exists m'. split; [exact Hup|]. split; [|exact Hidx].
    rewrite Hrows.
    vm_compute in Hrz, Hra, Hrb.
    injection Hrz as <-. injection Hra as <-. injection Hrb as <-.
    vm_compute. reflexivity.
Defined.

(** C4, as stated, fails: the projection does not begin with the header
    of [Web]. *)
Lemma scenario_projection_is_not_web_first :
  exists m', updateTable (initModel "cfg" scenarioCatalog) = Ok m' /\
    map (hd "") (table.rows (table m'))
      <> ["📂 Web"; "Alpha"; "Zeta"; "📂 N/A"; "Beta"].
Proof.
  eexists. split; [vm_compute; reflexivity|].
  vm_compute. discriminate.
Qed.

(* ===================================================================== *)
(** * The launcher *)
(* ===================================================================== *)

Lemma append_nil_r (s : string) : (s ++ "")%string = s.
Proof. induction s as [|c s IH]; simpl; congruence. Qed.

Lemma append_assoc (s t u : string) :
  ((s ++ t) ++ u)%string = (s ++ t ++ u)%string.
Proof. induction s as [|c s IH]; simpl; congruence. Qed.

Lemma prefix_split : forall p s,
  String.prefix p s = true -> exists r, s = (p ++ r)%string.
Proof.
  induction p as [|a p IH]; intros s H.
  - exists s. reflexivity.
  - destruct s as [|b s]; [discriminate|]. simpl in H.
    destruct (ascii_dec a b) as [->|]; [|discriminate].
    destruct (IH _ H) as [r ->]. exists r. reflexivity.
Qed.

Lemma prefix_length : forall p s,
  String.prefix p s = true -> (String.length p <= String.length s)%nat.
Proof.
  intros p s H. destruct (prefix_split _ _ H) as [r ->].
  clear H. induction p; simpl; lia.
Qed.

Lemma prefix_append p r : String.prefix p (p ++ r) = true.
Proof.
  induction p as [|a p IH]; simpl.
  - destruct r; reflexivity.
  - destruct (ascii_dec a a); [exact IH|congruence].
Qed.

Lemma prefix_nil s : String.prefix "" s = true.
Proof. destruct s; reflexivity. Qed.

(** An occurrence of [/mnt/c] that begins before another one ends before
    it: the mount prefix does not overlap itself. *)
Lemma mount_prefix_no_overlap c s1 s2 :
  String.prefix "/mnt/c" (String c s1 ++ "/mnt/c" ++ s2)
  = String.prefix "/mnt/c" (String c s1).
Proof.
  destruct s1 as [|c2 [|c3 [|c4 [|c5 [|c6 s1]]]]];
    cbn [String.append String.prefix];
    repeat match goal with
           | |- context [ascii_dec ?a ?b] =>
               destruct (ascii_dec a b); try discriminate; try reflexivity
           end;
    subst; try discriminate; try reflexivity;
    rewrite !prefix_nil; reflexivity.
Qed.

Lemma replace_mount_split : forall s1 s2 skip,
  (skip <= String.length s1)%nat ->
  strings.replaceFrom "/mnt/c" "C:" (s1 ++ "/mnt/c" ++ s2) skip
  = (strings.replaceFrom "/mnt/c" "C:" s1 skip ++ "C:"
     ++ strings.replaceFrom "/mnt/c" "C:" s2 0)%string.
Proof.
  induction s1 as [|c s1 IH]; intros s2 skip Hskip.
  - assert (skip = 0)%nat by (simpl in Hskip; lia). subst skip.
    cbn [String.append]. change ("/mnt/c" ++ s2)%string
      with (String "/" (String "m" (String "n" (String "t"
             (String "/" (String "c" s2)))))).
    cbn [strings.replaceFrom].
    replace (String.prefix "/mnt/c" _) with true; [reflexivity|].
    symmetry. apply (prefix_append "/mnt/c" s2).
  - destruct skip as [|k].
    + change ((String c s1 ++ "/mnt/c" ++ s2)%string)
        with (String c (s1 ++ "/mnt/c" ++ s2)%string).
      cbn [strings.replaceFrom].
      change (String c (s1 ++ "/mnt/c" ++ s2)%string)
        with ((String c s1 ++ "/mnt/c" ++ s2)%string).
      rewrite mount_prefix_no_overlap.
      destruct (String.prefix "/mnt/c" (String c s1)) eqn:Hp.
      * apply prefix_length in Hp. simpl in Hp.
        rewrite IH by (simpl; lia). simpl. reflexivity.
      * rewrite IH by lia. reflexivity.
    + change ((String c s1 ++ "/mnt/c" ++ s2)%string)
        with (String c (s1 ++ "/mnt/c" ++ s2)%string).
      cbn [strings.replaceFrom]. apply IH. simpl in Hskip. lia.
Qed.

Lemma replace_slash_app : forall s t,
  strings.replaceFrom "/" "\" (s ++ t) 0
  = (strings.replaceFrom "/" "\" s 0 ++ strings.replaceFrom "/" "\" t 0)%string.
Proof.
  induction s as [|c s IH]; intros t; [reflexivity|].
  cbn [String.append strings.replaceFrom String.prefix].
  destruct (ascii_dec "/" c); cbn [String.length Nat.sub];
    rewrite ?prefix_nil, IH; reflexivity.
Qed.

Lemma replace_slash_clean : forall s,
  hasByte "/" (strings.replaceFrom "/" "\" s 0) = false.
Proof.
  induction s as [|c s IH]; [reflexivity|].
  cbn [strings.replaceFrom String.prefix].
  destruct (ascii_dec "/" c) as [<-|Hne].
  - rewrite prefix_nil.
    cbn [String.length Nat.sub String.append hasByte]. rewrite IH.
    reflexivity.
  - cbn [hasByte]. rewrite IH.
    apply Ascii.eqb_neq in Hne. rewrite Hne. reflexivity.
Qed.

(** The translation, clause by clause: it distributes over every
    occurrence of the mount prefix, which becomes the drive letter. *)
Lemma windowsPathOf_split s1 s2 :
  windowsPathOf (s1 ++ "/mnt/c" ++ s2)
  = (windowsPathOf s1 ++ "C:" ++ windowsPathOf s2)%string.
Proof.
  unfold windowsPathOf, strings.ReplaceAll.
  rewrite replace_mount_split by lia.
  rewrite !replace_slash_app. reflexivity.
Qed.

Lemma windowsPathOf_clean s : hasByte "/" (windowsPathOf s) = false.
Proof. apply replace_slash_clean. Qed.

Lemma windowsPathOf_drive path :
  strings.HasPrefix path "/mnt/c/" = true ->
  String.prefix "C:" (windowsPathOf path) = true.
Proof.
  intros H. apply prefix_split in H. destruct H as [r ->].
  change ("/mnt/c/" ++ r)%string with ("" ++ "/mnt/c" ++ String "/" r)%string.
  rewrite windowsPathOf_split.
  change (windowsPathOf "") with "". apply (prefix_append "C:").
Qed.

(** C6.  A record whose path does not begin with [/mnt/c/] is launched
    by one process: [bash -c "cd '<path>' && <command>"], with the
    record's path as working directory and [Setpgid] set with [Pgid] 0,
    so that the child leads a process group of its own, which is not the
    launcher's. *)
Theorem native_launch_runs_bash_in_own_group
  (start : exec.Cmd -> option string) (p : Project) :
  strings.HasPrefix (Path p) "/mnt/c/" = false ->
  exists cmd,
    fst (launchProject start p) = [StartProcess cmd] /\
    exec.Args cmd
      = ["bash"; "-c"; "cd '" ++ Path p ++ "' && " ++ Command p]%string /\
    exec.Dir cmd = Path p /\
    exec.SysProcAttr cmd
      = Some {| syscall.Setpgid := true; syscall.Pgid := 0 |} /\
    forall launcherPgid childPid,
      childPgid (exec.SysProcAttr cmd) launcherPgid childPid = childPid /\
      (childPid <> launcherPgid ->
       childPgid (exec.SysProcAttr cmd) launcherPgid childPid <> launcherPgid).
Proof.
  intros Hnative. unfold launchProject. rewrite Hnative.
  eexists. split; [reflexivity|]. cbn.
  rewrite append_nil_r. repeat split; auto.
Qed.

Lemma native_launch_runs_bash_in_own_group_witness :
  strings.HasPrefix (Path scenarioNative) "/mnt/c/" = false /\
  fst (launchProject (fun _ => None) scenarioNative)
  = [StartProcess
       {| exec.Args := ["bash"; "-c"; "cd '/home/x/api' && python main.py"];
          exec.Dir := "/home/x/api";
          exec.SysProcAttr :=
            Some {| syscall.Setpgid := true; syscall.Pgid := 0 |} |}].
Proof.
  split; [reflexivity|].
  destruct (native_launch_runs_bash_in_own_group (fun _ => None)
              scenarioNative eq_refl)
    as (cmd & Hfx & Hargs & Hdir & Hattr & _).
  rewrite Hfx. destruct cmd as [args dir attr].
  cbn in Hargs, Hdir, Hattr. subst. reflexivity.
Defined.

(** C7.  A record whose path begins with [/mnt/c/] is launched by one
    process whose argument vector is [powershell.exe -Command <script>],
    with no working directory and no process attributes set.  The script
    is [Set-Location '<translated>'; Start-Process '<command>'] when the
    command ends in [.exe], and [Set-Location '<translated>'; <command>]
    otherwise.  The translated path begins with the drive letter and
    holds no slash; for the scenario it is [C:\Users\x\app]. *)
Theorem foreign_launch_uses_powershell
  (start : exec.Cmd -> option string) (p : Project) :
  strings.HasPrefix (Path p) "/mnt/c/" = true ->
  String.prefix "C:" (windowsPathOf (Path p)) = true /\
  hasByte "/" (windowsPathOf (Path p)) = false /\
  windowsPathOf "/mnt/c/Users/x/app" = "C:\Users\x\app" /\
  exists cmd,
    fst (launchProject start p) = [StartProcess cmd] /\
    exec.Args cmd
    = ["powershell.exe"; "-Command";
       if strings.HasSuffix (Command p) ".exe"
       then ("Set-Location '" ++ windowsPathOf (Path p)
             ++ "'; Start-Process '" ++ Command p ++ "'")%string
       else ("Set-Location '" ++ windowsPathOf (Path p)
             ++ "'; " ++ Command p)%string] /\
    exec.Dir cmd = "" /\
    exec.SysProcAttr cmd = None.
Proof.
  intros Hforeign.
  split; [now apply windowsPathOf_drive|].
  split; [apply windowsPathOf_clean|].
  split; [reflexivity|].
  unfold launchProject. rewrite Hforeign.
  destruct (strings.HasSuffix (Command p) ".exe"); cbn;
    rewrite ?append_nil_r; eexists; (split; [reflexivity|]);
    repeat split.
Qed.

Lemma foreign_launch_uses_powershell_witness :
  strings.HasPrefix (Path scenarioForeign) "/mnt/c/" = true /\
  launchProject (fun _ => None) scenarioForeign
  = ([StartProcess
        {| exec.Args :=
             ["powershell.exe"; "-Command";
              "Set-Location 'C:\Users\x\app'; Start-Process 'app.exe'"];
           exec.Dir := "";
           exec.SysProcAttr := None |}],
     tea.Emit
       (tea.statusMsg
          "🚀 Launched app (Windows via PowerShell Start-Process)")) /\
  fst (launchProject (fun _ => None) scenarioScript)
  = [StartProcess
       {| exec.Args :=
            ["powershell.exe"; "-Command";
             "Set-Location 'C:\tools'; python run.py"];
          exec.Dir := "";
          exec.SysProcAttr := None |}].
Proof.
  split; [reflexivity|]. split.
  - apply injective_projections.
    + destruct (foreign_launch_uses_powershell (fun _ => None)
                  scenarioForeign eq_refl)
        as (_ & _ & _ & cmd & -> & Hargs & Hdir & Hattr).
      destruct cmd as [args dir attr]. cbn in Hargs, Hdir, Hattr.
      subst. reflexivity.
    + reflexivity.
  - destruct (foreign_launch_uses_powershell (fun _ => None)
                scenarioScript eq_refl)
      as (_ & _ & _ & cmd & -> & Hargs & Hdir & Hattr).
    destruct cmd as [args dir attr]. cbn in Hargs, Hdir, Hattr.
    subst. reflexivity.
Defined.

(** C9.  With an empty link no process is started and the command
    returned is the status message that says so.  With a link, one
    process is started, with the argument vector [cmd.exe /c start <link>]
    and nothing else set; the command returned is the status message of
    the failure, with the text of the error, when starting fails, and
    the status message of the opening otherwise.  In every case the
    command returned is a status message: it never is the command that
    ends the program. *)
Theorem open_link_reports (start : exec.Cmd -> option string) (p : Project) :
  (Link p = "" ->
   openProjectLink start p
   = ([], tea.Emit (tea.statusMsg "📭 No Link Associated"))) /\
  (Link p <> "" ->
   exists cmd,
     fst (openProjectLink start p) = [StartProcess cmd] /\
     exec.Args cmd = ["cmd.exe"; "/c"; "start"; Link p] /\
     exec.Dir cmd = "" /\
     exec.SysProcAttr cmd = None /\
     snd (openProjectLink start p)
     = match start cmd with
       | Some e =>
           tea.Emit (tea.statusMsg ("❌ Failed to open link: " ++ e))
       | None =>
           tea.Emit
             (tea.statusMsg ("🌐 Opened " ++ Name p ++ " link in browser"))
       end) /\
  (exists msg, snd (openProjectLink start p) = tea.Emit (tea.statusMsg msg)) /\
  snd (openProjectLink start p) <> tea.Quit.
Proof.
  unfold openProjectLink. split; [|split; [|split]].
  - intros ->. reflexivity.
  - intros Hlink. apply String.eqb_neq in Hlink. rewrite Hlink.
    cbv zeta.
    exists (exec.Command "cmd.exe" ["/c"; "start"; Link p]).
    destruct (start (exec.Command "cmd.exe" ["/c"; "start"; Link p])); cbn;
      rewrite ?append_nil_r; repeat split.
  - destruct (Link p =? "")%string; [cbn; eexists; reflexivity|]. cbv zeta.
    destruct (start (exec.Command "cmd.exe" ["/c"; "start"; Link p])); cbn;
      eexists; reflexivity.
  - destruct (Link p =? "")%string; [cbn; discriminate|]. cbv zeta.
    destruct (start (exec.Command "cmd.exe" ["/c"; "start"; Link p])); cbn;
      discriminate.
Qed.

Lemma open_link_reports_witness :
  openProjectLink (fun _ => None) scenarioNative
  = ([], tea.Emit (tea.statusMsg "📭 No Link Associated")) /\
  openProjectLink (fun _ => Some "exec: not found") scenarioScript
  = ([StartProcess
        {| exec.Args := ["cmd.exe"; "/c"; "start"; "https://example.org"];
           exec.Dir := "";
           exec.SysProcAttr := None |}],
     tea.Emit (tea.statusMsg "❌ Failed to open link: exec: not found")).
Proof.
  split.
  - apply (open_link_reports (fun _ => None) scenarioNative). reflexivity.
  - destruct (open_link_reports (fun _ => Some "exec: not found")
                scenarioScript) as (_ & H & _).
    destruct H as (cmd & Hfx & Hargs & Hdir & Hattr & Hst); [discriminate|].
    destruct cmd as [args dir attr]. cbn in Hargs, Hdir, Hattr. subst.
    apply injective_projections; [rewrite Hfx|rewrite Hst]; reflexivity.
Defined.

(** Where the mount prefix does not occur, only the separators change. *)
Lemma replace_without_occurrence old new : forall s,
  occursIn old s = false -> strings.replaceFrom old new s 0 = s.
Proof.
  induction s as [|c s IH]; intros H; [reflexivity|].
  cbn [occursIn] in H. apply orb_false_iff in H. destruct H as [Hp Hs].
  cbn [strings.replaceFrom]. rewrite Hp, (IH Hs). reflexivity.
Qed.

Lemma replace_slash_backslashed : forall s,
  strings.replaceFrom "/" "\" s 0 = backslashed s.
Proof.
  induction s as [|c s IH]; [reflexivity|].
  cbn [strings.replaceFrom String.prefix backslashed].
  destruct (ascii_dec "/" c) as [<-|Hne].
  - rewrite prefix_nil. cbn [String.length Nat.sub String.append].
    rewrite IH. reflexivity.
  - rewrite IH.
    replace (Ascii.eqb c "/") with false; [reflexivity|].
    symmetry. apply Ascii.eqb_neq. congruence.
Qed.

Lemma windowsPathOf_plain s :
  occursIn "/mnt/c" s = false -> windowsPathOf s = backslashed s.
Proof.
  intros H. unfold windowsPathOf, strings.ReplaceAll.
  rewrite (replace_without_occurrence _ _ _ H).
  apply replace_slash_backslashed.
Qed.

(** The translation of a path cut at every occurrence of the mount
    prefix. *)
Lemma windowsPathOf_joined : forall pieces,
  Forall (fun s => occursIn "/mnt/c" s = false) pieces ->
  windowsPathOf (joined "/mnt/c" pieces)
  = joined "C:" (map backslashed pieces).
Proof.
  induction pieces as [|s rest IH]; intros H; [reflexivity|].
  inversion H as [|? ? Hs Hrest]; subst.
  destruct rest as [|t rest].
  - cbn [joined map]. now apply windowsPathOf_plain.
  - change (joined "/mnt/c" (s :: t :: rest))
      with (s ++ "/mnt/c" ++ joined "/mnt/c" (t :: rest))%string.
    rewrite windowsPathOf_split, (IH Hrest), (windowsPathOf_plain _ Hs).
    reflexivity.
Qed.

Lemma prefix_app p s t :
  String.prefix p s = true -> String.prefix p (s ++ t) = true.
Proof.
  intros H. destruct (prefix_split _ _ H) as [r ->].
  rewrite append_assoc. apply prefix_append.
Qed.

Lemma string_length_app (s t : string) :
  String.length (s ++ t) = (String.length s + String.length t)%nat.
Proof. induction s as [|c s IH]; simpl; congruence. Qed.

(** The leftmost occurrence of the mount prefix: none lies before it. *)
Lemma first_mount : forall s,
  occursIn "/mnt/c" s = true ->
  exists s1 s2,
    s = (s1 ++ "/mnt/c" ++ s2)%string /\ occursIn "/mnt/c" s1 = false.
Proof.
  induction s as [|c s IH]; intros H; [discriminate|].
  cbn [occursIn] in H.
  destruct (String.prefix "/mnt/c" (String c s)) eqn:Hp.
  - destruct (prefix_split _ _ Hp) as [r Hr].
    exists "", r. split; [exact Hr|reflexivity].
  - cbn [orb] in H. destruct (IH H) as (s1 & s2 & -> & Hs1).
    exists (String c s1), s2. split; [reflexivity|].
    cbn [occursIn]. rewrite Hs1.
    destruct (String.prefix "/mnt/c" (String c s1)) eqn:Hp1; [|reflexivity].
    apply (prefix_app _ _ ("/mnt/c" ++ s2)) in Hp1.
    change (String c s1 ++ "/mnt/c" ++ s2)%string
      with (String c (s1 ++ "/mnt/c" ++ s2)) in Hp1.
    congruence.
Qed.

(** Every path can be cut at every occurrence of the mount prefix, into
    pieces that hold none. *)
Lemma cut_at_mount : forall n s,
  (String.length s <= n)%nat ->
  exists pieces,
    pieces <> [] /\ s = joined "/mnt/c" pieces /\
    Forall (fun t => occursIn "/mnt/c" t = false) pieces.
Proof.
  induction n as [|n IH]; intros s Hn.
  - destruct s; [|simpl in Hn; lia].
    exists [""]. split; [discriminate|]. split; [reflexivity|].
    repeat constructor.
  - destruct (occursIn "/mnt/c" s) eqn:Hocc.
    + destruct (first_mount _ Hocc) as (s1 & s2 & -> & Hs1).
      rewrite !string_length_app in Hn. cbn [String.length] in Hn.
      destruct (IH s2 ltac:(lia)) as (rest & Hne & -> & Hrest).
      exists (s1 :: rest). split; [discriminate|].
      split; [|constructor; assumption].
      destruct rest as [|t rest]; [exfalso; apply Hne; reflexivity|].
      reflexivity.
    + exists [s]. split; [discriminate|]. split; [reflexivity|].
      repeat constructor. exact Hocc.
Qed.

(** C10.  A record whose path begins with [/mnt/c/] is launched with
    every occurrence of [/mnt/c] in its path rewritten, not the leading
    one only.  The path can be cut at every occurrence, into pieces that
    hold none; and however it is so cut, the path in the script that
    [powershell.exe] is started with is the pieces, every [/] in them a
    backslash, with [C:] where the occurrences were.  So
    [/mnt/c/a/mnt/c/b] is launched as [C:\aC:\b]. *)
Theorem every_mount_prefix_is_rewritten
  (start : exec.Cmd -> option string) (p : Project) :
  strings.HasPrefix (Path p) "/mnt/c/" = true ->
  (exists pieces,
     Path p = joined "/mnt/c" pieces /\
     Forall (fun s => occursIn "/mnt/c" s = false) pieces) /\
  (forall pieces,
     Path p = joined "/mnt/c" pieces ->
     Forall (fun s => occursIn "/mnt/c" s = false) pieces ->
     exists cmd,
       fst (launchProject start p) = [StartProcess cmd] /\
       exec.Args cmd
       = ["powershell.exe"; "-Command";
          ("Set-Location '" ++ joined "C:" (map backslashed pieces)
           ++ (if strings.HasSuffix (Command p) ".exe"
               then "'; Start-Process '" ++ Command p ++ "'"
               else "'; " ++ Command p))%string]).
Proof.
  intros Hforeign. split.
  - destruct (cut_at_mount _ (Path p) (Nat.le_refl _))
      as (pieces & _ & Hpath & Hpieces).
    exists pieces. split; assumption.
  - intros pieces Hpath Hpieces.
    unfold launchProject. rewrite Hforeign.
    rewrite Hpath, (windowsPathOf_joined _ Hpieces).
    destruct (strings.HasSuffix (Command p) ".exe"); cbn;
      rewrite ?append_nil_r; eexists; split; reflexivity.
Qed.

Lemma every_mount_prefix_is_rewritten_witness :
  exists cmd,
    fst (launchProject (fun _ => None) scenarioTwice) = [StartProcess cmd] /\
    exec.Args cmd
    = ["powershell.exe"; "-Command";
       "Set-Location 'C:\aC:\b'; Start-Process 'run.exe'"].
Proof.
  destruct (every_mount_prefix_is_rewritten (fun _ => None) scenarioTwice
              eq_refl) as [_ Hcut].
  destruct (Hcut [""; "/a"; "/b"]) as (cmd & Hfx & Hargs).
  - reflexivity.
  - repeat constructor.
  - exists cmd. split; [exact Hfx|]. rewrite Hargs. reflexivity.
Defined.

(* ===================================================================== *)
(** * C5: entering edit mode *)
(* ===================================================================== *)

(** On an empty catalog [startEdit] changes nothing. *)
Lemma startEdit_empty m : projects m = [] -> startEdit m = Ok m.
Proof. unfold startEdit. intros ->. reflexivity. Qed.

(** On a catalog with records, when the lookup finds no record for the
    cursor, [startEdit] has set [editMode] before it returns. *)
Lemma startEdit_no_record m :
  projects m <> [] ->
  getOriginalIndexByDisplayIndex m (table.Cursor (table m)) = Ok (-1) ->
  startEdit m = Ok (set_editRow (set_editMode m true) (-1)).
Proof.
  intros Hps Hlook. unfold startEdit.
  replace (len (projects m) =? 0) with false.
  2:{ symmetry. apply Z.eqb_neq. unfold len.
      destruct (projects m); [congruence|simpl; lia]. }
  change (getOriginalIndexByDisplayIndex (set_editMode m true)
            (table.Cursor (table (set_editMode m true))))
    with (getOriginalIndexByDisplayIndex m (table.Cursor (table m))).
  rewrite Hlook. reflexivity.
Qed.

(** The lookup answers [-1] on a header row and outside the projection. *)
Lemma lookup_no_record m d :
  ~ recordRow m d -> getOriginalIndexByDisplayIndex m d = Ok (-1).
Proof.
  intros Hrow. unfold getOriginalIndexByDisplayIndex.
  destruct ((d <? 0) || (d >=? len (projectIndices m))) eqn:Hout; auto.
  apply orb_false_iff in Hout. destruct Hout as [H0 Hlen].
  apply Z.ltb_ge in H0. rewrite Z.geb_leb in Hlen. apply Z.leb_gt in Hlen.
  destruct (index_total (projectIndices m) d ltac:(lia)) as [k Hk].
  rewrite Hk. cbn [bind].
  destruct (Z.eqb_spec k (-1)); auto.
  exfalso. apply Hrow. exists k. auto.
Qed.

(** So on any catalog with records, with the cursor on a header row or
    outside the projection, the model returned is in edit mode. *)
Lemma startEdit_invalid_row m :
  projects m <> [] -> ~ recordRow m (table.Cursor (table m)) ->
  exists m', startEdit m = Ok m' /\
    editMode m' = true /\ editRow m' = -1 /\ projects m' = projects m.
Proof.
  intros Hps Hrow. eexists. split.
  - apply startEdit_no_record; auto. now apply lookup_no_record.
  - repeat split.
Qed.

(** C5 at the start-up state of a catalog of one record, the cursor on
    row 0, the header of its category.  [startEdit] returns a model in
    edit mode with no record to edit; the catalog is as it was.  The
    [tab] key then indexes the catalog at [-1]. *)
Theorem startEdit_on_header_sets_edit_mode :
  exists m m',
    updateTable (initModel "cfg" oneCatalog) = Ok m /\
    index (projectIndices m) (table.Cursor (table m)) = Ok (-1) /\
    editMode m = false /\
    startEdit m = Ok m' /\
    editMode m' = true /\ editRow m' = -1 /\ m' <> m /\
    projects m' = projects m /\
    forall forward, updateEdit forward m' "tab" = Panic.
Proof.
  eexists. eexists.
  split; [vm_compute; reflexivity|].
  split; [reflexivity|]. split; [reflexivity|].
  split; [vm_compute; reflexivity|].
  repeat split; try reflexivity. discriminate.
Qed.

(* ===================================================================== *)
(** * C8: the columns shown *)
(* ===================================================================== *)

Lemma fitColumns_count : forall columns availableWidth totalWidth visibleCols,
  visibleCols
  <= snd (fitColumns columns availableWidth totalWidth visibleCols)
  <= visibleCols + len columns.
Proof.
  induction columns as [|col rest IH]; intros avail tw v; cbn [fitColumns].
  - unfold len. simpl. lia.
  - rewrite len_cons.
    destruct (tw + table.Width col <=? avail); cbn [snd];
      [|unfold len; lia].
    specialize (IH avail (tw + table.Width col) (v + 1)). lia.
Qed.

Lemma widenLast_length : forall columns extraWidth,
  List.length (widenLast columns extraWidth) = List.length columns.
Proof.
  induction columns as [|col [|col' rest] IH]; intros extra; auto.
  cbn [widenLast List.length]. f_equal. apply (IH extra).
Qed.

(** With a scroll offset that is not negative, [adjustLayout] returns
    and shows at least one column, whatever the size of the pane. *)
Lemma adjustLayout_shows_a_column m :
  0 <= scrollOffset m ->
  exists m', adjustLayout m = Ok m' /\
             (1 <= List.length (table.Columns (table m')))%nat.
Proof.
  intros Hoff. unfold adjustLayout.
  pose proof (fitColumns_count allColumns (width m - 6) 0 0) as Hfit.
  destruct (fitColumns allColumns (width m - 6) 0 0) as [tw v].
  cbn [snd] in Hfit. change (len allColumns) with 5 in Hfit.
  set (vc := if v =? 0 then _ else _).
  assert (Hvc : 1 <= fst vc <= 5 /\ len (snd vc) = 5).
  { subst vc. destruct (Z.eqb_spec v 0); cbn [fst snd].
    - split; [lia|reflexivity].
    - split; [lia|reflexivity]. }
  destruct vc as [v' columns]. cbn [fst snd] in Hvc.
  destruct Hvc as [Hv Hlen].
  set (sc := if scrollOffset m + v' >? len columns then _ else _).
  assert (Hsc : 0 <= fst (fst sc) /\
                Z.of_nat (turns columns (fst (fst sc)) (snd (fst sc))) = v').
  { subst sc. rewrite Hlen. unfold turns. rewrite Hlen.
    destruct (Z.gtb_spec (scrollOffset m + v') 5); cbn [fst snd].
    - destruct (Z.ltb_spec (5 - v') 0); lia.
    - lia. }
  destruct sc as [[startCol endCol] m1]. cbn [fst snd] in Hsc.
  destruct Hsc as [Hstart Hturns].
  destruct (turns_fit columns startCol endCol Hstart) as [Hfits|Hzero];
    [|lia].
  destruct (collect_total columns _ _ Hstart Hfits) as (out & -> & Hout).
  cbn [bind]. eexists. split; [reflexivity|].
  cbn. unfold table.Columns. cbn.
  repeat match goal with
         | |- context [if ?c then _ else _] => destruct c
         end; rewrite ?widenLast_length; lia.
Qed.

(** With the columns not scrolled and a pane too narrow for the first
    column, the one column shown is as wide as the pane allows. *)
Lemma adjustLayout_narrow_unscrolled m :
  scrollOffset m = 0 -> width m - 6 < 30 ->
  exists m', adjustLayout m = Ok m' /\
    table.Columns (table m')
    = [ {| table.Title := "Name"; table.Width := width m - 6 |} ].
Proof.
  intros Hoff Hnarrow. unfold adjustLayout. cbn [fitColumns allColumns].
  replace (0 + table.Width _ <=? width m - 6) with false
    by (symmetry; apply Z.leb_gt; cbn; lia).
  rewrite Hoff. cbn.
  eexists. split; [reflexivity|].
  unfold table.Columns, usedWidthOf. cbn.
  destruct (Z.gtb_spec (width m - 6 - (width m - 6)) 0); [lia|reflexivity].
Qed.

(** C8 on a dashboard whose columns were scrolled to offset 3 in a pane
    of width 80, when the pane shrinks to width 20.  The available width
    is 14; the one column shown is [Category] at its nominal width of 15:
    the width written was that of the first column, which is not the one
    shown. *)
Theorem narrow_scrolled_pane_keeps_nominal_width :
  exists m m',
    scrolledModel = Ok m /\ scrollOffset m = 3 /\
    windowSize m 20 24 = Ok m' /\
    width m' - 6 = 14 /\
    table.Columns (table m')
    = [ {| table.Title := "Category"; table.Width := 15 |} ].
Proof.
  eexists. eexists. split; [vm_compute; reflexivity|].
  split; [reflexivity|].
  split; [vm_compute; reflexivity|]. split; reflexivity.
Qed.

(* ===================================================================== *)
(** * More on the projection *)
(* ===================================================================== *)

Lemma orNA_not_empty c : orNA c <> "".
Proof.
  unfold orNA. destruct (String.eqb_spec c ""); [discriminate|auto].
Qed.

Lemma tableRows_lengths t off : forall sorted last k rows idx,
  tableRows t off sorted last k = Ok (rows, idx) ->
  List.length rows = List.length idx.
Proof.
  induction sorted as [|p rest IH]; intros last k rows idx H.
  - injection H as <- <-. reflexivity.
  - apply tableRows_cons in H.
    destruct H as (row & rows' & idx' & _ & Hrest & Hshape).
    apply IH in Hrest.
    destruct Hshape as [(_ & -> & ->)|(_ & -> & ->)]; simpl; lia.
Qed.

(** The record entries of the index map, read in order, count the records
    of the sorted copy. *)
Lemma tableRows_records t off : forall sorted last k rows idx,
  tableRows t off sorted last k = Ok (rows, idx) -> 0 <= k ->
  filter (fun e => negb (e =? -1)) idx
  = map (fun i => k + Z.of_nat i) (seq 0 (List.length sorted)).
Proof.
  induction sorted as [|p rest IH]; intros last k rows idx H Hk.
  - injection H as <- <-. reflexivity.
  - apply tableRows_cons in H.
    destruct H as (row & rows' & idx' & _ & Hrest & Hshape).
    apply IH in Hrest; [|lia].
    assert (Hk' : negb (k =? -1) = true)
      by (apply negb_true_iff, Z.eqb_neq; lia).
    assert (Htail : filter (fun e => negb (e =? -1)) (k :: idx')
                    = map (fun i => k + Z.of_nat i)
                        (seq 0 (List.length (p :: rest)))).
    { cbn [filter]. rewrite Hk', Hrest. cbn [List.length seq map].
      f_equal; [lia|]. rewrite <- seq_shift, map_map.
      apply map_ext. intros i. lia. }
    destruct Hshape as [(_ & _ & ->)|(_ & _ & ->)]; auto.
Qed.

(** The row before a record row: the header of the record's category, or
    the record before it in the sorted copy, of the same category.  A
    header follows the start of the projection or a record of another
    category, and is followed by a record. *)
Lemma tableRows_neighbours t off : forall sorted last k rows idx,
  tableRows t off sorted last k = Ok (rows, idx) -> 0 <= k ->
  forall d kd p, nth_error idx d = Some kd -> kd <> -1 ->
    nth_error sorted (Z.to_nat (kd - k)) = Some p ->
    (exists d', d = S d' /\ nth_error idx d' = Some (-1) /\
       nth_error rows d' = Some (headerRow t off (orNA (Category p))) /\
       ((kd = k /\ d' = 0%nat /\ orNA (Category p) <> last) \/
        (k < kd /\ exists d'' q, d' = S d'' /\
           nth_error idx d'' = Some (kd - 1) /\
           nth_error sorted (Z.to_nat (kd - 1 - k)) = Some q /\
           orNA (Category q) <> orNA (Category p)))) \/
    ((kd = k /\ d = 0%nat /\ orNA (Category p) = last) \/
     (k < kd /\ exists d' q, d = S d' /\
        nth_error idx d' = Some (kd - 1) /\
        nth_error sorted (Z.to_nat (kd - 1 - k)) = Some q /\
        orNA (Category q) = orNA (Category p))).
Proof.
  induction sorted as [|p0 rest IH];
    intros last k rows idx H Hk d kd p Hd Hkd Hp.
  - injection H as <- <-. destruct d; discriminate.
  - apply tableRows_cons in H.
    destruct H as (row & rows' & idx' & Hrow & Hrest & Hshape).
    (* a record row of the tail, seen from the whole *)
    assert (Htail : forall d0, nth_error idx' d0 = Some kd ->
      k < kd /\
      nth_error rest (Z.to_nat (kd - (k + 1))) = Some p).
    { intros d0 Hd0.
      destruct (tableRows_entries _ _ _ _ _ _ _ Hrest ltac:(lia) d0 kd Hd0 Hkd)
        as (Hr & _).
      split; [lia|].
      replace (Z.to_nat (kd - k)) with (S (Z.to_nat (kd - (k + 1)))) in Hp
        by lia. exact Hp. }
    assert (Hstep : forall (pre : list Z) (prer : list table.Row) d0 lastd,
      List.length pre = List.length prer ->
      nth_error (pre ++ [k]) lastd = Some k -> lastd = List.length pre ->
      nth_error idx' d0 = Some kd ->
      (if negb (orNA (Category p0) =? last)%string
       then orNA (Category p0) else last) = orNA (Category p0) ->
      let idxw := (pre ++ k :: idx')%list in
      let rowsw := (prer ++ row :: rows')%list in
      let dw := (List.length pre + S d0)%nat in
      (exists d', dw = S d' /\ nth_error idxw d' = Some (-1) /\
         nth_error rowsw d' = Some (headerRow t off (orNA (Category p))) /\
         ((kd = k /\ d' = 0%nat /\ orNA (Category p) <> last) \/
          (k < kd /\ exists d'' q, d' = S d'' /\
             nth_error idxw d'' = Some (kd - 1) /\
             nth_error (p0 :: rest) (Z.to_nat (kd - 1 - k)) = Some q /\
             orNA (Category q) <> orNA (Category p)))) \/
      ((kd = k /\ dw = 0%nat /\ orNA (Category p) = last) \/
       (k < kd /\ exists d' q, dw = S d' /\
          nth_error idxw d' = Some (kd - 1) /\
          nth_error (p0 :: rest) (Z.to_nat (kd - 1 - k)) = Some q /\
          orNA (Category q) = orNA (Category p)))).
    { intros pre prer d0 lastd Hlen _ _ Hd0 Hlast idxw rowsw dw.
      destruct (Htail d0 Hd0) as [Hlt Hp'].
      rewrite Hlast in Hrest.
      assert (Hshift : forall e v, nth_error idx' e = Some v ->
                nth_error idxw (List.length pre + S e) = Some v).
      { intros e v He. subst idxw. rewrite nth_error_app2 by lia.
        replace (List.length pre + S e - List.length pre)%nat with (S e)
          by lia. exact He. }
      assert (Hshiftr : forall e v, nth_error rows' e = Some v ->
                nth_error rowsw (List.length pre + S e) = Some v).
      { intros e v He. subst rowsw. rewrite nth_error_app2 by lia.
        replace (List.length pre + S e - List.length prer)%nat with (S e)
          by lia. exact He. }
      assert (Hhere : nth_error idxw (List.length pre) = Some k).
      { subst idxw. rewrite nth_error_app2 by lia.
        rewrite Nat.sub_diag. reflexivity. }
      destruct (IH _ _ _ _ Hrest ltac:(lia) d0 kd p Hd0 Hkd Hp')
        as [(d' & -> & Hh & Hhr & Hcase)|Hcase].
      - left. exists (List.length pre + S d')%nat.
        split; [subst dw; lia|]. split; [now apply Hshift|].
        split; [now apply Hshiftr|]. right. split; [lia|].
        destruct Hcase as [(-> & -> & Hne)|(Hlt' & d'' & q & -> & Hi & Hq & Hne)].
        + exists (List.length pre), p0. repeat split; auto; try lia.
          * replace (k + 1 - 1) with k by lia. exact Hhere.
          * replace (Z.to_nat (k + 1 - 1 - k)) with 0%nat by lia. reflexivity.
        + exists (List.length pre + S d'')%nat, q.
          repeat split; auto; try lia.
          replace (Z.to_nat (kd - 1 - k))
              with (S (Z.to_nat (kd - 1 - (k + 1)))) by lia. exact Hq.
      - right. right. split; [lia|].
        destruct Hcase as [(-> & -> & He)|(Hlt' & d' & q & -> & Hi & Hq & He)].
        + exists (List.length pre), p0. subst dw.
          repeat split; auto; try lia.
          * replace (k + 1 - 1) with k by lia. exact Hhere.
          * replace (Z.to_nat (k + 1 - 1 - k)) with 0%nat by lia. reflexivity.
        + exists (List.length pre + S d')%nat, q. subst dw.
          repeat split; auto; try lia.
          replace (Z.to_nat (kd - 1 - k))
              with (S (Z.to_nat (kd - 1 - (k + 1)))) by lia. exact Hq. }
    destruct Hshape as [(Hnew & -> & ->)|(Hnew & -> & ->)].
    + rewrite Hnew in Hrest.
      apply negb_true_iff, String.eqb_neq in Hnew.
      destruct d as [|[|d0]]; simpl in Hd.
      * injection Hd as <-. contradiction.
      * injection Hd as <-. rewrite Z.sub_diag in Hp. injection Hp as <-.
        left. exists 0%nat. repeat split; auto.
      * apply (Hstep [-1] [headerRow t off (orNA (Category p0))] d0 1%nat);
          auto.
        rewrite (proj2 (negb_true_iff _)); auto. now apply String.eqb_neq.
    + apply negb_false_iff, String.eqb_eq in Hnew.
      destruct d as [|d0]; simpl in Hd.
      * injection Hd as <-. rewrite Z.sub_diag in Hp. injection Hp as <-.
        right. left. auto.
      * apply (Hstep [] [] d0 0%nat); auto.
        rewrite Hnew, String.eqb_refl. reflexivity.
Qed.

Lemma tableRows_header_next t off : forall sorted last k rows idx,
  tableRows t off sorted last k = Ok (rows, idx) -> 0 <= k ->
  forall d, nth_error idx d = Some (-1) ->
  exists kd, nth_error idx (S d) = Some kd /\ kd <> -1.
Proof.
  induction sorted as [|p rest IH]; intros last k rows idx H Hk d Hd.
  - injection H as <- <-. destruct d; discriminate.
  - apply tableRows_cons in H.
    destruct H as (row & rows' & idx' & _ & Hrest & Hshape).
    destruct Hshape as [(_ & _ & ->)|(_ & _ & ->)].
    + destruct d as [|[|d]]; simpl in Hd |- *.
      * exists k. split; [reflexivity|lia].
      * injection Hd as Hd. lia.
      * eapply IH; eauto. lia.
    + destruct d as [|d]; simpl in Hd |- *.
      * injection Hd as Hd. lia.
      * eapply IH; eauto. lia.
Qed.

Lemma tableRows_header_count t off : forall sorted last k rows idx,
  tableRows t off sorted last k = Ok (rows, idx) -> 0 <= k ->
  (count_occ Z.eq_dec idx (-1)%Z <= List.length sorted)%nat /\
  (List.length idx
   = List.length sorted + count_occ Z.eq_dec idx (-1)%Z)%nat.
Proof.
  induction sorted as [|p rest IH]; intros last k rows idx H Hk.
  - injection H as <- <-. simpl. lia.
  - apply tableRows_cons in H.
    destruct H as (row & rows' & idx' & _ & Hrest & Hshape).
    apply IH in Hrest; [|lia].
    destruct Hshape as [(_ & _ & ->)|(_ & _ & ->)]; cbn [count_occ List.length];
      destruct (Z.eq_dec k (-1)); try lia;
      destruct (Z.eq_dec (-1) (-1)); try lia.
Qed.

Lemma tableRows_first t off p rest k rows idx :
  tableRows t off (p :: rest) "" k = Ok (rows, idx) ->
  exists idx', idx = (-1) :: k :: idx'.
Proof.
  intros H. apply tableRows_cons in H.
  destruct H as (row & rows' & idx' & _ & _ & Hshape).
  destruct Hshape as [(_ & _ & ->)|(Hnew & _ & _)]; eauto.
  apply negb_false_iff, String.eqb_eq in Hnew.
  now apply orNA_not_empty in Hnew.
Qed.

Lemma getSortedProjects_length m :
  List.length (getSortedProjects m) = List.length (projects m).
Proof. symmetry. apply Permutation_length, getSortedProjects_perm. Qed.

Lemma index_succ {A : Type} (s : list A) (d : nat) v :
  nth_error s d = Some v -> index s (Z.of_nat d) = Ok v.
Proof. intros H. apply index_Ok. split; [lia|]. now rewrite Nat2Z.id. Qed.

Lemma index_nat {A : Type} (s : list A) (d : Z) v :
  index s d = Ok v -> exists n, d = Z.of_nat n /\ nth_error s n = Some v.
Proof.
  intros H. apply index_Ok in H. destruct H as [Hd H].
  exists (Z.to_nat d). split; [lia|exact H].
Qed.

(** X1.  The index map is as long as the rows.  It holds one entry per record,
    the places [0], [1], ... of the sorted copy in this order, and one
    mark per header; there are no more headers than records. *)
Theorem projection_has_a_row_per_record m m' :
  updateTable m = Ok m' ->
  List.length (table.rows (table m')) = List.length (projectIndices m') /\
  filter (fun e => negb (e =? -1)) (projectIndices m')
  = map Z.of_nat (seq 0 (List.length (projects m))) /\
  (List.length (projectIndices m')
   = List.length (projects m) + headerCount m')%nat /\
  (headerCount m' <= List.length (projects m))%nat.
Proof.
  intros Hup.
  destruct (updateTable_inv _ _ Hup) as (Hrows & _).
  pose proof (tableRows_lengths _ _ _ _ _ _ _ Hrows) as Hlen.
  pose proof (tableRows_records _ _ _ _ _ _ _ Hrows ltac:(lia)) as Hrec.
  pose proof (tableRows_header_count _ _ _ _ _ _ _ Hrows ltac:(lia)) as Hcnt.
  rewrite getSortedProjects_length in Hrec, Hcnt.
  unfold headerCount. repeat split; auto; try apply Hcnt.
Qed.

Lemma projection_has_a_row_per_record_witness :
  exists m', updateTable (initModel "cfg" mixedCaseCatalog) = Ok m' /\
    List.length (table.rows (table m')) = 6%nat /\
    filter (fun e => negb (e =? -1)) (projectIndices m') = [0; 1; 2].
Proof.
  destruct (updateTable (initModel "cfg" mixedCaseCatalog)) as [m'|] eqn:Hup;
    [|vm_compute in Hup; discriminate].
  exists m'. split; [reflexivity|].
  destruct (projection_has_a_row_per_record _ _ Hup) as (Hl & Hf & Hn & _).
  split; [|exact Hf].
  rewrite Hl, Hn. vm_compute in Hup. injection Hup as <-. reflexivity.
Defined.

(** X2.  The projection of a catalog with records begins with a header row
    followed by the first record of the sorted copy; every header row is
    followed by a record row. *)
Theorem projection_starts_with_header m m' :
  updateTable m = Ok m' -> projects m <> [] ->
  headerAt m' 0 /\ index (projectIndices m') 1 = Ok 0 /\
  forall d, headerAt m' d -> recordRow m' (d + 1).
Proof.
  intros Hup Hne.
  destruct (updateTable_inv _ _ Hup) as (Hrows & _).
  assert (Hfirst : exists idx', projectIndices m' = (-1) :: 0 :: idx').
  { destruct (getSortedProjects m) as [|p rest] eqn:Hs.
    - pose proof (getSortedProjects_length m) as Hl. rewrite Hs in Hl.
      destruct (projects m); [congruence|discriminate].
    - eapply tableRows_first, Hrows. }
  destruct Hfirst as [idx' Hidx].
  unfold headerAt. rewrite Hidx. repeat split; auto.
  rewrite <- Hidx. intros d Hd.
  apply index_nat in Hd. destruct Hd as (n & -> & Hn).
  destruct (tableRows_header_next _ _ _ _ _ _ _ Hrows ltac:(lia) n Hn)
    as (kd & Hkd & Hne').
  exists kd. split; auto.
  replace (Z.of_nat n + 1) with (Z.of_nat (S n)) by lia.
  now apply index_succ.
Qed.

Lemma projection_starts_with_header_witness :
  exists m', updateTable (initModel "cfg" oneCatalog) = Ok m' /\
    headerAt m' 0 /\ recordRow m' 1.
Proof.
  destruct (updateTable (initModel "cfg" oneCatalog)) as [m'|] eqn:Hup;
    [|vm_compute in Hup; discriminate].
  exists m'. split; [reflexivity|].
  destruct (projection_starts_with_header _ _ Hup) as (H0 & _ & Hnext).
  - discriminate.
  - split; [exact H0|]. apply (Hnext 0 H0).
Defined.

(** A record entry of a rebuilt index map, as a record shown. *)
Lemma shownAt_entry m m' n kd :
  updateTable m = Ok m' ->
  nth_error (projectIndices m') n = Some kd -> kd <> -1 ->
  exists p, nth_error (getSortedProjects m) (Z.to_nat kd) = Some p /\
            0 <= kd /\ shownAt m' (Z.of_nat n) p.
Proof.
  intros Hup Hn Hkd.
  destruct (updateTable_inv _ _ Hup) as (Hrows & Hps & Hoff & Hcols & Hsorted).
  destruct (tableRows_entries _ _ _ _ _ _ _ Hrows ltac:(lia) _ _ Hn Hkd)
    as (Hr & p & row & Hp & Hrow & Hpr).
  rewrite Z.sub_0_r in Hp. exists p. split; auto. split; [lia|].
  exists kd, row. repeat split.
  - now apply index_succ.
  - rewrite Hsorted. apply index_Ok. split; [lia|auto].
  - now apply index_succ.
  - rewrite Hoff, (projectRow_cols (table m)); auto.
Qed.

Lemma shownAt_place m m' d p :
  updateTable m = Ok m' -> shownAt m' d p ->
  exists n kd, d = Z.of_nat n /\
    nth_error (projectIndices m') n = Some kd /\ 0 <= kd /\
    nth_error (getSortedProjects m) (Z.to_nat kd) = Some p.
Proof.
  intros Hup (k & row & Hk & Hp & _).
  destruct (updateTable_inv _ _ Hup) as (_ & _ & _ & _ & Hsorted).
  rewrite Hsorted in Hp.
  apply index_nat in Hk. destruct Hk as (n & -> & Hn).
  apply index_Ok in Hp. destruct Hp as [Hk Hp].
  exists n, k. auto.
Qed.

(** The row before a record entry of a rebuilt index map: the header of
    the record's display category, itself first or after a record of
    another category, or a record of the same display category. *)
Lemma row_neighbours m m' :
  updateTable m = Ok m' ->
  forall n kd p,
    nth_error (projectIndices m') n = Some kd -> 0 <= kd ->
    nth_error (getSortedProjects m) (Z.to_nat kd) = Some p ->
    (exists n', n = S n' /\
       headerOf m' (Z.of_nat n') (orNA (Category p)) /\
       (n' = 0%nat \/
        exists n'' q, n' = S n'' /\ shownAt m' (Z.of_nat n'') q /\
          orNA (Category q) <> orNA (Category p))) \/
    (exists n' q, n = S n' /\ shownAt m' (Z.of_nat n') q /\
       orNA (Category q) = orNA (Category p)).
Proof.
  intros Hup.
  destruct (updateTable_inv _ _ Hup) as (Hrows & Hps & Hoff & Hcols & Hsorted).
  assert (Hhdr : forall n c,
            nth_error (projectIndices m') n = Some (-1) ->
            nth_error (table.rows (table m')) n
            = Some (headerRow (table m) (scrollOffset m) c) ->
            headerOf m' (Z.of_nat n) c).
  { intros n c Hi Hr. split; [now apply index_succ|].
    unfold headerRow, table.Columns. rewrite Hoff, Hcols.
    now apply index_succ. }
  intros n kd p Hn Hkd Hp.
  assert (Hq : forall n0 q,
            nth_error (projectIndices m') n0 = Some (kd - 1) -> 0 < kd ->
            nth_error (getSortedProjects m) (Z.to_nat (kd - 1 - 0)) = Some q ->
            shownAt m' (Z.of_nat n0) q).
  { intros n0 q Hn0 Hlt Hq.
    destruct (shownAt_entry _ _ _ _ Hup Hn0 ltac:(lia)) as (q' & Hq' & _ & Hs).
    rewrite Z.sub_0_r in Hq. congruence. }
  assert (Hp0 : nth_error (getSortedProjects m) (Z.to_nat (kd - 0))
                = Some p) by now rewrite Z.sub_0_r.
  destruct (tableRows_neighbours _ _ _ _ _ _ _ Hrows ltac:(lia)
              n kd p Hn ltac:(lia) Hp0)
    as [(n' & -> & Hh & Hhr & Hcase)|Hcase].
  - left. exists n'. split; auto. split; [now apply Hhdr|].
    destruct Hcase as [(_ & -> & _)|(Hlt & n'' & q & -> & Hi & Hq' & Hne)];
      auto.
    right. exists n'', q. repeat split; auto.
  - destruct Hcase as [(_ & _ & He)|(Hlt & n' & q & -> & Hi & Hq' & He)].
    + now apply orNA_not_empty in He.
    + right. exists n', q. repeat split; auto.
Qed.

(** A header row is the header of the record below it, and is the first
    row or follows a record of another display category. *)
Lemma header_over_record m m' :
  updateTable m = Ok m' ->
  forall d, headerAt m' d ->
    exists p, shownAt m' (d + 1) p /\
      headerOf m' d (orNA (Category p)) /\
      (d = 0 \/
       exists q, shownAt m' (d - 1) q /\
                 orNA (Category q) <> orNA (Category p)).
Proof.
  intros Hup d Hd.
  destruct (updateTable_inv _ _ Hup) as (Hrows & _).
  apply index_nat in Hd. destruct Hd as (n & -> & Hn).
  destruct (tableRows_header_next _ _ _ _ _ _ _ Hrows ltac:(lia) n Hn)
    as (kd & Hkd & Hne).
  destruct (shownAt_entry _ _ _ _ Hup Hkd Hne) as (p & Hp & Hk0 & Hs).
  exists p. replace (Z.of_nat n + 1) with (Z.of_nat (S n)) by lia.
  split; auto.
  destruct (row_neighbours _ _ Hup (S n) kd p Hkd Hk0 Hp)
    as [(n' & [= <-] & Hh & Hcase)|(n' & q & [= <-] & Hq & He)].
  + split; auto.
    destruct Hcase as [->|(n'' & q & -> & Hq & Hneq)]; [left; reflexivity|].
    right. exists q.
    replace (Z.of_nat (S n'') - 1) with (Z.of_nat n'') by lia. auto.
  + destruct Hq as (k & row & Hk & Hsq & _).
    apply index_Ok in Hk. destruct Hk as [_ Hk].
    rewrite Nat2Z.id in Hk. rewrite Hn in Hk. injection Hk as <-.
    apply index_range in Hsq. lia.
Qed.

(** X3.  The groups of the projection.  The row before a record row is the
    header of the record's display category, or a record row of the same
    display category.  A header row is the header of the record below it,
    and is the first row or follows a record of another display category. *)
Theorem rows_sit_under_their_header m m' :
  updateTable m = Ok m' ->
  (forall d p, shownAt m' d p ->
     headerOf m' (d - 1) (orNA (Category p)) \/
     exists q, shownAt m' (d - 1) q /\
               orNA (Category q) = orNA (Category p)) /\
  (forall d, headerAt m' d ->
     exists p, shownAt m' (d + 1) p /\
       headerOf m' d (orNA (Category p)) /\
       (d = 0 \/
        exists q, shownAt m' (d - 1) q /\
                  orNA (Category q) <> orNA (Category p))).
Proof.
  intros Hup. split; [|exact (header_over_record _ _ Hup)].
  intros d p Hs.
  destruct (shownAt_place _ _ _ _ Hup Hs) as (n & kd & -> & Hn & Hkd & Hp).
  destruct (row_neighbours _ _ Hup n kd p Hn Hkd Hp)
    as [(n' & -> & Hh & _)|(n' & q & -> & Hq & He)].
  + left. replace (Z.of_nat (S n') - 1) with (Z.of_nat n') by lia. auto.
  + right. exists q.
    replace (Z.of_nat (S n') - 1) with (Z.of_nat n') by lia. auto.
Qed.

Lemma rows_sit_under_their_header_witness :
  exists m', updateTable (initModel "cfg" scenarioCatalog) = Ok m' /\
    headerOf m' 2 "Web" /\
    exists q, shownAt m' 3 q /\ Name q = "Alpha".
Proof.
  destruct (updateTable (initModel "cfg" scenarioCatalog)) as [m'|] eqn:Hup;
    [|vm_compute in Hup; discriminate].
  exists m'. split; [reflexivity|].
  destruct (rows_sit_under_their_header _ _ Hup) as [Hrec Hhdr].
  assert (Hz : shownAt m' 4 (project "Zeta" "Web")).
  { vm_compute in Hup. injection Hup as <-.
    exists 2. eexists. repeat split; vm_compute; reflexivity. }
  destruct (Hrec 4 _ Hz) as [(Hi & _)|(q & Hq & Hc)].
  - vm_compute in Hup. injection Hup as <-. vm_compute in Hi. discriminate.
  - assert (Hq' := Hq). destruct Hq' as (k & row & Hk & Hs & _).
    assert (Hname : Name q = "Alpha").
    { vm_compute in Hup. injection Hup as <-.
      vm_compute in Hk. injection Hk as <-.
      vm_compute in Hs. injection Hs as <-. reflexivity. }
    destruct (Hrec 3 _ Hq) as [Hh|(q2 & Hq2 & _)].
    + split; [|exists q; split; [exact Hq|exact Hname]].
      rewrite Hc in Hh. exact Hh.
    + destruct Hq2 as (k2 & row2 & Hk2 & Hs2 & _).
      vm_compute in Hup. injection Hup as <-.
      vm_compute in Hk2. injection Hk2 as <-.
      vm_compute in Hs2. discriminate.
Defined.

Lemma skipn_nth_error {A : Type} : forall (s : list A) k v,
  nth_error s k = Some v -> skipn k s = v :: skipn (S k) s.
Proof.
  induction s as [|h s IH]; intros [|k] v H; simpl in *; try discriminate.
  - now injection H as ->.
  - now apply IH.
Qed.

(** The loop that copies cells copies a window of the slice. *)
Lemma collect_window {A : Type} (s : list A) : forall n i out,
  collect s i n = Ok out -> out = firstn n (skipn (Z.to_nat i) s).
Proof.
  induction n as [|n IH]; intros i out H; cbn [collect] in H.
  - injection H as <-. reflexivity.
  - destruct (index s i) as [v|] eqn:Hv; [|discriminate]. cbn [bind] in H.
    destruct (collect s (i + 1) n) as [rest|] eqn:Hrest; [|discriminate].
    cbn [bind] in H. injection H as <-.
    apply IH in Hrest. apply index_Ok in Hv. destruct Hv as [Hi Hv].
    rewrite (skipn_nth_error _ _ _ Hv). cbn [firstn]. f_equal.
    rewrite Hrest. f_equal. f_equal. lia.
Qed.

Lemma projectRow_window t off p row :
  projectRow t off p = Ok row ->
  row = firstn (List.length (table.Columns t))
          (skipn (Z.to_nat off) (fullRow p)).
Proof.
  unfold projectRow. intros H. apply collect_window in H. subst row.
  unfold turns, len. set (s := fullRow p). set (c := table.Columns t).
  assert (Hs : List.length s = 5%nat) by reflexivity.
  assert (Hsk : (List.length (skipn (Z.to_nat off) s)
                 = 5 - Z.to_nat off)%nat) by (rewrite length_skipn; lia).
  rewrite Hs.
  destruct (Z.gtb_spec (off + Z.of_nat (List.length c)) (Z.of_nat 5)).
  - rewrite !firstn_all2; auto; lia.
  - f_equal. lia.
Qed.

Lemma headerCells_length c off : forall n i,
  List.length (headerCells c off i n) = n.
Proof. induction n; intros i; simpl; auto. Qed.

Lemma headerCells_blank c off : forall n i,
  0 < off + i -> headerCells c off i n = repeat "" n.
Proof.
  induction n as [|n IH]; intros i Hi; cbn [headerCells repeat]; auto.
  destruct (Z.eqb_spec (off + i) 0); [lia|]. f_equal. apply IH. lia.
Qed.

(** X4.  What the rows hold.  A record row holds the cells name, path,
    command, display category, link of its record, from the scroll offset
    on, as many as there are columns.  A header row has a cell per
    column: when the columns are not scrolled and there is one, the first
    cell is the folder mark and the display category of the record below;
    once they are scrolled, every cell is empty. *)
Theorem rows_hold_the_visible_cells m m' :
  updateTable m = Ok m' ->
  (forall d p row, shownAt m' d p ->
     index (table.rows (table m')) d = Ok row ->
     row = firstn (List.length (table.Columns (table m')))
             (skipn (Z.to_nat (scrollOffset m')) (fullRow p))) /\
  (forall d, headerAt m' d ->
     exists p row, shownAt m' (d + 1) p /\
       index (table.rows (table m')) d = Ok row /\
       List.length row = List.length (table.Columns (table m')) /\
       (scrollOffset m' = 0 -> table.Columns (table m') <> [] ->
        hd "" row = "📂 " ++ orNA (Category p)) /\
       (0 < scrollOffset m' ->
        row = repeat "" (List.length (table.Columns (table m'))))).
Proof.
  intros Hup. split.
  - intros d p row (k & row' & _ & _ & Hrow' & Hpr) Hrow.
    rewrite Hrow in Hrow'. injection Hrow' as <-.
    now apply projectRow_window.
  - intros d Hd.
    destruct (header_over_record _ _ Hup d Hd) as (p & Hs & (_ & Hrow) & _).
    exists p, (headerRow (table m') (scrollOffset m') (orNA (Category p))).
    split; auto. split; auto. unfold headerRow.
    split; [apply headerCells_length|]. split.
    + intros -> Hcols. destruct (table.Columns (table m')); [congruence|].
      cbn. now rewrite append_nil_r.
    + intros Hoff. apply headerCells_blank. lia.
Qed.

Lemma rows_hold_the_visible_cells_witness :
  exists m1 m2,
    scrollRight (initModel "cfg" oneCatalog) = Ok m1 /\
    scrollOffset m1 = 1 /\
    updateTable m1 = Ok m2 /\
    table.rows (table m2)
    = [[""; ""]; ["/srv/api"; "make run"]].
Proof.
  destruct (scrollRight (initModel "cfg" oneCatalog)) as [m1|] eqn:H1;
    [|vm_compute in H1; discriminate].
  destruct (updateTable m1) as [m2|] eqn:H2;
    [|vm_compute in H1; injection H1 as <-; vm_compute in H2; discriminate].
  exists m1, m2. split; [reflexivity|].
  assert (Hoff : scrollOffset m1 = 1)
    by (vm_compute in H1; injection H1 as <-; reflexivity).
  split; [exact Hoff|]. split; [exact H2|].
  destruct (rows_hold_the_visible_cells _ _ H2) as [_ Hhdr].
  assert (H0 : headerAt m2 0).
  { vm_compute in H1. injection H1 as <-. vm_compute in H2.
    injection H2 as <-. reflexivity. }
  destruct (Hhdr 0 H0) as (p & row & _ & Hrow & _ & _ & Hblank).
  vm_compute in H1. injection H1 as <-. vm_compute in H2.
  injection H2 as <-. reflexivity.
Defined.

(* ===================================================================== *)
(** * More on the lookups *)
(* ===================================================================== *)

Lemma findOriginal_range : forall ps sp k,
  findOriginal ps sp k = -1 \/
  (k <= findOriginal ps sp k < k + len ps /\
   exists p, nth_error ps (Z.to_nat (findOriginal ps sp k - k)) = Some p /\
             identity p = identity sp).
Proof.
  induction ps as [|h ps IH]; intros sp k; cbn [findOriginal]; auto.
  rewrite len_cons. destruct (sameIdentity h sp) eqn:Hs.
  - right. split; [unfold len; lia|]. exists h. rewrite Z.sub_diag.
    split; auto. now apply sameIdentity_eq.
  - destruct (IH sp (k + 1)) as [->|(Hr & p & Hp & Hid)]; auto.
    right. split; [lia|]. exists p. split; auto.
    replace (Z.to_nat (findOriginal ps sp (k + 1) - k))
      with (S (Z.to_nat (findOriginal ps sp (k + 1) - (k + 1)))) by lia.
    exact Hp.
Qed.

Lemma updateTable_indexMapOk m m' : updateTable m = Ok m' -> indexMapOk m'.
Proof.
  intros Hup. destruct (updateTable_inv _ _ Hup) as (Hrows & _).
  apply Forall_forall. intros k Hin. apply In_nth_error in Hin.
  destruct Hin as [d Hd]. destruct (Z.eq_dec k (-1)) as [->|Hne]; [lia|].
  destruct (tableRows_entries _ _ _ _ _ _ _ Hrows ltac:(lia) _ _ Hd Hne).
  lia.
Qed.

(** The cases of the two lookups at a display index. *)
Lemma lookup_cases m :
  indexMapOk m -> forall d,
  (getOriginalIndexByDisplayIndex m d = Ok (-1) /\
   getProjectByDisplayIndex m d = Ok None) \/
  (exists i p,
     getOriginalIndexByDisplayIndex m d = Ok i /\
     getProjectByDisplayIndex m d = Ok (Some p) /\
     0 <= i < len (projects m) /\ index (projects m) i = Ok p /\
     recordRow m d).
Proof.
  intros Hok d.
  unfold getOriginalIndexByDisplayIndex, getProjectByDisplayIndex.
  destruct ((d <? 0) || (d >=? len (projectIndices m))) eqn:Hout; auto.
  apply orb_false_iff in Hout. destruct Hout as [H0 Hlen].
  apply Z.ltb_ge in H0. rewrite Z.geb_leb in Hlen. apply Z.leb_gt in Hlen.
  destruct (index_total (projectIndices m) d ltac:(lia)) as [k Hk].
  rewrite Hk. cbn [bind].
  destruct (Z.eqb_spec k (-1)) as [->|Hne]; auto.
  assert (Hk1 : -1 <= k).
  { unfold indexMapOk in Hok. rewrite Forall_forall in Hok. apply Hok.
    destruct (proj1 (index_Ok _ _ _) Hk) as [_ Hk'].
    eapply nth_error_In, Hk'. }
  destruct (Z.geb_spec k (len (getSortedProjects m))); auto.
  destruct (index_total (getSortedProjects m) k ltac:(lia)) as [sp Hsp].
  rewrite Hsp. cbn [bind].
  assert (Hin : In sp (projects m)).
  { eapply Permutation_in; [apply Permutation_sym, getSortedProjects_perm|].
    destruct (proj1 (index_Ok _ _ _) Hsp) as [_ Hsp'].
    eapply nth_error_In, Hsp'. }
  destruct (findOriginal_found (projects m) sp 0
              (ex_intro _ sp (conj Hin eq_refl))) as (Hr & p & Hp & Hid).
  rewrite Z.sub_0_r in Hp.
  assert (Hip : index (projects m) (findOriginal (projects m) sp 0) = Ok p)
    by (apply index_Ok; split; [lia|exact Hp]).
  right. exists (findOriginal (projects m) sp 0), p.
  destruct (Z.eqb_spec (findOriginal (projects m) sp 0) (-1)); [lia|].
  rewrite Hip. cbn [bind]. repeat split; auto; try lia.
  exists k. auto.
Qed.

(** X5.  The two lookups agree and neither panics, however stale the index
    map.  At every display index the index lookup returns [-1] or an
    index inside the catalog, and the record lookup returns [nil] in the
    first case and the record at that index in the second; an index is
    returned on record rows only. *)
Theorem lookups_agree m :
  indexMapOk m -> forall d,
  exists i,
    getOriginalIndexByDisplayIndex m d = Ok i /\
    -1 <= i < len (projects m) /\
    getProjectByDisplayIndex m d
    = Ok (if i =? -1 then None else nth_error (projects m) (Z.to_nat i)) /\
    (i <> -1 -> recordRow m d).
Proof.
  intros Hok d.
  destruct (lookup_cases m Hok d)
    as [[Hl Hg]|(i & p & Hl & Hg & Hi & Hp & Hrow)].
  - exists (-1). split; [exact Hl|]. split; [unfold len; lia|].
    split; [exact Hg|]. congruence.
  - exists i. split; [exact Hl|]. split; [lia|]. split; [|auto].
    destruct (Z.eqb_spec i (-1)); [lia|].
    destruct (proj1 (index_Ok _ _ _) Hp) as [_ ->]. exact Hg.
Qed.

Lemma lookups_agree_witness :
  getOriginalIndexByDisplayIndex selectedModel 1 = Ok 2 /\
  getProjectByDisplayIndex selectedModel 1 = Ok (Some (project "Beta" "")) /\
  recordRow selectedModel 1.
Proof.
  assert (Hok : indexMapOk selectedModel)
    by (vm_compute; repeat constructor; discriminate).
  destruct (lookups_agree selectedModel Hok 1) as (i & Hl & _ & Hg & Hrow).
  assert (Hi : i = 2).
  { assert (Hc : getOriginalIndexByDisplayIndex selectedModel 1 = Ok 2)
      by (vm_compute; reflexivity).
    congruence. }
  subst i. split; [exact Hl|]. split; [exact Hg|].
  apply Hrow. discriminate.
Defined.

(* ===================================================================== *)
(** * More on the layout *)
(* ===================================================================== *)

Lemma usedWidthOf_from (columns : list table.Column) : forall acc,
  fold_left (fun usedWidth col => usedWidth + table.Width col) columns acc
  = acc + usedWidthOf columns.
Proof.
  unfold usedWidthOf. induction columns as [|col rest IH]; intros acc;
    cbn [fold_left]; [lia|].
  rewrite IH, (IH (0 + table.Width col)). lia.
Qed.

Lemma usedWidthOf_cons col rest :
  usedWidthOf (col :: rest) = table.Width col + usedWidthOf rest.
Proof.
  unfold usedWidthOf at 1. cbn [fold_left]. rewrite usedWidthOf_from. lia.
Qed.

Lemma usedWidthOf_widenLast : forall columns extraWidth,
  columns <> [] ->
  usedWidthOf (widenLast columns extraWidth)
  = usedWidthOf columns + extraWidth.
Proof.
  induction columns as [|col [|col' rest] IH]; intros extra Hne;
    [congruence| |].
  - cbn [widenLast]. rewrite !usedWidthOf_cons. cbn. unfold usedWidthOf.
    cbn. lia.
  - change (widenLast (col :: col' :: rest) extra)
      with (col :: widenLast (col' :: rest) extra).
    rewrite !(usedWidthOf_cons col). rewrite IH by discriminate. lia.
Qed.

Lemma widenLast_titles : forall columns extraWidth,
  map table.Title (widenLast columns extraWidth) = map table.Title columns.
Proof.
  induction columns as [|col [|col' rest] IH]; intros extra; auto.
  change (widenLast (col :: col' :: rest) extra)
    with (col :: widenLast (col' :: rest) extra).
  cbn [map]. f_equal. apply (IH extra).
Qed.

(** The columns that the first loop counts fit the available width. *)
Lemma fitColumns_fits : forall columns availableWidth totalWidth visibleCols,
  0 <= visibleCols ->
  let r := fitColumns columns availableWidth totalWidth visibleCols in
  fst r = totalWidth
          + usedWidthOf (firstn (Z.to_nat (snd r - visibleCols)) columns) /\
  (visibleCols < snd r -> fst r <= availableWidth).
Proof.
  induction columns as [|col rest IH]; intros avail tw v Hv; cbn [fitColumns].
  - cbn. rewrite firstn_nil. unfold usedWidthOf. cbn. lia.
  - destruct (Z.leb_spec (tw + table.Width col) avail) as [Hle|Hgt].
    + pose proof (fitColumns_count rest avail (tw + table.Width col) (v + 1))
        as Hc.
      destruct (IH avail (tw + table.Width col) (v + 1) ltac:(lia))
        as [Hsum Hfit].
      set (r := fitColumns rest avail (tw + table.Width col) (v + 1)) in *.
      cbv zeta. split.
      * replace (Z.to_nat (snd r - v)) with (S (Z.to_nat (snd r - (v + 1))))
          by lia.
        cbn [firstn]. rewrite usedWidthOf_cons, Hsum. lia.
      * intros _. destruct (Z.eq_dec (snd r) (v + 1)) as [He|Hne].
        -- rewrite Hsum, He.
           replace (Z.to_nat (v + 1 - (v + 1))) with 0%nat by lia.
           cbn. unfold usedWidthOf. cbn. lia.
        -- apply Hfit. lia.
    + cbn. rewrite Z.sub_diag. cbn. unfold usedWidthOf. cbn. lia.
Qed.

(** [adjustLayout], in closed form: the count [v] of columns and the
    window they make at the clamped offset. *)
Lemma adjustLayout_closed m :
  0 <= scrollOffset m ->
  exists v columns out extra,
    (v, columns)
    = (if snd (fitColumns allColumns (width m - 6) 0 0) =? 0
       then (1, setFirstWidth allColumns (width m - 6))
       else (snd (fitColumns allColumns (width m - 6) 0 0), allColumns)) /\
    1 <= v <= 5 /\ List.length columns = 5%nat /\
    out = firstn (Z.to_nat v)
            (skipn (Z.to_nat (Z.min (scrollOffset m) (5 - v))) columns) /\
    List.length out = Z.to_nat v /\
    extra = width m - 6 - usedWidthOf out /\
    adjustLayout m
    = Ok (set_maxCols
            (set_table
               (if scrollOffset m + v >? 5
                then set_scrollOffset m (5 - v) else m)
               (table.SetHeight
                  (table.SetColumns (table m)
                     (if extra >? 0 then widenLast out extra else out))
                  (if height m - 6 <? 5 then 5 else height m - 6)))
            5).
Proof.
  intros Hoff. unfold adjustLayout.
  pose proof (fitColumns_count allColumns (width m - 6) 0 0) as Hfit.
  destruct (fitColumns allColumns (width m - 6) 0 0) as [tw v0].
  cbn [snd] in *. change (len allColumns) with 5 in Hfit.
  set (vc := if v0 =? 0 then _ else _).
  assert (Hvc : 1 <= fst vc <= 5 /\ List.length (snd vc) = 5%nat).
  { subst vc. destruct (Z.eqb_spec v0 0); cbn [fst snd];
      (split; [lia|reflexivity]). }
  destruct vc as [v columns] eqn:Hvceq. cbn [fst snd] in Hvc.
  destruct Hvc as [Hv Hlen].
  assert (Hlen' : len columns = 5) by (unfold len; lia).
  exists v, columns.
  set (off' := Z.min (scrollOffset m) (5 - v)).
  set (out := firstn (Z.to_nat v) (skipn (Z.to_nat off') columns)).
  assert (Hout : List.length out = Z.to_nat v).
  { subst out. rewrite length_firstn, length_skipn. lia. }
  exists out, (width m - 6 - usedWidthOf out).
  split; [reflexivity|]. repeat (split; [auto; lia|]).
  rewrite Hlen'.
  assert (Hcollect : forall startCol endCol,
            startCol = off' -> Z.min endCol 5 - startCol = v ->
            collect columns startCol (turns columns startCol endCol)
            = Ok out).
  { intros startCol endCol -> Hn. unfold turns. rewrite Hlen', Hn.
    destruct (collect_total columns (Z.to_nat v) off'
                ltac:(lia) ltac:(lia)) as (o & Ho & _).
    rewrite Ho. f_equal. now apply collect_window in Ho. }
  assert (Hpos : (len out >? 0) = true).
  { unfold len. rewrite Hout. apply Z.gtb_lt. lia. }
  destruct (Z.gtb_spec (scrollOffset m + v) 5) as [Hover|Hin].
  - destruct (Z.ltb_spec (5 - v) 0); [lia|].
    rewrite (Hcollect (5 - v) 5) by lia.
    cbn [bind]. rewrite Hpos. reflexivity.
  - rewrite (Hcollect (scrollOffset m) (scrollOffset m + v)) by lia.
    cbn [bind]. rewrite Hpos. reflexivity.
Qed.

Lemma setFirstWidth_titles columns w :
  map table.Title (setFirstWidth columns w) = map table.Title columns.
Proof. destruct columns; reflexivity. Qed.

Lemma clamped_offset m v :
  scrollOffset (if scrollOffset m + v >? 5
                then set_scrollOffset m (5 - v) else m)
  = Z.min (scrollOffset m) (5 - v).
Proof.
  destruct (Z.gtb_spec (scrollOffset m + v) 5);
    unfold set_scrollOffset; cbn [scrollOffset]; lia.
Qed.

(** X6.  The window of columns.  When [adjustLayout] returns from a scroll
    offset that is not negative, it shows between one and five columns,
    a window of Name, Path, Command, Category, Link that begins at the
    scroll offset; the offset is lowered, when needed, so that the window
    ends inside the five columns.  The catalog, the rows and the cursor
    are as they were. *)
Theorem layout_window_stays_inside m m' :
  0 <= scrollOffset m ->
  adjustLayout m = Ok m' ->
  1 <= len (table.Columns (table m')) <= 5 /\
  scrollOffset m'
  = Z.min (scrollOffset m) (5 - len (table.Columns (table m'))) /\
  0 <= scrollOffset m' /\
  scrollOffset m' + len (table.Columns (table m')) <= maxCols m' /\
  maxCols m' = 5 /\
  map table.Title (table.Columns (table m'))
  = firstn (List.length (table.Columns (table m')))
      (skipn (Z.to_nat (scrollOffset m'))
         ["Name"; "Path"; "Command"; "Category"; "Link"]) /\
  projects m' = projects m /\
  table.rows (table m') = table.rows (table m) /\
  table.cursor (table m') = table.cursor (table m).
Proof.
  intros Hoff Hrun.
  destruct (adjustLayout_closed m Hoff)
    as (v & columns & out & extra & Hvc & Hv & Hlen & Hout & Hn & Hex & Heq).
  rewrite Heq in Hrun. apply Ok_inj in Hrun. subst m'.
  assert (Htitles : map table.Title columns
                    = ["Name"; "Path"; "Command"; "Category"; "Link"]).
  { destruct (_ =? 0); injection Hvc as _ ->; reflexivity. }
  assert (Hcols : List.length (if extra >? 0 then widenLast out extra else out)
                  = Z.to_nat v).
  { destruct (extra >? 0); rewrite ?widenLast_length; exact Hn. }
  assert (Hmap : map table.Title (if extra >? 0 then widenLast out extra else out)
                 = map table.Title out).
  { destruct (extra >? 0); rewrite ?widenLast_titles; reflexivity. }
  assert (Hlenv : len (if extra >? 0 then widenLast out extra else out) = v)
    by (unfold len; rewrite Hcols; lia).
  pose proof (clamped_offset m v) as Hoff'.
  set (m1 := if scrollOffset m + v >? 5
             then set_scrollOffset m (5 - v) else m) in *.
  assert (Hkeep : projects m1 = projects m)
    by (subst m1; destruct (_ >? 5); reflexivity).
  unfold table.Columns, set_maxCols, set_table, table.SetHeight,
    table.SetColumns.
  cbn [table table.cols table.rows table.cursor table.height scrollOffset
       maxCols projects].
  rewrite Hlenv, Hcols, Hmap, Hoff'.
  repeat split; try lia; auto.
  rewrite Hout, <- firstn_map, <- skipn_map, Htitles. reflexivity.
Qed.

Lemma layout_window_stays_inside_witness :
  exists m',
    adjustLayout (set_scrollOffset (set_width (initModel "cfg" []) 80) 4)
    = Ok m' /\
    len (table.Columns (table m')) = 2 /\
    scrollOffset m' = 3 /\
    map table.Title (table.Columns (table m')) = ["Category"; "Link"].
Proof.
  assert (Hoff : 0 <= scrollOffset
                        (set_scrollOffset (set_width (initModel "cfg" []) 80) 4))
    by (cbn; lia).
  destruct (adjustLayout
              (set_scrollOffset (set_width (initModel "cfg" []) 80) 4))
    as [m'|] eqn:Heq; [|vm_compute in Heq; discriminate].
  destruct (layout_window_stays_inside _ m' Hoff Heq)
    as (_ & Hoff' & _ & _ & _ & Ht & _).
  assert (Hlen : len (table.Columns (table m')) = 2).
  { clear Hoff' Ht. vm_compute in Heq. injection Heq as <-. reflexivity. }
  exists m'. split; [reflexivity|]. split; [exact Hlen|].
  rewrite Ht, Hoff', Hlen.
  assert (Hn : List.length (table.Columns (table m')) = 2%nat)
    by (unfold len in Hlen; lia).
  rewrite Hn. split; reflexivity.
Defined.

(** X7.  The widths, in a pane whose width is not negative.  When
    [adjustLayout] returns, the columns shown are never narrower, taken
    together, than the available width, the pane less six; when the
    columns are not scrolled they take up exactly the available width. *)
Theorem layout_fills_the_pane m m' :
  0 <= scrollOffset m -> 0 <= width m ->
  adjustLayout m = Ok m' ->
  width m - 6 <= usedWidthOf (table.Columns (table m')) /\
  (scrollOffset m' = 0 ->
   usedWidthOf (table.Columns (table m')) = width m - 6).
Proof.
  intros Hoff _ Hrun.
  destruct (adjustLayout_closed m Hoff)
    as (v & columns & out & extra & Hvc & Hv & Hlen & Hout & Hn & Hex & Heq).
  rewrite Heq in Hrun. apply Ok_inj in Hrun. subst m'.
  assert (Hne : out <> []) by (destruct out; [simpl in Hn; lia|discriminate]).
  pose proof (clamped_offset m v) as Hoff'.
  assert (Hused : usedWidthOf (if extra >? 0 then widenLast out extra else out)
                  = Z.max (usedWidthOf out) (width m - 6)).
  { destruct (Z.gtb_spec extra 0).
    - rewrite usedWidthOf_widenLast by auto. lia.
    - lia. }
  assert (Hcols : forall mm t h,
            table.Columns (table (set_maxCols (set_table mm
              (table.SetHeight (table.SetColumns t
                 (if extra >? 0 then widenLast out extra else out)) h)) 5))
            = (if extra >? 0 then widenLast out extra else out))
    by reflexivity.
  rewrite Hcols, Hused. split; [lia|].
  assert (Hoffm : forall mm t h,
            scrollOffset (set_maxCols (set_table mm t) h) = scrollOffset mm)
    by reflexivity.
  rewrite Hoffm, Hoff'. intros H0.
  assert (Hfirst : out = firstn (Z.to_nat v) columns).
  { rewrite Hout, H0. reflexivity. }
  enough (usedWidthOf out <= width m - 6) by lia.
  pose proof (fitColumns_fits allColumns (width m - 6) 0 0 ltac:(lia)) as Hf.
  pose proof (fitColumns_count allColumns (width m - 6) 0 0) as Hc.
  cbv zeta in Hf. destruct Hf as [Hsum Hfit].
  remember (fitColumns allColumns (width m - 6) 0 0) as r eqn:Hr. clear Hr.
  destruct (Z.eqb_spec (snd r) 0) as [Hz|Hnz]; injection Hvc as -> ->.
  - rewrite Hfirst. change (Z.to_nat 1) with 1%nat.
    unfold usedWidthOf. cbn. lia.
  - rewrite Hfirst. rewrite Z.sub_0_r in Hsum. lia.
Qed.

Lemma layout_fills_the_pane_witness :
  exists m', adjustLayout (initModel "cfg" []) = Ok m' /\
    table.Columns (table m')
    = [ {| table.Title := "Name"; table.Width := 30 |};
        {| table.Title := "Path"; table.Width := 64 |} ] /\
    usedWidthOf (table.Columns (table m')) = 94.
Proof.
  assert (Hoff : 0 <= scrollOffset (initModel "cfg" [])) by (cbn; lia).
  assert (Hw : 0 <= width (initModel "cfg" [])) by (cbn; lia).
  destruct (adjustLayout (initModel "cfg" [])) as [m'|] eqn:Heq;
    [|vm_compute in Heq; discriminate].
  destruct (layout_fills_the_pane _ m' Hoff Hw Heq) as [_ Hfill].
  assert (Hm : scrollOffset m' = 0 /\
               table.Columns (table m')
               = [ {| table.Title := "Name"; table.Width := 30 |};
                   {| table.Title := "Path"; table.Width := 64 |} ]).
  { clear Hfill. vm_compute in Heq. injection Heq as <-. split; reflexivity. }
  destruct Hm as [H0 Hcols].
  exists m'. split; [reflexivity|]. split; [exact Hcols|].
  rewrite (Hfill H0). reflexivity.
Defined.

(** X8.  Laying out again changes nothing: [adjustLayout] is idempotent. *)
Theorem layout_twice_is_layout_once m m' :
  0 <= scrollOffset m -> adjustLayout m = Ok m' -> adjustLayout m' = Ok m'.
Proof.
  intros Hoff H.
  destruct (adjustLayout_closed m Hoff)
    as (v & columns & out & extra & Hvc & Hv & Hlen & Hout & Hn & Hex & Heq).
  rewrite Heq in H.
  set (m1 := if scrollOffset m + v >? 5 then set_scrollOffset m (5 - v) else m)
    in *.
  assert (Hoff1 : scrollOffset m1 = Z.min (scrollOffset m) (5 - v))
    by apply clamped_offset.
  assert (Hw : width m1 = width m /\ height m1 = height m).
  { subst m1. destruct (_ >? 5); split; reflexivity. }
  destruct Hw as [Hw Hh].
  set (cols' := if extra >? 0 then widenLast out extra else out) in *.
  set (h := if height m - 6 <? 5 then 5 else height m - 6) in *.
  set (m2 := set_maxCols (set_table m1
                (table.SetHeight (table.SetColumns (table m) cols') h)) 5)
    in *.
  assert (Hm' : m' = m2) by congruence. subst m'. clear H.
  assert (Hoff2 : 0 <= scrollOffset m2)
    by (change (scrollOffset m2) with (scrollOffset m1); lia).
  destruct (adjustLayout_closed m2 Hoff2)
    as (v2 & columns2 & out2 & extra2 & Hvc2 & _ & _ & Hout2 & _ & Hex2 & Heq2).
  change (width m2) with (width m1) in *.
  change (height m2) with (height m1) in *.
  change (scrollOffset m2) with (scrollOffset m1) in *.
  rewrite Hw in *. rewrite Hh in *. rewrite <- Hvc in Hvc2.
  injection Hvc2 as -> ->.
  rewrite Hoff1 in Hout2, Heq2.
  replace (Z.min (Z.min (scrollOffset m) (5 - v)) (5 - v))
    with (Z.min (scrollOffset m) (5 - v)) in Hout2 by lia.
  rewrite <- Hout in Hout2. subst out2. rewrite <- Hex in Hex2. subst extra2.
  rewrite Heq2.
  destruct (Z.gtb_spec (Z.min (scrollOffset m) (5 - v) + v) 5); [lia|].
  reflexivity.
Qed.

Lemma layout_twice_is_layout_once_witness :
  exists m', adjustLayout (initModel "cfg" scenarioCatalog) = Ok m' /\
             adjustLayout m' = Ok m'.
Proof.
  destruct (adjustLayout (initModel "cfg" scenarioCatalog)) as [m'|] eqn:H;
    [|vm_compute in H; discriminate].
  exists m'. split; [reflexivity|].
  apply (layout_twice_is_layout_once (initModel "cfg" scenarioCatalog));
    [cbn; lia|exact H].
Defined.

(* ===================================================================== *)
(** * The edit session *)
(* ===================================================================== *)

Lemma replaceNth_length {A : Type} : forall (s : list A) i v,
  List.length (replaceNth s i v) = List.length s.
Proof. induction s as [|h s IH]; intros [|i] v; simpl; auto. Qed.

Lemma replaceNth_same {A : Type} : forall (s : list A) i v,
  nth_error s i = Some v -> replaceNth s i v = s.
Proof.
  induction s as [|h s IH]; intros [|i] v H; simpl in *; try discriminate.
  - now injection H as ->.
  - f_equal. now apply IH.
Qed.

Lemma replaceNth_here {A : Type} : forall (s : list A) i v,
  (i < List.length s)%nat -> nth_error (replaceNth s i v) i = Some v.
Proof.
  induction s as [|h s IH]; intros [|i] v Hi; simpl in *; try lia; auto.
  apply IH. lia.
Qed.

Lemma replaceNth_other {A : Type} : forall (s : list A) i j v,
  i <> j -> nth_error (replaceNth s i v) j = nth_error s j.
Proof.
  induction s as [|h s IH]; intros [|i] [|j] v Hij; simpl; auto;
    congruence.
Qed.

Lemma store_Ok {A : Type} (s : list A) (i : Z) (v : A) :
  0 <= i < len s -> store s i v = Ok (replaceNth s (Z.to_nat i) v).
Proof.
  unfold store, len. intros Hi.
  destruct (Z.ltb_spec i 0); [lia|].
  destruct (Nat.ltb_spec (Z.to_nat i) (List.length s)); [reflexivity|lia].
Qed.

(** The field read back after it is written, and the other fields. *)
Lemma fieldOf_setField p col v :
  0 <= col <= 4 ->
  fieldOf (setField p col v) col = v /\
  forall c, c <> col -> fieldOf (setField p col v) c = fieldOf p c.
Proof.
  intros Hcol.
  assert (Hc : col = 0 \/ col = 1 \/ col = 2 \/ col = 3 \/ col = 4) by lia.
  destruct Hc as [->|[->|[->|[->| ->]]]]; split; try reflexivity;
    intros c Hne; unfold fieldOf, setField; cbn;
    repeat match goal with
           | |- context [Z.eqb ?a ?b] => destruct (Z.eqb_spec a b); try lia
           end; reflexivity.
Qed.

Lemma setField_fieldOf p col : setField p col (fieldOf p col) = p.
Proof.
  unfold setField, fieldOf. destruct p.
  repeat match goal with
         | |- context [Z.eqb ?a ?b] => destruct (Z.eqb_spec a b)
         end; reflexivity.
Qed.

Lemma updateTable_runs m :
  0 <= scrollOffset m ->
  exists m', updateTable m = Ok m' /\ ready m' /\
    projects m' = projects m /\ editMode m' = editMode m /\
    editRow m' = editRow m /\ editCol m' = editCol m /\
    textInput m' = textInput m /\ configFile m' = configFile m /\
    table.cursor (table m') = table.cursor (table m).
Proof.
  intros Hoff. destruct (updateTable_total m Hoff) as [m' Hup].
  exists m'. split; auto.
  pose proof (updateTable_indexMapOk _ _ Hup) as Hok.
  unfold updateTable, bind in Hup.
  destruct (tableRows _ _ _ _ _) as [[rows idx]|]; [|discriminate].
  injection Hup as <-. repeat split; auto.
Qed.

(** [saveEdit] in a session on a record of the catalog. *)
Lemma saveEdit_commits m :
  0 <= scrollOffset m -> editMode m = true -> sessionOk m ->
  exists p m',
    index (projects m) (editRow m) = Ok p /\
    saveEdit m
    = Ok (m', [WriteFile (configFile m) (projects m')]) /\
    projects m'
    = replaceNth (projects m) (Z.to_nat (editRow m))
        (setField p (editCol m) (textinput.Value (textInput m))) /\
    ready m' /\ editMode m' = true /\ editRow m' = editRow m /\
    editCol m' = editCol m /\ textInput m' = textInput m /\
    configFile m' = configFile m.
Proof.
  intros Hoff Hmode [Hlo Hhi]. unfold saveEdit. rewrite Hmode.
  destruct (Z.ltb_spec (editRow m) 0); [lia|].
  destruct (Z.geb_spec (editRow m) (len (projects m))); [lia|].
  cbn [negb orb].
  destruct (index_total (projects m) (editRow m) ltac:(lia)) as [p Hp].
  rewrite Hp. cbn [bind]. rewrite store_Ok by lia. cbn [bind].
  set (ps := replaceNth _ _ _).
  destruct (updateTable_runs (set_projects m ps) Hoff)
    as (m' & Hup & Hready & Hps & Hm & Hr & Hc & Ht & Hf & _).
  rewrite Hup. cbn [bind]. exists p, m'.
  cbn [projects editMode editRow editCol textInput configFile set_projects]
    in Hps, Hm, Hr, Hc, Ht, Hf.
  split; auto. split; [now rewrite Hps|].
  repeat split; try apply Hready; try congruence. exact Hps.
Qed.

Lemma saveEdit_skips m :
  editMode m = false \/ ~ sessionOk m -> saveEdit m = Ok (m, []).
Proof.
  unfold saveEdit, sessionOk. intros [->|Hs]; [reflexivity|].
  destruct (negb (editMode m)); auto.
  destruct (Z.ltb_spec (editRow m) 0); auto.
  destruct (Z.geb_spec (editRow m) (len (projects m))); auto. lia.
Qed.

Lemma index_replaceNth {A : Type} (s : list A) (i : Z) (v : A) :
  0 <= i < len s ->
  index (replaceNth s (Z.to_nat i) v) i = Ok v /\
  (forall j, j <> i -> index (replaceNth s (Z.to_nat i) v) j = index s j) /\
  len (replaceNth s (Z.to_nat i) v) = len s.
Proof.
  unfold len. intros Hi. split; [|split].
  - apply index_Ok. split; [lia|]. apply replaceNth_here. lia.
  - intros j Hj. unfold index. destruct (Z.ltb_spec j 0); auto.
    rewrite replaceNth_other by lia. reflexivity.
  - now rewrite replaceNth_length.
Qed.

(** What a commit leaves in the catalog: the buffer in the edited field
    of the edited record, and nothing else changed. *)
Lemma saveEdit_effect m :
  0 <= scrollOffset m -> editMode m = true -> sessionOk m ->
  0 <= editCol m <= 4 ->
  exists p p' m',
    index (projects m) (editRow m) = Ok p /\
    saveEdit m = Ok (m', [WriteFile (configFile m) (projects m')]) /\
    index (projects m') (editRow m) = Ok p' /\
    fieldOf p' (editCol m) = textinput.Value (textInput m) /\
    (forall c, c <> editCol m -> fieldOf p' c = fieldOf p c) /\
    (forall j, j <> editRow m ->
       index (projects m') j = index (projects m) j) /\
    len (projects m') = len (projects m) /\
    ready m' /\ editMode m' = true /\ editRow m' = editRow m /\
    editCol m' = editCol m /\ textInput m' = textInput m /\
    configFile m' = configFile m.
Proof.
  intros Hoff Hmode Hs Hcol.
  destruct (saveEdit_commits m Hoff Hmode Hs)
    as (p & m' & Hp & Hsave & Hps & Hrest).
  destruct (index_replaceNth (projects m) (editRow m)
              (setField p (editCol m) (textinput.Value (textInput m))) Hs)
    as (Hhere & Hother & Hlen).
  destruct (fieldOf_setField p (editCol m) (textinput.Value (textInput m)) Hcol)
    as [Hset Hkeep].
  exists p, (setField p (editCol m) (textinput.Value (textInput m))), m'.
  rewrite Hps. repeat split; auto; try apply Hrest.
  now rewrite <- Hps.
Qed.

(** X9.  The enter key in a session on a record: the buffer is written to the
    edited field of the edited record, no other field and no other record
    changes, the catalog is written to the file, and the session ends. *)
Theorem enter_commits_the_buffer
  (forward : textinput.Model -> string -> textinput.Model * tea.Cmd) m :
  0 <= scrollOffset m -> editMode m = true -> sessionOk m ->
  0 <= editCol m <= 4 ->
  exists p p' m',
    index (projects m) (editRow m) = Ok p /\
    updateEdit forward m "enter"
    = Ok (m', showStatus "✅ Project updated",
          [WriteFile (configFile m) (projects m')]) /\
    index (projects m') (editRow m) = Ok p' /\
    fieldOf p' (editCol m) = textinput.Value (textInput m) /\
    (forall c, c <> editCol m -> fieldOf p' c = fieldOf p c) /\
    (forall j, j <> editRow m ->
       index (projects m') j = index (projects m) j) /\
    len (projects m') = len (projects m) /\
    editMode m' = false /\ editRow m' = -1 /\ editCol m' = -1 /\
    textinput.Value (textInput m') = "" /\
    textinput.focus (textInput m') = false.
Proof.
  intros Hoff Hmode Hs Hcol.
  destruct (saveEdit_effect m Hoff Hmode Hs Hcol)
    as (p & p' & m1 & Hp & Hsave & Hp' & Hf & Hk & Ho & Hl & _).
  exists p, p', (cancelEdit m1).
  split; auto. split.
  - unfold updateEdit. cbn [String.eqb Ascii.eqb Bool.eqb].
    rewrite Hsave. reflexivity.
  - repeat split; auto.
Qed.

Lemma enter_commits_the_buffer_witness :
  exists p p' m',
    index (projects editingModel) 0 = Ok p /\
    updateEdit (fun t _ => (t, tea.Nil)) editingModel "enter"
    = Ok (m', showStatus "✅ Project updated",
          [WriteFile "cfg" (projects m')]) /\
    index (projects m') 0 = Ok p' /\
    Name p' = "Zulu" /\ Path p' = Path p /\ editMode m' = false.
Proof.
  destruct (enter_commits_the_buffer (fun t _ => (t, tea.Nil)) editingModel)
    as (p & p' & m' & Hp & Hup & Hp' & Hf & Hk & _ & _ & Hmode & _);
    [concrete | concrete | concrete | concrete |].
  exists p, p', m'. repeat split; auto.
  apply (Hk 1). concrete.
Defined.

Lemma moveField_Ok m col p :
  index (projects m) (editRow m) = Ok p ->
  moveField m col
  = Ok (set_textInput (set_editCol m col)
          (loadInput (textInput m) (fieldOf p col))).
Proof.
  intros Hp. unfold moveField.
  cbn [set_editCol projects editRow editCol textInput].
  rewrite Hp. reflexivity.
Qed.

Lemma loadInput_value t v :
  textinput.Value (loadInput t v) = v /\
  textinput.pos (loadInput t v) = strlen v /\
  textinput.focus (loadInput t v) = textinput.focus t.
Proof.
  unfold loadInput, textinput.SetCursor, textinput.SetValue, textinput.Value,
    strlen.
  cbn [textinput.value textinput.pos textinput.focus].
  repeat split. lia.
Qed.

(** The shared shape of the [tab] and [shift+tab] cases: commit, then
    move to column [col] and load its field. *)
Lemma commit_and_move m col :
  0 <= scrollOffset m -> editMode m = true -> sessionOk m ->
  0 <= editCol m <= 4 ->
  exists p p' m',
    index (projects m) (editRow m) = Ok p /\
    ('(m1, fx) <- saveEdit m ;; m2 <- moveField m1 col ;; Ok (m2, tea.Nil, fx))
    = Ok (m', tea.Nil, [WriteFile (configFile m) (projects m')]) /\
    index (projects m') (editRow m) = Ok p' /\
    fieldOf p' (editCol m) = textinput.Value (textInput m) /\
    (forall c, c <> editCol m -> fieldOf p' c = fieldOf p c) /\
    (forall j, j <> editRow m ->
       index (projects m') j = index (projects m) j) /\
    len (projects m') = len (projects m) /\
    0 <= scrollOffset m' /\
    editMode m' = true /\ editRow m' = editRow m /\ editCol m' = col /\
    textInput m' = loadInput (textInput m) (fieldOf p' col) /\
    textinput.Value (textInput m') = fieldOf p' col /\
    configFile m' = configFile m.
Proof.
  intros Hoff Hmode Hs Hcol.
  destruct (saveEdit_effect m Hoff Hmode Hs Hcol)
    as (p & p' & m1 & Hp & Hsave & Hp' & Hf & Hk & Ho & Hl & Hready & Hm1
        & Hr1 & Hc1 & Ht1 & Hcfg).
  assert (Hp1 : index (projects m1) (editRow m1) = Ok p')
    by now rewrite Hr1.
  exists p, p',
    (set_textInput (set_editCol m1 col)
       (loadInput (textInput m1) (fieldOf p' col))).
  destruct (loadInput_value (textInput m1) (fieldOf p' col))
    as (Hv & Hpos & Hfocus).
  split; auto. split.
  - rewrite Hsave. cbn [bind]. rewrite (moveField_Ok _ _ _ Hp1).
    reflexivity.
  - cbn [set_textInput set_editCol projects scrollOffset editMode editRow
         editCol textInput configFile].
    rewrite Hv, Ht1.
    repeat split; auto; apply Hready.
Qed.

(** X10.  The tab and shift+tab keys in a session on a record, the field
    of the next column being a text that the text input stores as it is
    given: the buffer is committed as by enter and the file written, the
    session stays open on the same record, the column moves one step
    round the five fields, and the text input is loaded with the field
    of the new column, the cursor at its end. *)
Theorem field_keys_commit_and_move
  (forward : textinput.Model -> string -> textinput.Model * tea.Cmd)
  m key step p :
  (key = "tab" /\ step = 1) \/ (key = "shift+tab" /\ step = -1) ->
  0 <= scrollOffset m -> editMode m = true -> sessionOk m ->
  0 <= editCol m <= 4 ->
  index (projects m) (editRow m) = Ok p ->
  keptByInput (fieldOf p ((editCol m + step) mod 5)) ->
  exists p' m',
    updateEdit forward m key
    = Ok (m', tea.Nil, [WriteFile (configFile m) (projects m')]) /\
    index (projects m') (editRow m) = Ok p' /\
    fieldOf p' (editCol m) = textinput.Value (textInput m) /\
    (forall c, c <> editCol m -> fieldOf p' c = fieldOf p c) /\
    (forall j, j <> editRow m ->
       index (projects m') j = index (projects m) j) /\
    editMode m' = true /\ editRow m' = editRow m /\
    editCol m' = (editCol m + step) mod 5 /\
    fieldOf p' (editCol m') = fieldOf p (editCol m') /\
    textInput m' = loadInput (textInput m) (fieldOf p' (editCol m')).
Proof.
  intros Hkey Hoff Hmode Hs Hcol Hrec _.
  assert (Hsaved : forall m1 fx, saveEdit m = Ok (m1, fx) ->
            editCol m1 = editCol m).
  { intros m1 fx H1.
    destruct (saveEdit_effect m Hoff Hmode Hs Hcol)
      as (_ & _ & m1' & _ & Hsave & _ & _ & _ & _ & _ & _ & _ & _ & Hc & _).
    congruence. }
  assert (Hshape : exists col,
    col = (editCol m + step) mod 5 /\
    updateEdit forward m key
    = ('(m1, fx) <- saveEdit m ;; m2 <- moveField m1 col ;;
       Ok (m2, tea.Nil, fx))).
  { exists ((editCol m + step) mod 5). split; [reflexivity|].
    destruct Hkey as [[-> ->]|[-> ->]]; unfold updateEdit;
      cbn [String.eqb Ascii.eqb Bool.eqb];
      destruct (saveEdit m) as [[m1 fx]|] eqn:H1; cbn [bind]; auto;
      rewrite (Hsaved m1 fx eq_refl).
    - rewrite Z.rem_mod_nonneg by lia. reflexivity.
    - rewrite Z.rem_mod_nonneg by lia.
      replace (editCol m - 1 + 5) with (editCol m + -1 + 1 * 5) by lia.
      rewrite Z.mod_add by lia. reflexivity. }
  destruct Hshape as (col & Hcoleq & ->).
  destruct (commit_and_move m col Hoff Hmode Hs Hcol)
    as (p0 & p' & m' & Hp & Hrun & Hp' & Hf & Hk & Ho & _ & _ & Hm' & Hr'
        & Hc' & Ht & _).
  assert (p0 = p) by congruence. subst p0.
  assert (Hmoved : col <> editCol m).
  { rewrite Hcoleq.
    assert (Hcase : editCol m = 0 \/ editCol m = 1 \/ editCol m = 2 \/
                    editCol m = 3 \/ editCol m = 4) by lia.
    destruct Hkey as [[_ ->]|[_ ->]];
      destruct Hcase as [->|[->|[->|[->| ->]]]]; discriminate. }
  exists p', m'. rewrite Ht, Hc', <- Hcoleq.
  repeat split; auto.
Qed.

Lemma field_keys_commit_and_move_witness :
  exists p' m',
    updateEdit (fun t _ => (t, tea.Nil)) editingModel "shift+tab"
    = Ok (m', tea.Nil, [WriteFile "cfg" (projects m')]) /\
    index (projects m') 0 = Ok p' /\
    Name p' = "Zulu" /\ editCol m' = 4 /\
    textInput m'
    = {| textinput.value := "Web"; textinput.pos := 3;
         textinput.focus := true |}.
Proof.
  destruct (field_keys_commit_and_move (fun t _ => (t, tea.Nil))
              editingModel "shift+tab" (-1) (project "Zeta" "Web"))
    as (p' & m' & Hup & Hp' & Hf & _ & _ & _ & _ & Hc & Hsame & Hv);
    [right; split; reflexivity | concrete | concrete | concrete | concrete
    | reflexivity
    | split; [vm_compute; lia | reflexivity] |].
  exists p', m'. repeat split; auto.
  rewrite Hv, Hsame, Hc. reflexivity.
Defined.

(** X11.  Tab followed by shift+tab in a session on a record, the texts being
    such that the text input stores them as they are given: the first
    key commits the buffer, the second changes nothing in the catalog and
    writes it again, and the session is back on the column it started
    from with the committed text in the buffer. *)
Theorem tab_then_back
  (forward : textinput.Model -> string -> textinput.Model * tea.Cmd) m p :
  0 <= scrollOffset m -> editMode m = true -> sessionOk m ->
  0 <= editCol m <= 4 ->
  index (projects m) (editRow m) = Ok p ->
  keptByInput (textinput.Value (textInput m)) ->
  keptByInput (fieldOf p ((editCol m + 1) mod 5)) ->
  exists m1 m2,
    updateEdit forward m "tab"
    = Ok (m1, tea.Nil, [WriteFile (configFile m) (projects m1)]) /\
    updateEdit forward m1 "shift+tab"
    = Ok (m2, tea.Nil, [WriteFile (configFile m) (projects m1)]) /\
    projects m2 = projects m1 /\
    editMode m2 = true /\ editRow m2 = editRow m /\
    editCol m2 = editCol m /\
    textinput.Value (textInput m2) = textinput.Value (textInput m).
Proof.
  intros Hoff Hmode Hs Hcol _ _ _.
  set (c1 := Z.rem (editCol m + 1) 5).
  assert (Hc1 : 0 <= c1 <= 4).
  { unfold c1. rewrite Z.rem_mod_nonneg by lia.
    pose proof (Z.mod_pos_bound (editCol m + 1) 5). lia. }
  destruct (commit_and_move m c1 Hoff Hmode Hs Hcol)
    as (p0 & p' & m1 & Hp & Hrun & Hp' & Hf & Hk & Ho & Hl & Hoff1 & Hm1
        & Hr1 & Hcol1 & _ & Hv1 & Hcfg1).
  assert (Hs1 : sessionOk m1).
  { unfold sessionOk in *. rewrite Hr1, Hl. exact Hs. }
  assert (Hcol1' : 0 <= editCol m1 <= 4) by now rewrite Hcol1.
  destruct (saveEdit_commits m1 Hoff1 Hm1 Hs1)
    as (q & n & Hq & Hsave1 & Hps & _ & Hmn & Hrn & Hcn & Htn & Hcfgn).
  assert (Hqp : q = p') by (rewrite Hr1 in Hq; congruence).
  assert (Hsame : projects n = projects m1).
  { rewrite Hps, Hv1, Hcol1, Hqp, setField_fieldOf.
    apply replaceNth_same.
    destruct (proj1 (index_Ok _ _ _) Hp') as [_ Hn]. now rewrite Hr1. }
  assert (Hback : Z.rem (editCol n - 1 + 5) 5 = editCol m).
  { rewrite Hcn, Hcol1. unfold c1.
    rewrite !Z.rem_mod_nonneg by lia.
    assert (Hcase : editCol m = 0 \/ editCol m = 1 \/ editCol m = 2 \/
                    editCol m = 3 \/ editCol m = 4) by lia.
    destruct Hcase as [->|[->|[->|[->| ->]]]]; reflexivity. }
  assert (Hpn : index (projects n) (editRow n) = Ok p').
  { rewrite Hsame, Hrn, Hr1. exact Hp'. }
  exists m1,
    (set_textInput (set_editCol n (editCol m))
       (loadInput (textInput n) (fieldOf p' (editCol m)))).
  split.
  { unfold updateEdit. cbn [String.eqb Ascii.eqb Bool.eqb].
    destruct (saveEdit_effect m Hoff Hmode Hs Hcol)
      as (_ & _ & m0 & _ & Hsave & _ & _ & _ & _ & _ & _ & _ & _ & Hc0 & _).
    rewrite Hsave in Hrun |- *. cbn [bind] in Hrun |- *.
    rewrite Hc0. exact Hrun. }
  split.
  { unfold updateEdit. cbn [String.eqb Ascii.eqb Bool.eqb].
    rewrite Hsave1. cbn [bind]. rewrite Hback.
    rewrite (moveField_Ok _ _ _ Hpn). rewrite Hsame, Hcfg1. reflexivity. }
  cbn [set_textInput set_editCol projects editMode editRow editCol
       textInput].
  destruct (loadInput_value (textInput n) (fieldOf p' (editCol m)))
    as (Hv & _).
  rewrite Hv. repeat split; auto; congruence.
Qed.

Lemma tab_then_back_witness :
  exists m1 m2,
    updateEdit (fun t _ => (t, tea.Nil)) editingModel "tab"
    = Ok (m1, tea.Nil, [WriteFile "cfg" (projects m1)]) /\
    updateEdit (fun t _ => (t, tea.Nil)) m1 "shift+tab"
    = Ok (m2, tea.Nil, [WriteFile "cfg" (projects m1)]) /\
    editCol m1 = 1 /\ editCol m2 = 0 /\
    textinput.Value (textInput m2) = "Zulu".
Proof.
  destruct (tab_then_back (fun t _ => (t, tea.Nil)) editingModel
              (project "Zeta" "Web"))
    as (m1 & m2 & H1 & H2 & _ & _ & _ & Hc & Hv);
    [concrete | concrete | concrete | concrete | reflexivity
    | split; [vm_compute; lia | reflexivity]
    | split; [vm_compute; lia | reflexivity] |].
  exists m1, m2. repeat split; auto.
  vm_compute in H1. injection H1 as <-. reflexivity.
Defined.

(* ===================================================================== *)
(** * The keys of the normal mode *)
(* ===================================================================== *)

Lemma adjustLayout_frame m :
  0 <= scrollOffset m ->
  exists m', adjustLayout m = Ok m' /\
    0 <= scrollOffset m' <= scrollOffset m /\
    projects m' = projects m /\ projectIndices m' = projectIndices m /\
    editMode m' = editMode m /\ editRow m' = editRow m /\
    editCol m' = editCol m /\ textInput m' = textInput m /\
    configFile m' = configFile m.
Proof.
  intros Hoff.
  destruct (adjustLayout_closed m Hoff)
    as (v & columns & out & extra & _ & Hv & _ & _ & _ & _ & Heq).
  eexists. split; [exact Heq|].
  pose proof (clamped_offset m v) as Hoff'.
  set (m1 := if scrollOffset m + v >? 5
             then set_scrollOffset m (5 - v) else m) in *.
  assert (Hkeep : projects m1 = projects m /\
                  projectIndices m1 = projectIndices m /\
                  editMode m1 = editMode m /\ editRow m1 = editRow m /\
                  editCol m1 = editCol m /\ textInput m1 = textInput m /\
                  configFile m1 = configFile m)
    by (subst m1; destruct (_ >? 5); repeat split).
  unfold set_maxCols, set_table.
  cbn [scrollOffset projects projectIndices editMode editRow editCol
       textInput configFile].
  split; [lia|exact Hkeep].
Qed.

(** [updateTable] followed by nothing else: it returns, leaves the model
    ready, and keeps all but the rows and the index map. *)
Lemma updateTable_frame m :
  0 <= scrollOffset m ->
  exists m', updateTable m = Ok m' /\ ready m' /\
    scrollOffset m' = scrollOffset m /\
    projects m' = projects m /\
    editMode m' = editMode m /\ editRow m' = editRow m /\
    editCol m' = editCol m /\ textInput m' = textInput m /\
    configFile m' = configFile m /\
    table.cursor (table m') = table.cursor (table m).
Proof.
  intros Hoff. destruct (updateTable_runs m Hoff)
    as (m' & Hup & Hready & Hrest).
  exists m'. destruct (updateTable_inv _ _ Hup) as (_ & _ & Hoff' & _).
  repeat split; auto; apply Hready || apply Hrest.
Qed.

Lemma len_nonneg {A : Type} (s : list A) : 0 <= len s.
Proof. unfold len. lia. Qed.

(** The three ways [startEdit] can go. *)
Lemma startEdit_cases m :
  indexMapOk m ->
  (projects m = [] /\ startEdit m = Ok m) \/
  (projects m <> [] /\
   getOriginalIndexByDisplayIndex m (table.Cursor (table m)) = Ok (-1) /\
   getProjectByDisplayIndex m (table.Cursor (table m)) = Ok None /\
   startEdit m = Ok (set_editRow (set_editMode m true) (-1))) \/
  (exists i p,
     0 <= i < len (projects m) /\
     getOriginalIndexByDisplayIndex m (table.Cursor (table m)) = Ok i /\
     getProjectByDisplayIndex m (table.Cursor (table m)) = Ok (Some p) /\
     index (projects m) i = Ok p /\
     startEdit m
     = Ok (set_textInput
             (set_editCol (set_editRow (set_editMode m true) i) 0)
             (textinput.Focus (loadInput (textInput m) (Name p))))).
Proof.
  intros Hok.
  destruct (projects m) as [|p0 ps] eqn:Hps.
  { left. split; auto. now apply startEdit_empty. }
  right.
  assert (Hne : projects m <> []) by (rewrite Hps; discriminate).
  rewrite <- Hps.
  destruct (lookup_cases m Hok (table.Cursor (table m)))
    as [[Hl Hg]|(i & p & Hl & Hg & Hi & Hp & _)].
  - left. repeat split; auto. now apply startEdit_no_record.
  - right. exists i, p. repeat split; auto; try lia.
    unfold startEdit.
    replace (len (projects m) =? 0) with false
      by (symmetry; apply Z.eqb_neq; lia).
    change (getOriginalIndexByDisplayIndex (set_editMode m true)
              (table.Cursor (table (set_editMode m true))))
      with (getOriginalIndexByDisplayIndex m (table.Cursor (table m))).
    rewrite Hl. cbn [bind].
    unfold set_editRow at 1. cbn [editRow].
    replace (i =? -1) with false by (symmetry; apply Z.eqb_neq; lia).
    cbn [set_editCol set_editRow set_editMode projects editRow editCol
         textInput].
    rewrite Hp. reflexivity.
Qed.

(** X12.  The e key on a record row: when the row under the cursor resolves to
    a record, whose name is a text that the text input stores as it is
    given, the session opens on that record, on its name, and the text
    input is loaded with the name, the cursor at its end, and focused;
    the catalog is untouched and nothing is written. *)
Theorem edit_opens_on_the_record_under_the_cursor start load navigate m p :
  indexMapOk m -> editMode m = false ->
  getProjectByDisplayIndex m (table.Cursor (table m)) = Ok (Some p) ->
  keptByInput (Name p) ->
  exists m',
    updateNormal start load navigate m "e" = Ok (m', tea.Nil, []) /\
    editMode m' = true /\ sessionOk m' /\
    getOriginalIndexByDisplayIndex m (table.Cursor (table m))
    = Ok (editRow m') /\
    index (projects m') (editRow m') = Ok p /\
    editCol m' = 0 /\
    textInput m' = textinput.Focus (loadInput (textInput m) (Name p)) /\
    projects m' = projects m.
Proof.
  intros Hok Hmode Hg _.
  destruct (startEdit_cases m Hok)
    as [[Hps He]|[(_ & _ & Hg' & _)|(i & q & Hi & Hl & Hg' & Hq & He)]].
  - exfalso.
    destruct (lookup_cases m Hok (table.Cursor (table m)))
      as [[_ Hn]|(i & q & _ & _ & Hi & _)]; [congruence|].
    rewrite Hps in Hi. unfold len in Hi. simpl in Hi. lia.
  - congruence.
  - assert (q = p) by congruence. subst q.
    eexists. split.
    { unfold updateNormal. cbn [String.eqb Ascii.eqb Bool.eqb orb].
      rewrite He. reflexivity. }
    unfold sessionOk.
    cbn [set_textInput set_editCol set_editRow set_editMode projects
         editMode editRow editCol textInput].
    repeat split; auto; lia.
Qed.

Lemma edit_opens_on_the_record_under_the_cursor_witness :
  exists m',
    updateNormal (fun _ => None) (fun _ => []) (fun t _ => (t, tea.Nil))
      selectedModel "e" = Ok (m', tea.Nil, []) /\
    editRow m' = 2 /\
    textInput m'
    = {| textinput.value := "Beta"; textinput.pos := 4;
         textinput.focus := true |}.
Proof.
  destruct (edit_opens_on_the_record_under_the_cursor
              (fun _ => None) (fun _ => []) (fun t _ => (t, tea.Nil))
              selectedModel (project "Beta" ""))
    as (m' & Hup & _ & _ & Hl & _ & _ & Hv & _);
    [vm_compute; repeat constructor; discriminate | reflexivity
    | vm_compute; reflexivity
    | split; [vm_compute; lia | reflexivity] |].
  exists m'. repeat split; auto.
  assert (Hc : getOriginalIndexByDisplayIndex selectedModel
                 (table.Cursor (table selectedModel)) = Ok 2)
    by (vm_compute; reflexivity).
  rewrite Hc in Hl. injection Hl as Hl. symmetry. exact Hl.
Defined.

(** X13.  Opening a session on a record and pressing enter at once, the name
    being a text that the text input stores as it is given: the catalog
    is what it was, it is written to the file all the same, and the
    command returned is the status message that the project was
    updated. *)
Theorem edit_then_enter_changes_nothing
  (forward : textinput.Model -> string -> textinput.Model * tea.Cmd) m p :
  ready m ->
  getProjectByDisplayIndex m (table.Cursor (table m)) = Ok (Some p) ->
  keptByInput (Name p) ->
  exists m1 m2,
    startEdit m = Ok m1 /\
    updateEdit forward m1 "enter"
    = Ok (m2, tea.Emit (tea.statusMsg "✅ Project updated"),
          [WriteFile (configFile m) (projects m)]) /\
    projects m2 = projects m /\
    editMode m2 = false /\ editRow m2 = -1.
Proof.
  intros [Hoff Hok] Hg _.
  destruct (startEdit_cases m Hok)
    as [[Hps He]|[(_ & _ & Hg' & _)|(i & q & Hi & Hl & Hg' & Hq & He)]].
  - exfalso.
    destruct (lookup_cases m Hok (table.Cursor (table m)))
      as [[_ Hn]|(i & q & _ & _ & Hi & _)]; [congruence|].
    rewrite Hps in Hi. unfold len in Hi. simpl in Hi. lia.
  - congruence.
  - assert (q = p) by congruence. subst q.
    set (m1 := set_textInput
                 (set_editCol (set_editRow (set_editMode m true) i) 0)
                 (textinput.Focus (loadInput (textInput m) (Name p)))) in *.
    destruct (saveEdit_commits m1) as (q & n & Hq' & Hsave & Hps & Hrest);
      [exact Hoff | reflexivity | exact Hi |].
    assert (q = p) by (change (index (projects m) i = Ok q) in Hq';
                       congruence). subst q.
    assert (Hsame : projects n = projects m).
    { rewrite Hps. change (projects m1) with (projects m).
      change (editRow m1) with i. change (editCol m1) with 0.
      change (textinput.Value (textInput m1))
        with (textinput.Value (loadInput (textInput m) (Name p))).
      destruct (loadInput_value (textInput m) (Name p)) as (-> & _).
      change (Name p) with (fieldOf p 0) at 1.
      rewrite setField_fieldOf. apply replaceNth_same.
      now destruct (proj1 (index_Ok _ _ _) Hq). }
    exists m1, (cancelEdit n). split; [exact He|]. split.
    + unfold updateEdit. cbn [String.eqb Ascii.eqb Bool.eqb].
      rewrite Hsave. cbn [bind]. rewrite Hsame. reflexivity.
    + repeat split; auto.
Qed.

Lemma edit_then_enter_changes_nothing_witness :
  exists m1 m2,
    startEdit selectedModel = Ok m1 /\
    updateEdit (fun t _ => (t, tea.Nil)) m1 "enter"
    = Ok (m2, tea.Emit (tea.statusMsg "✅ Project updated"),
          [WriteFile "cfg" scenarioCatalog]) /\
    projects m2 = scenarioCatalog.
Proof.
  destruct (edit_then_enter_changes_nothing (fun t _ => (t, tea.Nil))
              selectedModel (project "Beta" ""))
    as (m1 & m2 & H1 & H2 & Hps & _);
    [split; [vm_compute; discriminate
            |vm_compute; repeat constructor; discriminate]
    | vm_compute; reflexivity
    | split; [vm_compute; lia | reflexivity] |].
  exists m1, m2. repeat split; auto.
Defined.

Lemma removeAt_Ok {A : Type} (s : list A) (i : Z) :
  0 <= i < len s ->
  exists s', removeAt s i = Ok s' /\
    len s' = len s - 1 /\
    (forall j, j < i -> index s' j = index s j) /\
    (forall j, i <= j -> index s' j = index s (j + 1)).
Proof.
  unfold len. intros Hi. unfold removeAt, len.
  destruct (Z.ltb_spec i 0); [lia|].
  destruct (Z.ltb_spec (Z.of_nat (List.length s)) (i + 1)); [lia|].
  cbn [orb]. eexists. split; [reflexivity|].
  assert (Hf : List.length (firstn (Z.to_nat i) s) = Z.to_nat i)
    by (rewrite length_firstn; lia).
  split; [|split].
  - rewrite length_app, Hf, length_skipn. lia.
  - intros j Hj. unfold index. destruct (Z.ltb_spec j 0); auto.
    rewrite nth_error_app1 by lia.
    rewrite nth_error_firstn.
    destruct (Nat.ltb_spec (Z.to_nat j) (Z.to_nat i)); [reflexivity|lia].
  - intros j Hj. unfold index.
    destruct (Z.ltb_spec j 0); [lia|]. destruct (Z.ltb_spec (j + 1) 0); [lia|].
    rewrite nth_error_app2 by lia. rewrite Hf, nth_error_skipn.
    replace (Z.to_nat (i + 1) + (Z.to_nat j - Z.to_nat i))%nat
      with (Z.to_nat (j + 1)) by lia.
    reflexivity.
Qed.

Lemma headerRow_cols t t' off c :
  table.cols t' = table.cols t -> headerRow t' off c = headerRow t off c.
Proof. unfold headerRow, table.Columns. now intros ->. Qed.

Lemma tableRows_cols t t' off :
  table.cols t' = table.cols t ->
  forall sorted last k,
    tableRows t' off sorted last k = tableRows t off sorted last k.
Proof.
  intros Hc. induction sorted as [|p rest IH]; intros last k; auto.
  cbn [tableRows]. rewrite (projectRow_cols _ _ _ _ Hc), IH,
    (headerRow_cols _ _ _ _ Hc). reflexivity.
Qed.

(** A projection that was rebuilt is what rebuilding gives. *)
Lemma updateTable_again m m' : updateTable m = Ok m' -> updateTable m' = Ok m'.
Proof.
  intros Hup.
  destruct (updateTable_inv _ _ Hup) as (Hrows & _ & Hoff & Hcols & Hsorted).
  unfold updateTable.
  rewrite Hsorted, Hoff, (tableRows_cols _ _ _ Hcols), Hrows. cbn [bind].
  f_equal. unfold updateTable, bind in Hup.
  destruct (tableRows _ _ _ _ _) as [[rows idx]|]; [|discriminate].
  apply Ok_inj in Hup. subst m'. reflexivity.
Qed.

(** The delete key when the row under the cursor resolves to a record. *)
Lemma deleteProject_record m p :
  ready m ->
  getProjectByDisplayIndex m (table.Cursor (table m)) = Ok (Some p) ->
  exists i m',
    getOriginalIndexByDisplayIndex m (table.Cursor (table m)) = Ok i /\
    index (projects m) i = Ok p /\
    deleteProject m
    = Ok (m', showStatus (strings.concat ["🗑️ Deleted "; Name p]),
          [WriteFile (configFile m) (projects m')]) /\
    len (projects m') = len (projects m) - 1 /\
    (forall j, j < i -> index (projects m') j = index (projects m) j) /\
    (forall j, i <= j -> index (projects m') j = index (projects m) (j + 1)) /\
    ready m' /\ editMode m' = editMode m /\ configFile m' = configFile m /\
    updateTable m' = Ok m' /\
    scrollOffset m' = scrollOffset m /\
    table.Columns (table m') = table.Columns (table m).
Proof.
  intros [Hoff Hok] Hg.
  destruct (lookup_cases m Hok (table.Cursor (table m)))
    as [[_ Hn]|(i & q & Hl & Hg' & Hi & Hq & _)]; [congruence|].
  assert (q = p) by congruence. subst q.
  destruct (removeAt_Ok (projects m) i Hi) as (ps & Hrm & Hlen & Hlo & Hhi).
  destruct (updateTable_frame (set_projects m ps) Hoff)
    as (m' & Hup & Hready & _ & Hps & Hmode & _ & _ & _ & Hcfg & _).
  exists i, m'. split; auto. split; auto. split.
  - unfold deleteProject.
    replace (len (projects m) >? 0) with true
      by (symmetry; apply Z.gtb_lt; lia).
    rewrite Hl. cbn [bind].
    replace (i =? -1) with false by (symmetry; apply Z.eqb_neq; lia).
    rewrite Hq. cbn [bind]. rewrite Hrm. cbn [bind].
    rewrite Hup. cbn [bind]. rewrite Hps. reflexivity.
  - rewrite Hps. cbn [set_projects projects].
    destruct (updateTable_inv _ _ Hup) as (_ & _ & Hoff' & Hcols & _).
    repeat split; auto; try apply Hready.
    now apply updateTable_again in Hup.
Qed.

(** X14.  The d and delete keys on a record row: the record that the row
    resolves to is taken out of the catalog, the records before it keep
    their index and those after it move down by one, and the catalog is
    written to the file.  The projection is rebuilt: the rows and the
    index map of the new model are those of its catalog, under the same
    columns and scroll offset.  The command returned is the status
    message that names the record. *)
Theorem delete_removes_the_record_under_the_cursor
  start load navigate m key p :
  key = "d" \/ key = "delete" ->
  ready m ->
  getProjectByDisplayIndex m (table.Cursor (table m)) = Ok (Some p) ->
  exists i m',
    getOriginalIndexByDisplayIndex m (table.Cursor (table m)) = Ok i /\
    index (projects m) i = Ok p /\
    updateNormal start load navigate m key
    = Ok (m', tea.Emit (tea.statusMsg ("🗑️ Deleted " ++ Name p)),
          [WriteFile (configFile m) (projects m')]) /\
    len (projects m') = len (projects m) - 1 /\
    (forall j, j < i -> index (projects m') j = index (projects m) j) /\
    (forall j, i <= j -> index (projects m') j = index (projects m) (j + 1)) /\
    updateTable m' = Ok m' /\
    scrollOffset m' = scrollOffset m /\
    table.Columns (table m') = table.Columns (table m) /\
    ready m' /\ editMode m' = editMode m.
Proof.
  intros Hkey Hready Hg.
  destruct (deleteProject_record m p Hready Hg)
    as (i & m' & Hl & Hp & Hdel & Hlen & Hlo & Hhi & Hready' & Hmode & _
        & Hproj & Hoff' & Hcols).
  exists i, m'. repeat split; auto; try apply Hready'.
  assert (Hrun : updateNormal start load navigate m key = deleteProject m)
    by (destruct Hkey as [-> | ->]; reflexivity).
  rewrite Hrun, Hdel. unfold showStatus, strings.concat.
  cbn [fold_right]. rewrite append_nil_r. reflexivity.
Qed.

Lemma delete_removes_the_record_under_the_cursor_witness :
  exists m',
    updateNormal (fun _ => None) (fun _ => []) (fun t _ => (t, tea.Nil))
      selectedModel "d"
    = Ok (m', tea.Emit (tea.statusMsg "🗑️ Deleted Beta"),
          [WriteFile "cfg" [project "Zeta" "Web"; project "Alpha" "Web"]]) /\
    projects m' = [project "Zeta" "Web"; project "Alpha" "Web"] /\
    updateTable m' = Ok m' /\
    projectIndices m' = [-1; 0; 1].
Proof.
  destruct (delete_removes_the_record_under_the_cursor
              (fun _ => None) (fun _ => []) (fun t _ => (t, tea.Nil))
              selectedModel "d" (project "Beta" ""))
    as (i & m' & _ & _ & Hup & _ & _ & _ & Hproj & _);
    [left; reflexivity
    | split; [vm_compute; discriminate
             |vm_compute; repeat constructor; discriminate]
    | vm_compute; reflexivity |].
  exists m'.
  assert (Hc : updateNormal (fun _ => None) (fun _ => [])
                 (fun t _ => (t, tea.Nil)) selectedModel "d"
               = Ok (m', tea.Emit (tea.statusMsg "🗑️ Deleted Beta"),
                     [WriteFile "cfg" (projects m')])) by exact Hup.
  assert (Hps : projects m' = [project "Zeta" "Web"; project "Alpha" "Web"] /\
                projectIndices m' = [-1; 0; 1]).
  { clear Hup Hproj. vm_compute in Hc. injection Hc as <-.
    split; reflexivity. }
  destruct Hps as [Hps Hidx].
  split; [rewrite <- Hps; exact Hc|].
  split; [exact Hps|]. split; [exact Hproj | exact Hidx].
Defined.

(** X15.  On a row that is no record row (a category header, or a cursor
    outside the projection) and on an empty catalog, the keys that act on
    the record under the cursor (delete, launch, open the link) do
    nothing: the model is the same, no command, nothing written and no
    process started. *)
Theorem record_keys_do_nothing_off_a_record
  start load navigate forward now m key :
  In key ["d"; "delete"; " "; "enter"; "o"] ->
  editMode m = false ->
  projects m = [] \/ ~ recordRow m (table.Cursor (table m)) ->
  Update start load navigate forward now m (KeyMsg key)
  = Ok (m, tea.Nil, []).
Proof.
  intros Hkey Hmode Hrow. cbn [Update]. rewrite Hmode.
  assert (Hd : deleteProject m = Ok (m, tea.Nil, [])).
  { unfold deleteProject. destruct Hrow as [->|Hrow]; [reflexivity|].
    rewrite (lookup_no_record _ _ Hrow). cbn [bind].
    destruct (len (projects m) >? 0); reflexivity. }
  assert (Hs : forall run, onSelected run m = Ok (m, tea.Nil, [])).
  { intros run. unfold onSelected. destruct Hrow as [->|Hrow]; [reflexivity|].
    destruct (len (projects m) >? 0); [|reflexivity].
    assert (Hg : getProjectByDisplayIndex m (table.Cursor (table m))
                 = Ok None).
    { unfold getProjectByDisplayIndex.
      destruct ((_ <? 0) || (_ >=? _)) eqn:Hout; auto.
      apply orb_false_iff in Hout. destruct Hout as [H0 Hlen].
      apply Z.ltb_ge in H0. rewrite Z.geb_leb in Hlen.
      apply Z.leb_gt in Hlen.
      destruct (index_total (projectIndices m) (table.Cursor (table m))
                  ltac:(lia)) as [k Hk].
      rewrite Hk. cbn [bind]. destruct (Z.eqb_spec k (-1)); auto.
      exfalso. apply Hrow. exists k. auto. }
    rewrite Hg. reflexivity. }
  cbn [In] in Hkey.
  destruct Hkey as [<-|[<-|[<-|[<-|[<-|[]]]]]]; unfold updateNormal;
    cbn [String.eqb Ascii.eqb Bool.eqb orb]; auto.
Qed.

Lemma record_keys_do_nothing_off_a_record_witness :
  exists m,
    updateTable (initModel "cfg" scenarioCatalog) = Ok m /\
    Update (fun _ => None) (fun _ => []) (fun t _ => (t, tea.Nil))
      (fun t _ => (t, tea.Nil)) 0 m (KeyMsg "enter")
    = Ok (m, tea.Nil, []).
Proof.
  destruct (updateTable (initModel "cfg" scenarioCatalog)) as [m|] eqn:Hup;
    [|vm_compute in Hup; discriminate].
  exists m. split; [reflexivity|].
  apply record_keys_do_nothing_off_a_record.
  - cbn. auto.
  - vm_compute in Hup. injection Hup as <-. reflexivity.
  - right. intros (k & Hk & Hne). vm_compute in Hup. injection Hup as <-.
    vm_compute in Hk. congruence.
Defined.

Lemma count_occ_head (idx : list Z) :
  (1 <= count_occ Z.eq_dec ((-1)%Z :: idx) (-1)%Z)%nat.
Proof. cbn [count_occ]. destruct (Z.eq_dec (-1) (-1)); [lia|congruence]. Qed.

(** What the add key does. *)
Lemma addProject_runs m :
  0 <= scrollOffset m ->
  exists m',
    addProject m
    = Ok (m', showStatus "➕ New project added",
          [WriteFile (configFile m) (projects m ++ [newProject])%list]) /\
    projects m' = (projects m ++ [newProject])%list /\
    ready m' /\ editMode m' = true /\ configFile m' = configFile m /\
    table.Cursor (table m') = len (projects m) /\
    getOriginalIndexByDisplayIndex m' (table.Cursor (table m'))
    = Ok (editRow m') /\
    (editRow m' = -1 \/ sessionOk m') /\
    (projects m = [] -> editRow m' = -1).
Proof.
  intros Hoff.
  set (m1 := set_projects m (projects m ++ [newProject])%list).
  destruct (updateTable_frame m1 Hoff)
    as (m2 & Hup & [Hoff2 Hok2] & _ & Hps2 & _ & _ & _ & _ & Hcfg2 & _).
  change (projects m1) with (projects m ++ [newProject])%list in Hps2.
  change (configFile m1) with (configFile m) in Hcfg2.
  destruct (updateTable_inv _ _ Hup) as (Hrows & _).
  assert (Hn : List.length (getSortedProjects m1)
               = S (List.length (projects m))).
  { rewrite getSortedProjects_length. change (projects m1)
      with (projects m ++ [newProject])%list.
    rewrite length_app. simpl. lia. }
  destruct (getSortedProjects m1) as [|sp rest] eqn:Hsorted;
    [discriminate|].
  destruct (tableRows_first _ _ _ _ _ _ _ Hrows) as [idx' Hidx].
  pose proof (tableRows_lengths _ _ _ _ _ _ _ Hrows) as Hlen.
  destruct (tableRows_header_count _ _ _ _ _ _ _ Hrows ltac:(lia))
    as [_ Hcount].
  rewrite Hidx in Hcount, Hlen.
  pose proof (count_occ_head (0 :: idx')) as Hone.
  assert (Hrowsn : len (projects m) + 2 <= len (table.rows (table m2))).
  { unfold len. rewrite Hlen, Hcount, Hn. lia. }
  set (m3 := set_table m2
               (table_SetCursor (table m2) (len (projects m2) - 1))).
  assert (Hcur : table.Cursor (table m3) = len (projects m)).
  { unfold m3, table_SetCursor, table.Cursor. cbn [set_table table
      table.cursor]. rewrite Hps2. unfold len at 1. rewrite length_app.
    cbn [List.length]. pose proof (len_nonneg (projects m)).
    unfold len in *. lia. }
  assert (Hok3 : indexMapOk m3) by exact Hok2.
  assert (Hne : projects m3 <> []).
  { change (projects m3) with (projects m2). rewrite Hps2.
    destruct (projects m); discriminate. }
  assert (Hshape : forall m4, startEdit m3 = Ok m4 ->
            addProject m
            = Ok (m4, showStatus "➕ New project added",
                  [WriteFile (configFile m)
                     (projects m ++ [newProject])%list])).
  { intros m4 H4. unfold addProject. fold m1. rewrite Hup. cbn [bind].
    fold m3. rewrite H4. cbn [bind]. unfold saveProjects.
    rewrite Hps2, Hcfg2. reflexivity. }
  assert (Hhead : projects m = [] ->
            getOriginalIndexByDisplayIndex m3 (table.Cursor (table m3))
            = Ok (-1)).
  { intros Hemp. rewrite Hcur, Hemp. unfold getOriginalIndexByDisplayIndex.
    change (projectIndices m3) with (projectIndices m2). rewrite Hidx.
    reflexivity. }
  destruct (startEdit_cases m3 Hok3)
    as [[Hps He]|[(_ & Hl & _ & He)|(i & q & Hi & Hl & _ & Hq & He)]].
  - congruence.
  - eexists. split; [apply Hshape; exact He|].
    cbn [set_editRow set_editMode projects editMode editRow configFile
         table].
    repeat split; auto.
  - eexists. split; [apply Hshape; exact He|].
    unfold sessionOk.
    cbn [set_textInput set_editCol set_editRow set_editMode projects
         editMode editRow configFile table].
    repeat split; auto.
    intros Hemp. rewrite (Hhead Hemp) in Hl. injection Hl as <-. lia.
Qed.

(** X16.  The n and a keys: the new record is appended to the catalog, the
    catalog is written to the file, and a session is opened on whatever
    display row has the number of the new record's catalog index.  On an
    empty catalog that row is the header of the new record's category:
    the model is in edit mode and the session is on no record. *)
Theorem add_appends_and_opens_a_session start load navigate m key :
  key = "n" \/ key = "a" -> 0 <= scrollOffset m ->
  exists m',
    updateNormal start load navigate m key
    = Ok (m', showStatus "➕ New project added",
          [WriteFile (configFile m) (projects m ++ [newProject])%list]) /\
    projects m' = (projects m ++ [newProject])%list /\
    editMode m' = true /\
    table.Cursor (table m') = len (projects m) /\
    getOriginalIndexByDisplayIndex m' (table.Cursor (table m'))
    = Ok (editRow m') /\
    (projects m = [] -> editRow m' = -1 /\ ~ sessionOk m').
Proof.
  intros Hkey Hoff.
  destruct (addProject_runs m Hoff)
    as (m' & Hadd & Hps & _ & Hmode & _ & Hcur & Hl & _ & Hemp).
  exists m'. split.
  { destruct Hkey as [-> | ->]; exact Hadd. }
  repeat split; auto.
  unfold sessionOk. rewrite (Hemp H). lia.
Qed.

Lemma add_appends_and_opens_a_session_witness :
  exists m',
    updateNormal (fun _ => None) (fun _ => []) (fun t _ => (t, tea.Nil))
      (initModel "cfg" []) "n"
    = Ok (m', showStatus "➕ New project added",
          [WriteFile "cfg" [newProject]]) /\
    editMode m' = true /\ editRow m' = -1.
Proof.
  destruct (add_appends_and_opens_a_session
              (fun _ => None) (fun _ => []) (fun t _ => (t, tea.Nil))
              (initModel "cfg" []) "n")
    as (m' & Hup & _ & Hmode & _ & _ & Hemp);
    [left; reflexivity | vm_compute; discriminate |].
  exists m'. repeat split; auto. now apply Hemp.
Defined.

(* ===================================================================== *)
(** * One step of the event loop *)
(* ===================================================================== *)

Lemma relayout_frame m :
  0 <= scrollOffset m ->
  exists m', (m1 <- adjustLayout m ;; updateTable m1) = Ok m' /\
    ready m' /\ projects m' = projects m /\ configFile m' = configFile m.
Proof.
  intros Hoff.
  destruct (adjustLayout_frame m Hoff)
    as (m1 & H1 & Hoff1 & Hps1 & _ & _ & _ & _ & _ & Hcfg1).
  destruct (updateTable_frame m1 ltac:(lia))
    as (m2 & H2 & Hready & _ & Hps2 & _ & _ & _ & _ & Hcfg2 & _).
  exists m2. rewrite H1. cbn [bind]. repeat split; try apply Hready;
    congruence.
Qed.

Lemma onSelected_cases (run : Project -> list effect * tea.Cmd) m :
  indexMapOk m ->
  onSelected run m = Ok (m, tea.Nil, []) \/
  exists p,
    getProjectByDisplayIndex m (table.Cursor (table m)) = Ok (Some p) /\
    onSelected run m = Ok (m, snd (run p), fst (run p)).
Proof.
  intros Hok. unfold onSelected.
  destruct (len (projects m) >? 0); auto.
  destruct (lookup_cases m Hok (table.Cursor (table m)))
    as [[_ Hn]|(i & p & _ & Hg & _)].
  - rewrite Hn. auto.
  - right. exists p. split; auto. rewrite Hg. cbn [bind].
    destruct (run p). reflexivity.
Qed.

Lemma launchProject_starts start p :
  exists c, fst (launchProject start p) = [StartProcess c].
Proof. unfold launchProject. cbv zeta. eexists. reflexivity. Qed.

Lemma openProjectLink_starts start p :
  fst (openProjectLink start p) = [] \/
  exists c, fst (openProjectLink start p) = [StartProcess c].
Proof.
  unfold openProjectLink. destruct (Link p =? "")%string; auto.
  right. cbv zeta. destruct (start _); eexists; reflexivity.
Qed.

Lemma updateNormal_cases start load navigate m key :
  ready m ->
  exists m' cmd fx,
    updateNormal start load navigate m key = Ok (m', cmd, fx) /\
    normalStep load m key m' fx.
Proof.
  intros Hready. pose proof Hready as [Hoff Hok].
  assert (Hquiet : forall m' (cmd : tea.Cmd),
            ready m' -> configFile m' = configFile m ->
            projects m' = projects m ->
            exists m'' cmd' fx,
              Ok (m', cmd, @nil effect) = Ok (m'', cmd', fx) /\
              normalStep load m key m'' fx).
  { intros m' cmd H1 H2 H3. exists m', cmd, []. split; auto.
    split; auto. }
  assert (Hsel : forall run,
            In key [" "; "enter"; "o"] ->
            (forall p, fst (run p) = [] \/
                       exists c, fst (run p) = [StartProcess c]) ->
            exists m' cmd fx,
              onSelected run m = Ok (m', cmd, fx) /\
              normalStep load m key m' fx).
  { intros run Hkey Hrun.
    destruct (onSelected_cases run m Hok) as [->|(p & Hg & ->)].
    - apply Hquiet; auto.
    - destruct (Hrun p) as [Hfx|[c Hfx]]; rewrite Hfx.
      + apply Hquiet; auto.
      + exists m, (snd (run p)), [StartProcess c]. split; auto.
        split; [auto|]. split; [auto|]. right. left. split; auto.
        split; auto. exists p, c. auto. }
  unfold updateNormal.
  destruct (String.eqb_spec key "q") as [->|Hq];
    [cbn [orb]; apply Hquiet; auto|].
  destruct (String.eqb_spec key "ctrl+c") as [->|Hcc];
    [cbn [orb]; apply Hquiet; auto|].
  cbn [orb].
  destruct (String.eqb_spec key "e") as [->|He].
  { destruct (startEdit_cases m Hok)
      as [[_ ->]|[(_ & _ & _ & ->)|(i & p & _ & _ & _ & _ & ->)]];
      cbn [bind]; apply Hquiet; auto. }
  assert (Hadd : In key ["n"; "a"; "d"; "delete"] ->
            exists m' cmd fx,
              addProject m = Ok (m', cmd, fx) /\
              normalStep load m key m' fx).
  { intros Hkey.
    destruct (addProject_runs m Hoff)
      as (m' & -> & Hps & Hready' & _ & Hcfg & _).
    eexists. eexists. eexists. split; [reflexivity|].
    split; [auto|]. split; [auto|]. right. right. left. rewrite Hps.
    split; auto. }
  destruct (String.eqb_spec key "n") as [->|Hn];
    [cbn [orb]; apply Hadd; cbn; auto|].
  destruct (String.eqb_spec key "a") as [->|Ha];
    [cbn [orb]; apply Hadd; cbn; auto|].
  cbn [orb].
  assert (Hdel : In key ["n"; "a"; "d"; "delete"] ->
            exists m' cmd fx,
              deleteProject m = Ok (m', cmd, fx) /\
              normalStep load m key m' fx).
  { intros Hkey.
    destruct (lookup_cases m Hok (table.Cursor (table m)))
      as [[Hl _]|(i & p & _ & Hg & _)].
    - assert (Hd : deleteProject m = Ok (m, tea.Nil, [])).
      { unfold deleteProject. rewrite Hl. cbn [bind].
        destruct (len (projects m) >? 0); reflexivity. }
      rewrite Hd. apply Hquiet; auto.
    - destruct (deleteProject_record m p Hready Hg)
        as (i' & m' & _ & _ & -> & _ & _ & _ & Hready' & _ & Hcfg & _).
      eexists. eexists. eexists. split; [reflexivity|].
      split; [auto|]. split; [auto|]. right. right. left. split; auto. }
  destruct (String.eqb_spec key "d") as [->|Hd];
    [cbn [orb]; apply Hdel; cbn; auto|].
  destruct (String.eqb_spec key "delete") as [->|Hdl];
    [cbn [orb]; apply Hdel; cbn; auto|].
  cbn [orb].
  destruct (String.eqb_spec key " ") as [->|Hsp].
  { cbn [orb]. apply Hsel; [cbn; auto|].
    intros p. right. apply launchProject_starts. }
  destruct (String.eqb_spec key "enter") as [->|Hen].
  { cbn [orb]. apply Hsel; [cbn; auto|].
    intros p. right. apply launchProject_starts. }
  cbn [orb].
  destruct (String.eqb_spec key "r") as [->|Hr].
  { unfold refresh.
    destruct (updateTable_frame (set_projects m (load (configFile m))) Hoff)
      as (m' & -> & Hready' & _ & Hps & _ & _ & _ & _ & Hcfg & _).
    cbn [bind]. eexists. eexists. eexists. split; [reflexivity|].
    split; [auto|]. split; [auto|]. right. right. right. auto. }
  destruct (String.eqb_spec key "o") as [->|Ho].
  { apply Hsel; [cbn; auto|]. intros p. apply openProjectLink_starts. }
  destruct (String.eqb_spec key "left") as [->|Hl].
  { unfold scrollLeft. destruct (Z.gtb_spec (scrollOffset m) 0).
    - destruct (relayout_frame (set_scrollOffset m (scrollOffset m - 1)))
        as (m' & -> & Hready' & Hps & Hcfg);
        [cbn [set_scrollOffset scrollOffset]; lia|].
      cbn [bind]. apply Hquiet; auto.
    - cbn [bind]. apply Hquiet; auto. }
  destruct (String.eqb_spec key "right") as [->|Hri].
  { unfold scrollRight. cbv zeta. destruct (scrollOffset m <? _).
    - destruct (relayout_frame (set_scrollOffset m (scrollOffset m + 1)))
        as (m' & -> & Hready' & Hps & Hcfg);
        [cbn [set_scrollOffset scrollOffset]; lia|].
      cbn [bind]. apply Hquiet; auto.
    - cbn [bind]. apply Hquiet; auto. }
  destruct (navigate (table m) key) as [t cmd].
  apply Hquiet; auto.
Qed.

Lemma index_Panic {A : Type} (s : list A) (i : Z) :
  ~ 0 <= i < len s -> index s i = @Panic A.
Proof.
  intros Hi. destruct (index s i) as [v|] eqn:H; auto.
  apply index_range in H. contradiction.
Qed.

Lemma updateEdit_cases
  (forward : textinput.Model -> string -> textinput.Model * tea.Cmd) m key :
  ready m -> editMode m = true ->
  (updateEdit forward m key = Panic /\ ~ sessionOk m /\
   (key = "tab" \/ key = "shift+tab")) \/
  (exists m' cmd fx,
     updateEdit forward m key = Ok (m', cmd, fx) /\
     editStep m key m' fx /\
     (key = "tab" \/ key = "shift+tab" -> sessionOk m)).
Proof.
  intros Hready Hmode. pose proof Hready as [Hoff Hok].
  assert (Hdec : sessionOk m \/ ~ sessionOk m) by (unfold sessionOk; lia).
  assert (Hquiet : forall m' (cmd : tea.Cmd),
            ready m' -> configFile m' = configFile m ->
            projects m' = projects m ->
            (key = "tab" \/ key = "shift+tab" -> sessionOk m) ->
            exists m'' cmd' fx,
              Ok (m', cmd, @nil effect) = Ok (m'', cmd', fx) /\
              editStep m key m'' fx /\
              (key = "tab" \/ key = "shift+tab" -> sessionOk m)).
  { intros m' cmd H1 H2 H3 H4. exists m', cmd, []. split; [auto|].
    split; [|auto]. split; [auto|]. split; auto. }
  assert (Hmove : forall col,
            In key ["enter"; "tab"; "shift+tab"] ->
            (('(m1, fx) <- saveEdit m ;; m2 <- moveField m1 (col m1) ;;
              Ok (m2, tea.Nil, fx)) = Panic /\ ~ sessionOk m) \/
            (exists m' cmd fx,
               ('(m1, fx) <- saveEdit m ;; m2 <- moveField m1 (col m1) ;;
                Ok (m2, tea.Nil, fx)) = Ok (m', cmd, fx) /\
               editStep m key m' fx /\ sessionOk m)).
  { intros col Hkey. destruct Hdec as [Hs|Hs].
    - right.
      destruct (saveEdit_commits m Hoff Hmode Hs)
        as (p & m1 & Hp & -> & Hps & Hready1 & _ & Hr1 & _ & _ & Hcfg1).
      cbn [bind].
      assert (Hs1 : 0 <= editRow m1 < len (projects m1)).
      { rewrite Hr1, Hps. unfold len. rewrite replaceNth_length. exact Hs. }
      destruct (index_total _ _ Hs1) as [p1 Hp1].
      rewrite (moveField_Ok _ _ _ Hp1). cbn [bind].
      eexists. eexists. eexists. split; [reflexivity|].
      split; [|exact Hs]. split; [exact Hready1|]. split; [exact Hcfg1|].
      right. auto.
    - left. rewrite (saveEdit_skips m (or_intror Hs)). cbn [bind].
      split; [|exact Hs]. unfold moveField.
      cbn [set_editCol projects editRow].
      rewrite (index_Panic _ _ Hs). reflexivity. }
  unfold updateEdit.
  destruct (String.eqb_spec key "esc") as [->|Hesc].
  { apply or_intror, Hquiet; auto. intros [H|H]; discriminate. }
  destruct (String.eqb_spec key "enter") as [->|Hent].
  { right. destruct Hdec as [Hs|Hs].
    - destruct (saveEdit_commits m Hoff Hmode Hs)
        as (p & m1 & Hp & -> & Hps & Hready1 & _ & _ & _ & _ & Hcfg1).
      cbn [bind]. eexists. eexists. eexists. split; [reflexivity|].
      split; [|intros [H|H]; discriminate].
      split; [exact Hready1|]. split; [exact Hcfg1|].
      right. cbn. auto.
    - rewrite (saveEdit_skips m (or_intror Hs)). cbn [bind].
      exists (cancelEdit m), (showStatus "✅ Project updated"), [].
      split; [reflexivity|]. split; [|intros [H|H]; discriminate].
      split; [exact Hready|]. split; auto. }
  destruct (String.eqb_spec key "tab") as [->|Htab].
  { destruct (Hmove (fun m1 => Z.rem (editCol m1 + 1) 5))
      as [[Hp Hs]|(m' & cmd & fx & Hrun & Hstep & Hs)]; [cbn; auto| |].
    - left. auto.
    - right. exists m', cmd, fx. auto. }
  destruct (String.eqb_spec key "shift+tab") as [->|Hstab].
  { destruct (Hmove (fun m1 => Z.rem (editCol m1 - 1 + 5) 5))
      as [[Hp Hs]|(m' & cmd & fx & Hrun & Hstep & Hs)]; [cbn; auto| |].
    - left. auto.
    - right. exists m', cmd, fx. auto. }
  right. destruct (forward (textInput m) key) as [t cmd].
  apply Hquiet; auto. intros [H|H]; contradiction.
Qed.

(** Every step of [Update] from a ready model: it panics, in edit mode
    on no record at a field key, or it returns in one of the shapes. *)
Lemma Update_cases start load navigate forward now m msg :
  ready m ->
  (Update start load navigate forward now m msg = Panic /\
   editMode m = true /\ ~ sessionOk m /\
   (msg = KeyMsg "tab" \/ msg = KeyMsg "shift+tab")) \/
  (exists m' cmd fx,
     Update start load navigate forward now m msg = Ok (m', cmd, fx) /\
     stepShape load m msg m' fx /\
     (editMode m = true ->
      msg = KeyMsg "tab" \/ msg = KeyMsg "shift+tab" -> sessionOk m)).
Proof.
  intros Hready. pose proof Hready as [Hoff Hok].
  assert (Hquiet : forall m' (cmd : tea.Cmd),
            ready m' -> configFile m' = configFile m ->
            projects m' = projects m ->
            (editMode m = true ->
             msg = KeyMsg "tab" \/ msg = KeyMsg "shift+tab" -> sessionOk m) ->
            exists m'' cmd' fx,
              Ok (m', cmd, @nil effect) = Ok (m'', cmd', fx) /\
              stepShape load m msg m'' fx /\
              (editMode m = true ->
               msg = KeyMsg "tab" \/ msg = KeyMsg "shift+tab" ->
               sessionOk m)).
  { intros m' cmd H1 H2 H3 H4. exists m', cmd, []. split; [auto|].
    split; [|auto]. split; [auto|]. split; auto. }
  destruct msg as [text|w h|key|name]; cbn [Update].
  - right. apply Hquiet; auto. intros _ [H|H]; discriminate.
  - right. unfold windowSize.
    destruct (adjustLayout_frame (set_height (set_width m w) h) Hoff)
      as (m' & -> & Hoff' & Hps & Hidx & _ & _ & _ & _ & Hcfg).
    cbn [bind]. apply Hquiet; auto.
    + split; [lia|]. unfold indexMapOk. rewrite Hidx. exact Hok.
    + intros _ [H|H]; discriminate.
  - destruct (editMode m) eqn:Hmode.
    + destruct (updateEdit_cases forward m key Hready Hmode)
        as [(Hp & Hs & Hkey)|(m' & cmd & fx & Hrun & Hstep & Hs)].
      * left. repeat split; auto. destruct Hkey as [-> | ->]; auto.
      * right. exists m', cmd, fx. split; [exact Hrun|].
        destruct Hstep as (Hready' & Hcfg & Hshape).
        split.
        -- split; [exact Hready'|]. split; [exact Hcfg|].
           destruct Hshape as [Hq|(Hfx & Hsess & Hkey)]; [left; exact Hq|].
           right. right. left. split; [exact Hfx|]. exists key. auto.
        -- intros _ [H|H]; injection H as ->; auto.
    + right.
      destruct (updateNormal_cases start load navigate m key Hready)
        as (m' & cmd & fx & Hrun & Hready' & Hcfg & Hshape).
      exists m', cmd, fx. split; [exact Hrun|].
      split; [|discriminate].
      split; [exact Hready'|]. split; [exact Hcfg|].
      destruct Hshape
        as [Hq|[(Hm & Hkey & p & c & Hg & Hfx)|[(Hfx & Hkey)|
             (Hkey & Hps & Hfx)]]].
      * left. exact Hq.
      * right. left. split; [auto|]. split; [exact Hm|].
        exists key, p, c. auto.
      * right. right. left. split; [exact Hfx|]. exists key. auto.
      * right. right. right. subst key. auto.
  - right. destruct (editMode m) eqn:Hmode; cbn [negb].
    + apply Hquiet; auto. intros _ [H|H]; discriminate.
    + destruct (navigate (table m) name) as [t cmd].
      apply Hquiet; auto. discriminate.
Qed.

(** X17.  Among the messages that [Update] handles by the program's own
    code, without laying the columns out again and without handing the
    message to a widget, one situation makes it panic.  From a model
    whose scroll offset is not negative and whose index map holds no
    entry below [-1], such a message makes [Update] panic if and only if
    the model is in edit mode, the edit row is no index of the catalog,
    and the message is the tab or the shift+tab key. *)
Theorem Update_panics_only_in_a_session_on_no_record
  start load navigate forward now m msg :
  ready m -> handledHere m msg ->
  Update start load navigate forward now m msg = Panic <->
  editMode m = true /\ ~ sessionOk m /\
  (msg = KeyMsg "tab" \/ msg = KeyMsg "shift+tab").
Proof.
  intros Hready _.
  destruct (Update_cases start load navigate forward now m msg Hready)
    as [(Hp & Hrest)|(m' & cmd & fx & Hrun & _ & Hs)].
  - split; auto.
  - split; [rewrite Hrun; discriminate|].
    intros (Hmode & Hno & Hkey). exfalso. apply Hno. auto.
Qed.

Lemma Update_panics_only_in_a_session_on_no_record_witness :
  Update (fun _ => None) (fun _ => []) (fun t _ => (t, tea.Nil))
    (fun t _ => (t, tea.Nil)) 0 strandedModel (KeyMsg "tab") = Panic.
Proof.
  apply Update_panics_only_in_a_session_on_no_record.
  - split; [vm_compute; discriminate|constructor].
  - cbn. auto.
  - split; [reflexivity|]. split; [|auto].
    unfold sessionOk. vm_compute. intros [H _]. apply H. reflexivity.
Defined.

(** X18.  The invariant of the event loop: a step that returns leaves the
    scroll offset not negative and the index map without entry below
    [-1], and the path of the configuration file as it was. *)
Theorem Update_keeps_the_model_ready
  start load navigate forward now m msg m' cmd fx :
  ready m ->
  Update start load navigate forward now m msg = Ok (m', cmd, fx) ->
  ready m' /\ configFile m' = configFile m.
Proof.
  intros Hready Hrun.
  destruct (Update_cases start load navigate forward now m msg Hready)
    as [(Hp & _)|(m1 & cmd1 & fx1 & Hrun1 & (Hr & Hcfg & _) & _)];
    [congruence|].
  rewrite Hrun in Hrun1. injection Hrun1 as <- <- <-. auto.
Qed.

Lemma Update_keeps_the_model_ready_witness :
  exists m' cmd fx,
    Update (fun _ => None) (fun _ => []) (fun t _ => (t, tea.Nil))
      (fun t _ => (t, tea.Nil)) 0 selectedModel (KeyMsg "d")
    = Ok (m', cmd, fx) /\
    ready m' /\ projectIndices m' = [-1; 0; 1].
Proof.
  assert (Hready : ready selectedModel)
    by (split; [vm_compute; discriminate
               |vm_compute; repeat constructor; discriminate]).
  destruct (Update (fun _ => None) (fun _ => []) (fun t _ => (t, tea.Nil))
              (fun t _ => (t, tea.Nil)) 0 selectedModel (KeyMsg "d"))
    as [[[m' cmd] fx]|] eqn:Hrun; [|vm_compute in Hrun; discriminate].
  exists m', cmd, fx. split; [reflexivity|].
  destruct (Update_keeps_the_model_ready _ _ _ _ _ _ _ _ _ _ Hready Hrun)
    as [Hready' _].
  split; [exact Hready'|].
  vm_compute in Hrun. injection Hrun as <- _ _. reflexivity.
Defined.

(** X19.  The catalog changes only by its keys, and every change made in the
    program is written to the file.  When a step returns with another
    catalog than it was given, either the catalog of the new model has
    been written to the configuration file, by enter, tab or shift+tab in
    a session on a record or by n, a, d or delete in normal mode, or the
    catalog is what the r key read from that file. *)
Theorem catalog_changes_are_written
  start load navigate forward now m msg m' cmd fx :
  ready m ->
  Update start load navigate forward now m msg = Ok (m', cmd, fx) ->
  projects m' <> projects m ->
  (fx = [WriteFile (configFile m') (projects m')] /\
   exists key,
     msg = KeyMsg key /\
     ((editMode m = true /\ sessionOk m /\
       In key ["enter"; "tab"; "shift+tab"]) \/
      (editMode m = false /\ In key ["n"; "a"; "d"; "delete"]))) \/
  (editMode m = false /\ msg = KeyMsg "r" /\
   projects m' = load (configFile m) /\ fx = []).
Proof.
  intros Hready Hrun Hneq.
  destruct (Update_cases start load navigate forward now m msg Hready)
    as [(Hp & _)|(m1 & cmd1 & fx1 & Hrun1 & (Hr & Hcfg & Hshape) & _)];
    [congruence|].
  rewrite Hrun in Hrun1. injection Hrun1 as <- <- <-.
  destruct Hshape as [[Hq _]|[(_ & Hm & _)|[Hw|Hl]]].
  - contradiction.
  - subst m'. contradiction.
  - left. rewrite Hcfg. exact Hw.
  - right. exact Hl.
Qed.

Lemma catalog_changes_are_written_witness :
  exists m' cmd,
    Update (fun _ => None) (fun _ => []) (fun t _ => (t, tea.Nil))
      (fun t _ => (t, tea.Nil)) 0 selectedModel (KeyMsg "delete")
    = Ok (m', cmd, [WriteFile (configFile m') (projects m')]).
Proof.
  assert (Hready : ready selectedModel)
    by (split; [vm_compute; discriminate
               |vm_compute; repeat constructor; discriminate]).
  destruct (Update (fun _ => None) (fun _ => []) (fun t _ => (t, tea.Nil))
              (fun t _ => (t, tea.Nil)) 0 selectedModel (KeyMsg "delete"))
    as [[[m' cmd] fx]|] eqn:Hrun; [|vm_compute in Hrun; discriminate].
  exists m', cmd.
  assert (Hneq : projects m' <> projects selectedModel).
  { pose proof Hrun as Hc. vm_compute in Hc. injection Hc as <- _ _.
    vm_compute. discriminate. }
  destruct (catalog_changes_are_written _ _ _ _ _ _ _ _ _ _
              Hready Hrun Hneq) as [[Hfx _]|(_ & Hkey & _)].
  - rewrite Hfx. reflexivity.
  - discriminate.
Defined.

(** X20.  Whatever a step writes is the catalog of the model it returns, to
    the configuration file of that model, and it writes at most once. *)
Theorem every_write_stores_the_catalog
  start load navigate forward now m msg m' cmd fx f ps :
  ready m ->
  Update start load navigate forward now m msg = Ok (m', cmd, fx) ->
  In (WriteFile f ps) fx ->
  f = configFile m' /\ ps = projects m' /\ fx = [WriteFile f ps].
Proof.
  intros Hready Hrun Hin.
  destruct (Update_cases start load navigate forward now m msg Hready)
    as [(Hp & _)|(m1 & cmd1 & fx1 & Hrun1 & (Hr & Hcfg & Hshape) & _)];
    [congruence|].
  rewrite Hrun in Hrun1. injection Hrun1 as <- <- <-.
  destruct Hshape
    as [[_ Hfx]|[(_ & _ & k & p & c & _ & _ & _ & Hfx)|[[Hfx _]|
         (_ & _ & _ & Hfx)]]]; subst fx; cbn [In] in Hin.
  - contradiction.
  - destruct Hin as [H|[]]. discriminate.
  - destruct Hin as [H|[]]. injection H as <- <-. rewrite Hcfg. auto.
  - contradiction.
Qed.

Lemma every_write_stores_the_catalog_witness :
  exists m' cmd fx,
    Update (fun _ => None) (fun _ => []) (fun t _ => (t, tea.Nil))
      (fun t _ => (t, tea.Nil)) 0 editingModel (KeyMsg "enter")
    = Ok (m', cmd, fx) /\
    In (WriteFile "cfg" (projects m')) fx /\
    fx = [WriteFile "cfg" (projects m')].
Proof.
  assert (Hready : ready editingModel)
    by (split; [vm_compute; discriminate|constructor]).
  destruct (Update (fun _ => None) (fun _ => []) (fun t _ => (t, tea.Nil))
              (fun t _ => (t, tea.Nil)) 0 editingModel (KeyMsg "enter"))
    as [[[m' cmd] fx]|] eqn:Hrun; [|vm_compute in Hrun; discriminate].
  exists m', cmd, fx. split; [reflexivity|].
  assert (Hin : In (WriteFile "cfg" (projects m')) fx).
  { pose proof Hrun as Hc. vm_compute in Hc. injection Hc as <- _ <-.
    left. reflexivity. }
  split; [exact Hin|].
  apply (every_write_stores_the_catalog _ _ _ _ _ _ _ _ _ _ _ _
           Hready Hrun Hin).
Defined.

(** X21.  Processes are started by the launch keys only.  A step that starts
    a process was in normal mode, on the space, enter or o key, with the
    row under the cursor resolving to a record; it starts one process and
    returns the model it was given. *)
Theorem processes_start_only_on_launch_keys
  start load navigate forward now m msg m' cmd fx c :
  ready m ->
  Update start load navigate forward now m msg = Ok (m', cmd, fx) ->
  In (StartProcess c) fx ->
  editMode m = false /\ m' = m /\ fx = [StartProcess c] /\
  exists key p,
    msg = KeyMsg key /\ In key [" "; "enter"; "o"] /\
    getProjectByDisplayIndex m (table.Cursor (table m)) = Ok (Some p).
Proof.
  intros Hready Hrun Hin.
  destruct (Update_cases start load navigate forward now m msg Hready)
    as [(Hp & _)|(m1 & cmd1 & fx1 & Hrun1 & (Hr & Hcfg & Hshape) & _)];
    [congruence|].
  rewrite Hrun in Hrun1. injection Hrun1 as <- <- <-.
  destruct Hshape
    as [[_ Hfx]|[(Hmode & Hm & k & p & c' & Hk & Hkey & Hg & Hfx)|[[Hfx _]|
         (_ & _ & _ & Hfx)]]]; subst fx; cbn [In] in Hin.
  - contradiction.
  - destruct Hin as [H|[]]. injection H as <-.
    repeat split; auto. exists k, p. auto.
  - destruct Hin as [H|[]]. discriminate.
  - contradiction.
Qed.

Lemma processes_start_only_on_launch_keys_witness :
  exists cmd c,
    Update (fun _ => None) (fun _ => []) (fun t _ => (t, tea.Nil))
      (fun t _ => (t, tea.Nil)) 0 selectedModel (KeyMsg " ")
    = Ok (selectedModel, cmd, [StartProcess c]) /\
    exec.Dir c = "/srv/Beta".
Proof.
  assert (Hready : ready selectedModel)
    by (split; [vm_compute; discriminate
               |vm_compute; repeat constructor; discriminate]).
  destruct (Update (fun _ => None) (fun _ => []) (fun t _ => (t, tea.Nil))
              (fun t _ => (t, tea.Nil)) 0 selectedModel (KeyMsg " "))
    as [[[m' cmd] fx]|] eqn:Hrun; [|vm_compute in Hrun; discriminate].
  assert (Hfx : exists c, fx = [StartProcess c] /\ exec.Dir c = "/srv/Beta").
  { pose proof Hrun as Hc. vm_compute in Hc. injection Hc as _ _ <-.
    eexists. split; reflexivity. }
  destruct Hfx as (c & Hfx & Hdir).
  assert (Hin : In (StartProcess c) fx) by (rewrite Hfx; left; reflexivity).
  destruct (processes_start_only_on_launch_keys _ _ _ _ _ _ _ _ _ _ _
              Hready Hrun Hin) as (_ & -> & -> & _).
  exists cmd, c. auto.
Defined.

(* ===================================================================== *)
(** * Scrolling there and back *)
(* ===================================================================== *)

Lemma model_ext (a b : model) :
  sameSession a b ->
  table.cols (table a) = table.cols (table b) ->
  table.rows (table a) = table.rows (table b) ->
  table.height (table a) = table.height (table b) ->
  scrollOffset a = scrollOffset b -> maxCols a = maxCols b ->
  projectIndices a = projectIndices b ->
  a = b.
Proof.
  destruct a as [ps t em er ec ti cf w h sm se off mc idx].
  destruct b as [ps' t' em' er' ec' ti' cf' w' h' sm' se' off' mc' idx'].
  destruct t as [c r cu hg]. destruct t' as [c' r' cu' hg'].
  unfold sameSession. cbn.
  intros (-> & -> & -> & -> & -> & -> & -> & -> & -> & -> & ->).
  intros -> -> -> -> -> ->. reflexivity.
Qed.

Lemma sameSession_refl a : sameSession a a.
Proof. unfold sameSession. repeat split. Qed.

Lemma sameSession_trans a b c :
  sameSession a b -> sameSession b c -> sameSession a c.
Proof.
  unfold sameSession.
  intros (H1 & H2 & H3 & H4 & H5 & H6 & H7 & H8 & H9 & H10 & H11)
         (G1 & G2 & G3 & G4 & G5 & G6 & G7 & G8 & G9 & G10 & G11).
  repeat split; congruence.
Qed.

(** [adjustLayout] as a function of the pane and the offset: what it
    leaves alone, and that models of one pane and offset get the same
    columns, height and offset. *)
Lemma adjustLayout_pane a :
  0 <= scrollOffset a ->
  exists a', adjustLayout a = Ok a' /\ sameSession a' a /\
    table.rows (table a') = table.rows (table a) /\
    projectIndices a' = projectIndices a /\
    maxCols a' = 5 /\
    0 <= scrollOffset a' /\
    scrollOffset a' + len (table.Columns (table a')) <= 5 /\
    (scrollOffset a + len (table.Columns (table a')) <= 5 ->
     scrollOffset a' = scrollOffset a) /\
    forall b,
      width b = width a -> height b = height a ->
      scrollOffset b = scrollOffset a ->
      exists b', adjustLayout b = Ok b' /\
        table.cols (table b') = table.cols (table a') /\
        table.height (table b') = table.height (table a') /\
        scrollOffset b' = scrollOffset a'.
Proof.
  intros Hoff.
  destruct (adjustLayout_closed a Hoff)
    as (v & columns & out & extra & Hvc & Hv & Hlen & Hout & Hn & Hex & Heq).
  eexists. split; [exact Heq|].
  pose proof (clamped_offset a v) as Hoff'.
  set (a1 := if scrollOffset a + v >? 5
             then set_scrollOffset a (5 - v) else a) in *.
  assert (Hsame : sameSession a1 a /\ table a1 = table a /\
                  projectIndices a1 = projectIndices a).
  { subst a1. destruct (_ >? 5); repeat split. }
  destruct Hsame as (Hsame & Ht & Hidx).
  assert (Hcols : len (if extra >? 0 then widenLast out extra else out) = v).
  { unfold len. destruct (extra >? 0); rewrite ?widenLast_length; lia. }
  split.
  { destruct Hsame as (H1 & H2 & H3 & H4 & H5 & H6 & H7 & H8 & H9 & H10 & _).
    unfold sameSession, set_maxCols, set_table, table.SetHeight,
      table.SetColumns.
    cbn [projects editMode editRow editCol textInput configFile width
         height statusMsg statusExpiry table table.cursor].
    repeat split; auto. }
  unfold set_maxCols, set_table, table.SetHeight, table.SetColumns,
    table.Columns.
  cbn [table table.cols table.rows table.cursor table.height scrollOffset
       maxCols projectIndices].
  rewrite Hcols, Hoff'.
  repeat split; auto; try lia.
  intros b Hw Hh Hob.
  assert (Hoffb : 0 <= scrollOffset b) by lia.
  destruct (adjustLayout_closed b Hoffb)
    as (v' & columns' & out' & extra' & Hvc' & _ & _ & Hout' & _ & Hex' & Heq').
  rewrite Hw in Hvc'. rewrite <- Hvc in Hvc'. injection Hvc' as -> ->.
  rewrite Hob in Hout'. rewrite <- Hout in Hout'. subst out'.
  rewrite Hw in Hex'. rewrite <- Hex in Hex'. subst extra'.
  eexists. split; [exact Heq'|].
  pose proof (clamped_offset b v) as Hoffb'.
  unfold set_maxCols, set_table, table.SetHeight, table.SetColumns.
  cbn [table table.cols table.rows table.cursor table.height scrollOffset].
  rewrite Hoffb', Hob, Hh. auto.
Qed.

(** [updateTable]: what it leaves alone, and that it rebuilds the same
    rows for models of one catalog, offset and columns. *)
Lemma updateTable_pane a :
  0 <= scrollOffset a ->
  exists a', updateTable a = Ok a' /\ sameSession a' a /\
    table.cols (table a') = table.cols (table a) /\
    table.height (table a') = table.height (table a) /\
    scrollOffset a' = scrollOffset a /\ maxCols a' = maxCols a /\
    forall b,
      projects b = projects a -> scrollOffset b = scrollOffset a ->
      table.cols (table b) = table.cols (table a) ->
      exists b', updateTable b = Ok b' /\
        table.rows (table b') = table.rows (table a') /\
        projectIndices b' = projectIndices a'.
Proof.
  intros Hoff. unfold updateTable.
  destruct (tableRows_total (table a) (scrollOffset a) Hoff
              (getSortedProjects a) "" 0) as (rows & idx & Hrows).
  rewrite Hrows. cbn [bind]. eexists. split; [reflexivity|].
  split; [unfold sameSession; repeat split|].
  repeat split.
  intros b Hps Hob Hcols.
  assert (Hs : getSortedProjects b = getSortedProjects a)
    by (unfold getSortedProjects; now rewrite Hps).
  rewrite Hs, Hob, (tableRows_cols _ _ _ Hcols), Hrows. cbn [bind].
  eexists. split; [reflexivity|]. split; reflexivity.
Qed.

(** X22.  Scrolling right and back left.  On a model that is laid out and
    projected, in which the right key scrolls, the right key moves the
    window of columns one column on, and the left key then returns
    the model the scrolling began with, equal in every field of the
    embedding. *)
Theorem scroll_right_then_left start load navigate m :
  settled m -> 0 <= scrollOffset m ->
  scrollOffset m < maxCols m - len (table.Columns (table m)) ->
  exists m1,
    updateNormal start load navigate m "right" = Ok (m1, tea.Nil, []) /\
    scrollOffset m1 = scrollOffset m + 1 /\
    settled m1 /\
    updateNormal start load navigate m1 "left" = Ok (m, tea.Nil, []).
Proof.
  intros [Hlay Hproj] Hoff Hcan.
  (* what being laid out and projected says of [m] *)
  destruct (adjustLayout_pane m Hoff)
    as (m0 & H0 & _ & _ & _ & Hmax & _ & _ & _ & Hpane).
  assert (m0 = m) by congruence. subst m0.
  destruct (updateTable_pane m Hoff)
    as (m0 & H0' & _ & _ & _ & _ & _ & Hrows).
  assert (m0 = m) by congruence. subst m0.
  rewrite Hmax in Hcan.
  (* the right key *)
  set (ma := set_scrollOffset m (scrollOffset m + 1)).
  assert (Hoffa : 0 <= scrollOffset ma) by (cbn; lia).
  destruct (adjustLayout_pane ma Hoffa)
    as (a1 & Ha1 & Hs1 & Hr1 & Hi1 & Hmax1 & Hoff1 & Hfit1 & Hkeep1 & Hpane1).
  destruct (updateTable_pane a1 Hoff1)
    as (m1 & Hm1 & Hs2 & Hc2 & Hh2 & Ho2 & Hmx2 & Hrows1).
  (* the fit count is that of [m]: the width is the same *)
  assert (Hv : len (table.Columns (table a1)) = len (table.Columns (table m))).
  { destruct (adjustLayout_closed ma Hoffa)
      as (v & columns & out & extra & Hvc & _ & _ & _ & Hn & _ & Heq).
    destruct (adjustLayout_closed m Hoff)
      as (v' & columns' & out' & extra' & Hvc' & Hv' & _ & _ & Hn' & _ & Heq').
    change (width ma) with (width m) in Hvc. rewrite <- Hvc' in Hvc.
    injection Hvc as -> ->.
    rewrite Heq in Ha1. injection Ha1 as <-.
    rewrite Heq' in Hlay. injection Hlay as Hlay.
    assert (Hcm : len (table.Columns (table m)) = v').
    { rewrite <- Hlay at 1. unfold table.Columns, len.
      cbn [set_maxCols set_table table table.SetHeight table.SetColumns
           table.cols].
      destruct (extra' >? 0); rewrite ?widenLast_length; lia. }
    rewrite Hcm. unfold table.Columns, len.
    cbn [set_maxCols set_table table table.SetHeight table.SetColumns
         table.cols].
    destruct (extra >? 0); rewrite ?widenLast_length; lia. }
  assert (Hoffa1 : scrollOffset a1 = scrollOffset m + 1).
  { rewrite Hkeep1; [reflexivity|]. change (scrollOffset ma)
      with (scrollOffset m + 1). rewrite Hv. lia. }
  assert (Hright : scrollRight m = Ok m1).
  { unfold scrollRight. cbv zeta. rewrite Hmax.
    destruct (Z.ltb_spec (5 - len (table.Columns (table m))) 0); [lia|].
    destruct (Z.ltb_spec (scrollOffset m)
                (5 - len (table.Columns (table m)))); [|lia].
    fold ma. rewrite Ha1. cbn [bind]. exact Hm1. }
  exists m1.
  assert (Hom1 : scrollOffset m1 = scrollOffset m + 1) by congruence.
  split.
  { unfold updateNormal. cbn [String.eqb Ascii.eqb Bool.eqb orb].
    rewrite Hright. reflexivity. }
  split; [exact Hom1|].
  (* [m1] is laid out and projected *)
  assert (Hset1 : settled m1).
  { split.
    - destruct (Hpane1 m1) as (b' & Hb & Hbc & Hbh & Hbo).
      + destruct Hs2 as (_ & _ & _ & _ & _ & _ & Hw & _).
        destruct Hs1 as (_ & _ & _ & _ & _ & _ & Hw' & _). congruence.
      + destruct Hs2 as (_ & _ & _ & _ & _ & _ & _ & Hh & _).
        destruct Hs1 as (_ & _ & _ & _ & _ & _ & _ & Hh' & _). congruence.
      + change (scrollOffset ma) with (scrollOffset m + 1). exact Hom1.
      + rewrite Hb. f_equal.
        destruct (adjustLayout_pane m1 ltac:(lia))
          as (b2 & Hb2 & Hsb & Hrb & Hib & Hmb & _).
        assert (b2 = b') by congruence. subst b2.
        apply model_ext; auto; congruence.
    - destruct (Hrows1 m1) as (b' & Hb & Hbr & Hbi); auto.
      + destruct Hs2 as (Hp & _). exact Hp.
      + rewrite Hb. f_equal.
        destruct (updateTable_pane m1 ltac:(lia))
          as (b2 & Hb2 & Hsb & Hcb & Hhb & Hob & Hmb & _).
        assert (b2 = b') by congruence. subst b2.
        apply model_ext; auto. }
  split; [exact Hset1|].
  (* the left key *)
  set (mb := set_scrollOffset m1 (scrollOffset m1 - 1)).
  assert (Hsmb : sameSession mb m).
  { apply (sameSession_trans _ m1); [unfold sameSession; repeat split|].
    apply (sameSession_trans _ a1); [exact Hs2|].
    apply (sameSession_trans _ ma); [exact Hs1|].
    unfold sameSession; repeat split. }
  assert (Hob : scrollOffset mb = scrollOffset m) by (cbn; lia).
  destruct (Hpane mb) as (a2 & Ha2 & Hc2' & Hh2' & Ho2').
  { destruct Hsmb as (_ & _ & _ & _ & _ & _ & Hw & _). exact Hw. }
  { destruct Hsmb as (_ & _ & _ & _ & _ & _ & _ & Hh & _). exact Hh. }
  { exact Hob. }
  destruct (adjustLayout_pane mb ltac:(lia))
    as (a2' & Ha2' & Hsa2 & Hra2 & Hia2 & Hma2 & _).
  assert (a2' = a2) by congruence. subst a2'.
  destruct (Hrows a2) as (m2 & Hm2 & Hr2 & Hi2).
  { destruct Hsa2 as (Hp & _). destruct Hsmb as (Hp' & _). congruence. }
  { exact Ho2'. }
  { exact Hc2'. }
  destruct (updateTable_pane a2 ltac:(lia))
    as (m2' & Hm2' & Hsm2 & Hcm2 & Hhm2 & Hom2 & Hmm2 & _).
  assert (m2' = m2) by congruence. subst m2'.
  assert (Hfinal : m2 = m).
  { apply model_ext; try congruence.
    apply (sameSession_trans _ a2); [exact Hsm2|].
    apply (sameSession_trans _ mb); [exact Hsa2|exact Hsmb]. }
  unfold updateNormal. cbn [String.eqb Ascii.eqb Bool.eqb orb].
  unfold scrollLeft.
  destruct (Z.gtb_spec (scrollOffset m1) 0); [|lia].
  fold mb. rewrite Ha2. cbn [bind]. rewrite Hm2. cbn [bind].
  rewrite Hfinal. reflexivity.
Qed.

Lemma scroll_right_then_left_witness :
  exists m1,
    updateNormal (fun _ => None) (fun _ => []) (fun t _ => (t, tea.Nil))
      settledModel "right" = Ok (m1, tea.Nil, []) /\
    scrollOffset m1 = 1 /\
    updateNormal (fun _ => None) (fun _ => []) (fun t _ => (t, tea.Nil))
      m1 "left" = Ok (settledModel, tea.Nil, []).
Proof.
  destruct (scroll_right_then_left
              (fun _ => None) (fun _ => []) (fun t _ => (t, tea.Nil))
              settledModel)
    as (m1 & Hr & Ho & _ & Hl).
  - split; vm_compute; reflexivity.
  - vm_compute. discriminate.
  - vm_compute. reflexivity.
  - exists m1. repeat split; auto.
Defined.

(* ===================================================================== *)
(** * [sort.Slice] sorts *)
(* ===================================================================== *)

Section SortSorts.

Context {A : Type}.
Variable zero : A.
Variable less : A -> A -> bool.
Hypothesis less_swo : strictWeakOrder less.

Local Open Scope nat_scope.

Lemma less_irrefl u : less u u = false.
Proof. apply less_swo. Qed.

Lemma less_trans u v w : less u v = true -> less v w = true -> less u w = true.
Proof. apply less_swo. Qed.

Lemma less_asym u v : less u v = true -> less v u = false.
Proof.
  intros H. destruct (less v u) eqn:H'; auto.
  pose proof (less_trans _ _ _ H H') as Hc. rewrite less_irrefl in Hc.
  discriminate.
Qed.

Lemma notless_trans u v w : less v u = false -> less w v = false -> less w u = false.
Proof.
  intros H1 H2. destruct (less w u) eqn:H; auto.
  destruct less_swo as (_ & _ & Hn).
  destruct (Hn _ v _ H); congruence.
Qed.

Lemma less_notless_trans u v w : less u v = true -> less w v = false -> less u w = true.
Proof.
  intros H1 H2. destruct less_swo as (_ & _ & Hn).
  destruct (Hn _ w _ H1); congruence.
Qed.

Lemma notless_less_trans u v w : less v u = false -> less v w = true -> less u w = true.
Proof.
  intros H1 H2. destruct less_swo as (_ & _ & Hn).
  destruct (Hn _ u _ H2); congruence.
Qed.

Lemma notless_refl u : less u u = false.
Proof. apply less_irrefl. Qed.

(** ** Reading a slice after a swap *)

Lemma nth_update : forall (x : list A) i v k,
  i < List.length x ->
  (nth k (sort.update x i v) zero) = if k =? i then v else (nth k x zero).
Proof.
  induction x as [|h x IH]; intros [|i] v [|k] Hi; simpl in *; try lia; auto.
  apply IH. lia.
Qed.

Lemma nth_Swap (x : list A) i j k :
  i < List.length x -> j < List.length x ->
  (nth k (sort.Swap x i j) zero)
  = if k =? i then (nth j x zero) else if k =? j then (nth i x zero) else (nth k x zero).
Proof.
  intros Hi Hj. unfold sort.Swap.
  destruct (nth_error x i) as [vi|] eqn:Ei;
    [|apply nth_error_None in Ei; lia].
  destruct (nth_error x j) as [vj|] eqn:Ej;
    [|apply nth_error_None in Ej; lia].
  rewrite nth_update by (rewrite update_length; lia).
  rewrite nth_update by lia.
  rewrite (nth_error_nth _ _ zero Ei), (nth_error_nth _ _ zero Ej).
  destruct (Nat.eqb_spec k j), (Nat.eqb_spec k i); subst; auto.
  congruence.
Qed.

Lemma Less_nth (x : list A) i j :
  sort.Less zero less x i j = less (nth i x zero) (nth j x zero).
Proof. reflexivity. Qed.

(** ** Moving inside a range *)

Lemma movedIn_refl x a b : movedIn zero x x a b.
Proof. repeat split; auto. intros k Hk. exists k. auto. Qed.

Lemma movedIn_trans x y z a b :
  movedIn zero x y a b -> movedIn zero y z a b -> movedIn zero x z a b.
Proof.
  intros (L1 & O1 & I1) (L2 & O2 & I2). split; [congruence|]. split.
  - intros k Hk. rewrite O2, O1; auto.
  - intros k Hk. destruct (I2 k Hk) as (k1 & Hk1 & ->).
    destruct (I1 k1 Hk1) as (k2 & Hk2 & ->). eauto.
Qed.

Lemma movedIn_widen x y a b a' b' :
  a' <= a -> b <= b' -> movedIn zero x y a b -> movedIn zero x y a' b'.
Proof.
  intros Ha Hb (L & O & I). split; auto. split.
  - intros k Hk. apply O. lia.
  - intros k Hk. destruct (Nat.lt_ge_cases k a) as [H|H].
    { exists k. split; [lia|apply O; lia]. }
    destruct (Nat.lt_ge_cases k b) as [H'|H'].
    + destruct (I k ltac:(lia)) as (k' & Hk' & ->). exists k'.
      split; [lia|reflexivity].
    + exists k. split; [lia|apply O; lia].
Qed.

Lemma movedIn_Swap x a b i j :
  a <= i < b -> a <= j < b -> b <= List.length x ->
  movedIn zero x (sort.Swap x i j) a b.
Proof.
  intros Hi Hj Hb. split; [apply Swap_length|]. split.
  - intros k Hk. rewrite nth_Swap by lia.
    destruct (Nat.eqb_spec k i); [lia|].
    destruct (Nat.eqb_spec k j); [lia|]. reflexivity.
  - intros k Hk. rewrite nth_Swap by lia.
    destruct (Nat.eqb_spec k i); [exists j; auto|].
    destruct (Nat.eqb_spec k j); [exists i; auto|]. exists k; auto.
Qed.

(** A bound on the elements of the range is a bound after the move. *)
Lemma movedIn_bound (P : A -> Prop) x y a b :
  movedIn zero x y a b ->
  (forall k, a <= k < b -> P (nth k x zero)) -> forall k, a <= k < b -> P (nth k y zero).
Proof.
  intros (_ & _ & I) H k Hk. destruct (I k Hk) as (k' & Hk' & ->). auto.
Qed.

Lemma movedIn_predOk x y a b :
  movedIn zero x y a b -> predOk zero less x a b -> predOk zero less y a b.
Proof.
  intros Hm Hp Ha k Hk. destruct Hm as (_ & O & I).
  rewrite (O (a - 1)) by lia.
  destruct (I k Hk) as (k' & Hk' & ->). apply Hp; auto.
Qed.

Lemma predOk_sub x a b b' : b' <= b -> predOk zero less x a b ->
  predOk zero less x a b'.
Proof. intros Hb Hp Ha k Hk. apply Hp; auto. lia. Qed.

(** Sorted ranges from sorted neighbours. *)
Lemma sortedIn_adjacent x a b :
  (forall k, a <= k -> S k < b -> less (nth (S k) x zero) (nth k x zero) = false) ->
  sortedIn zero less x a b.
Proof.
  intros H i j Hi Hij Hj.
  induction j as [|j IH]; [lia|].
  destruct (Nat.eq_dec i j) as [->|Hne].
  - apply H; lia.
  - eapply notless_trans; [apply IH; lia|apply H; lia].
Qed.

Lemma sortedIn_moved_outside x y a b c d :
  movedIn zero x y c d -> (d <= a \/ b <= c) ->
  sortedIn zero less x a b -> sortedIn zero less y a b.
Proof.
  intros (_ & O & _) Hd Hs i j Hi Hij Hj.
  rewrite (O i), (O j) by lia. apply Hs; auto.
Qed.

(** ** insertionSort_func *)

Ltac swap_cases :=
  repeat (rewrite nth_Swap by lia);
  repeat match goal with
         | |- context [Nat.eqb ?a ?b] => destruct (Nat.eqb_spec a b)
         end;
  subst; try lia.

Lemma insertionInner_sorts : forall j x a i,
  a <= j <= i -> i < List.length x ->
  sortedIn zero less x a j ->
  sortedIn zero less x j (i + 1) ->
  (forall p q, a <= p < j -> j < q <= i -> less (nth q x zero) (nth p x zero) = false) ->
  movedIn zero x (sort.insertionInner zero less x a j) a (i + 1) /\
  sortedIn zero less (sort.insertionInner zero less x a j) a (i + 1).
Proof.
  induction j as [|j IH]; intros x a i Hj Hi H1 H2 H3;
    cbn [sort.insertionInner].
  - split; [apply movedIn_refl|]. assert (a = 0) by lia. subst a. exact H2.
  - destruct (Nat.ltb_spec a (S j)) as [Ha|Ha]; cbn [andb].
    + rewrite Less_nth. destruct (less (nth (S j) x zero) (nth j x zero)) eqn:Hless.
      * destruct (IH (sort.Swap x (S j) j) a i) as [Hm Hs].
        -- lia.
        -- rewrite Swap_length. lia.
        -- intros p q Hp Hpq Hq. swap_cases. apply H1; lia.
        -- intros p q Hp Hpq Hq. swap_cases;
             first [apply less_asym; assumption | apply H2; lia
                   | apply H3; lia].
        -- intros p q Hp Hq. swap_cases;
             first [apply H1; lia | apply H3; lia].
        -- split; [|exact Hs].
           eapply movedIn_trans; [|exact Hm].
           apply movedIn_Swap; lia.
      * split; [apply movedIn_refl|].
        intros p q Hp Hpq Hq.
        destruct (Nat.lt_ge_cases q (S j)) as [Hq1|Hq1]; [apply H1; lia|].
        destruct (Nat.lt_ge_cases p (S j)) as [Hp1|Hp1]; [|apply H2; lia].
        destruct (Nat.eq_dec q (S j)) as [->|Hq2]; [|apply H3; lia].
        destruct (Nat.eq_dec p j) as [->|Hp2]; [exact Hless|].
        apply (notless_trans _ (nth j x zero)); [apply H1; lia|exact Hless].
    + split; [apply movedIn_refl|].
      intros p q Hp Hpq Hq. apply H2; lia.
Qed.

Lemma insertionOuter_sorts : forall n x a i,
  a <= i -> i + n <= List.length x ->
  sortedIn zero less x a i ->
  movedIn zero x (sort.insertionOuter zero less x a i n) a (i + n) /\
  sortedIn zero less (sort.insertionOuter zero less x a i n) a (i + n).
Proof.
  induction n as [|n IH]; intros x a i Ha Hlen Hs;
    cbn [sort.insertionOuter].
  - rewrite Nat.add_0_r. split; [apply movedIn_refl|exact Hs].
  - destruct (insertionInner_sorts i x a i) as [Hm1 Hs1];
      [lia | lia | exact Hs | intros p q Hp Hpq Hq; lia
      | intros p q Hp Hq; lia |].
    destruct (IH (sort.insertionInner zero less x a i) a (S i)) as [Hm2 Hs2].
    + lia.
    + destruct Hm1 as (-> & _). lia.
    + replace (S i) with (i + 1) by lia. exact Hs1.
    + replace (i + S n) with (S i + n) by lia. split; [|exact Hs2].
      eapply movedIn_trans; [|exact Hm2].
      eapply movedIn_widen; [| |exact Hm1]; lia.
Qed.

Lemma insertionSort_sorts x a b :
  a <= b <= List.length x ->
  movedIn zero x (sort.insertionSort zero less x a b) a b /\
  sortedIn zero less (sort.insertionSort zero less x a b) a b.
Proof.
  intros Hab. unfold sort.insertionSort.
  destruct (Nat.le_gt_cases b (a + 1)) as [Hb|Hb].
  - replace (b - (a + 1)) with 0 by lia. cbn [sort.insertionOuter].
    split; [apply movedIn_refl|]. intros p q Hp Hpq Hq. lia.
  - destruct (insertionOuter_sorts (b - (a + 1)) x a (a + 1)) as [Hm Hs];
      [lia | lia | intros p q Hp Hpq Hq; lia |].
    replace (a + 1 + (b - (a + 1))) with b in * by lia. auto.
Qed.

(** ** partition_func and partitionEqual_func *)

Lemma scanUp_spec : forall n x a i,
  i <= sort.scanUp zero less x a i n <= i + n /\
  (forall k, i <= k < sort.scanUp zero less x a i n ->
     less (nth k x zero) (nth a x zero) = true) /\
  (sort.scanUp zero less x a i n < i + n ->
   less (nth (sort.scanUp zero less x a i n) x zero) (nth a x zero) = false).
Proof.
  induction n as [|n IH]; intros x a i; cbn [sort.scanUp].
  - (split; [lia|split]; [intros k Hk|intros Hk]; first [lia|assumption]).
  - rewrite Less_nth. destruct (less (nth i x zero) (nth a x zero)) eqn:Hl.
    + destruct (IH x a (S i)) as (Hb & Hlo & Hstop).
      split; [lia|split].
      * intros k Hk. destruct (Nat.eq_dec k i) as [->|Hne]; auto.
        apply Hlo. lia.
      * intros Hlt. apply Hstop. lia.
    + (split; [lia|split]; [intros k Hk|intros Hk]; first [lia|assumption]).
Qed.

Lemma scanDown_spec : forall n x a j,
  j - n <= sort.scanDown zero less x a j n <= j /\
  (forall k, sort.scanDown zero less x a j n < k <= j ->
     less (nth k x zero) (nth a x zero) = false) /\
  (j - n < sort.scanDown zero less x a j n ->
   less (nth (sort.scanDown zero less x a j n) x zero) (nth a x zero) = true).
Proof.
  induction n as [|n IH]; intros x a j; cbn [sort.scanDown].
  - (split; [lia|split]; [intros k Hk|intros Hk]; first [lia|assumption]).
  - rewrite Less_nth. destruct (less (nth j x zero) (nth a x zero)) eqn:Hl; cbn [negb].
    + (split; [lia|split]; [intros k Hk|intros Hk]; first [lia|assumption]).
    + destruct (IH x a (j - 1)) as (Hb & Hhi & Hstop).
      split; [lia|split].
      * intros k Hk. destruct (Nat.eq_dec k j) as [->|Hne]; auto.
        apply Hhi. lia.
      * intros Hlt. apply Hstop. lia.
Qed.

Lemma partitionLoop_spec : forall n x a b i j,
  a < i -> i <= j + 1 -> j < b -> b <= List.length x -> j + 1 - i <= n ->
  (forall k, a < k < i -> less (nth k x zero) (nth a x zero) = true) ->
  (forall k, j < k < b -> less (nth k x zero) (nth a x zero) = false) ->
  let r := sort.partitionLoop zero less x a i j n in
  movedIn zero x (fst r) (a + 1) b /\
  a <= snd r < b /\
  (forall k, a < k <= snd r -> less (nth k (fst r) zero) (nth a x zero) = true) /\
  (forall k, snd r < k < b -> less (nth k (fst r) zero) (nth a x zero) = false).
Proof.
  induction n as [|n IH]; intros x a b i j Hai Hij Hjb Hb Hn Hlo Hhi;
    cbn [sort.partitionLoop];
    destruct (scanUp_spec (j + 1 - i) x a i) as (Hi1 & Hup & Hupstop);
    set (i1 := sort.scanUp zero less x a i (j + 1 - i)) in *;
    destruct (scanDown_spec (j + 1 - i1) x a j) as (Hj1 & Hdn & Hdnstop);
    set (j1 := sort.scanDown zero less x a j (j + 1 - i1)) in *;
    clearbody j1; clearbody i1;
    assert (Hdone : j1 < i1 ->
              movedIn zero x x (a + 1) b /\ a <= j1 < b /\
              (forall k, a < k <= j1 -> less (nth k x zero) (nth a x zero) = true) /\
              (forall k, j1 < k < b -> less (nth k x zero) (nth a x zero) = false))
      by (intros Hlt; split; [apply movedIn_refl|]; split; [lia|]; split;
          intros k Hk;
          [destruct (Nat.lt_ge_cases k i); [apply Hlo|apply Hup]; lia
          |destruct (Nat.lt_ge_cases j k); [apply Hhi|apply Hdn]; lia]);
    (destruct (Nat.ltb_spec j1 i1) as [Hlt|Hge];
     [cbv zeta; cbn [fst snd]; exact (Hdone Hlt)|cbv zeta; cbn [fst snd]]).
  - exfalso. lia.
  - assert (Hi1j : less (nth i1 x zero) (nth a x zero) = false) by (apply Hupstop; lia).
    assert (Hj1i : less (nth j1 x zero) (nth a x zero) = true) by (apply Hdnstop; lia).
    assert (Hne : i1 <> j1) by (intros He; rewrite He in Hi1j; congruence).
    destruct (IH (sort.Swap x i1 j1) a b (S i1) (j1 - 1)) as (Hm & Hr & Hl & Hh).
    + lia.
    + lia.
    + lia.
    + rewrite Swap_length. lia.
    + lia.
    + intros k Hk. swap_cases;
        first [assumption
              |destruct (Nat.lt_ge_cases k i); [apply Hlo|apply Hup]; lia].
    + intros k Hk. swap_cases;
        first [assumption
              |destruct (Nat.lt_ge_cases j k); [apply Hhi|apply Hdn]; lia].
    + assert (Ha : (nth a (sort.Swap x i1 j1) zero) = (nth a x zero)) by (swap_cases; reflexivity).
      rewrite Ha in Hl, Hh.
      split; [|split; [lia|split; assumption]].
      eapply movedIn_trans; [|exact Hm]. apply movedIn_Swap; lia.
Qed.

Lemma partition_spec x a b pivot :
  a <= pivot < b -> b <= List.length x ->
  let r := sort.partition zero less x a b pivot in
  let y := fst (fst r) in
  let mid := snd (fst r) in
  movedIn zero x y a b /\ a <= mid < b /\ (nth mid y zero) = (nth pivot x zero) /\
  (forall k, a <= k < mid -> less (nth k y zero) (nth mid y zero) = true) /\
  (forall k, mid < k < b -> less (nth k y zero) (nth mid y zero) = false).
Proof.
  intros Hp Hb.
  set (x0 := sort.Swap x a pivot).
  assert (Hm0 : movedIn zero x x0 a b) by (apply movedIn_Swap; lia).
  assert (Hx0 : (nth a x0 zero) = (nth pivot x zero)) by (unfold x0; swap_cases; reflexivity).
  assert (Hlen0 : List.length x0 = List.length x) by apply Swap_length.
  assert (Hshape : fst (sort.partition zero less x a b pivot)
                   = (let r := sort.partitionLoop zero less x0 a (a + 1)
                                 (b - 1) (S (b - a)) in
                      (sort.Swap (fst r) (snd r) a, snd r))).
  { unfold sort.partition. fold x0. cbn [sort.partitionLoop].
    destruct (Nat.ltb _ _); [reflexivity|].
    destruct (sort.partitionLoop _ _ _ _ _ _ _) as [x2 j2]. reflexivity. }
  destruct (partitionLoop_spec (S (b - a)) x0 a b (a + 1) (b - 1))
    as (Hm & Hr & Hl & Hh);
    [lia | lia | lia | rewrite Hlen0; lia | lia | intros k Hk; lia
    | intros k Hk; lia |].
  cbv zeta. rewrite Hshape. cbv zeta. cbn [fst snd].
  set (r := sort.partitionLoop zero less x0 a (a + 1) (b - 1) (S (b - a)))
    in *.
  destruct r as [x2 j2]. cbn [fst snd] in *.
  assert (Hlen2 : List.length x2 = List.length x)
    by (destruct Hm as (-> & _); exact Hlen0).
  assert (Hx2a : (nth a x2 zero) = (nth pivot x zero)).
  { destruct Hm as (_ & O & _). rewrite O by lia. exact Hx0. }
  rewrite Hx0 in Hl, Hh.
  split.
  { eapply movedIn_trans; [exact Hm0|].
    eapply movedIn_trans;
      [eapply movedIn_widen; [| |exact Hm]; lia|].
    apply movedIn_Swap; lia. }
  split; [lia|].
  assert (Hmid : (nth j2 (sort.Swap x2 j2 a) zero) = (nth pivot x zero))
    by (swap_cases; first [reflexivity | assumption]).
  rewrite Hmid. split; [reflexivity|]. split.
  - intros k Hk. swap_cases; apply Hl; lia.
  - intros k Hk. swap_cases; apply Hh; lia.
Qed.

Lemma scanUpEq_spec : forall n x a i,
  i <= sort.scanUpEq zero less x a i n <= i + n /\
  (forall k, i <= k < sort.scanUpEq zero less x a i n ->
     less (nth a x zero) (nth k x zero) = false) /\
  (sort.scanUpEq zero less x a i n < i + n ->
   less (nth a x zero) (nth (sort.scanUpEq zero less x a i n) x zero) = true).
Proof.
  induction n as [|n IH]; intros x a i; cbn [sort.scanUpEq].
  - (split; [lia|split]; [intros k Hk|intros Hk]; first [lia|assumption]).
  - rewrite Less_nth. destruct (less (nth a x zero) (nth i x zero)) eqn:Hl; cbn [negb].
    + (split; [lia|split]; [intros k Hk|intros Hk]; first [lia|assumption]).
    + destruct (IH x a (S i)) as (Hb & Hlo & Hstop).
      split; [lia|split].
      * intros k Hk. destruct (Nat.eq_dec k i) as [->|Hne]; auto.
        apply Hlo. lia.
      * intros Hlt. apply Hstop. lia.
Qed.

Lemma scanDownEq_spec : forall n x a j,
  j - n <= sort.scanDownEq zero less x a j n <= j /\
  (forall k, sort.scanDownEq zero less x a j n < k <= j ->
     less (nth a x zero) (nth k x zero) = true) /\
  (j - n < sort.scanDownEq zero less x a j n ->
   less (nth a x zero) (nth (sort.scanDownEq zero less x a j n) x zero) = false).
Proof.
  induction n as [|n IH]; intros x a j; cbn [sort.scanDownEq].
  - (split; [lia|split]; [intros k Hk|intros Hk]; first [lia|assumption]).
  - rewrite Less_nth. destruct (less (nth a x zero) (nth j x zero)) eqn:Hl.
    + destruct (IH x a (j - 1)) as (Hb & Hhi & Hstop).
      split; [lia|split].
      * intros k Hk. destruct (Nat.eq_dec k j) as [->|Hne]; auto.
        apply Hhi. lia.
      * intros Hlt. apply Hstop. lia.
    + (split; [lia|split]; [intros k Hk|intros Hk]; first [lia|assumption]).
Qed.

Lemma partitionEqualLoop_spec : forall n x a b i j,
  a < i -> i <= j + 1 -> j < b -> b <= List.length x -> j + 1 - i <= n ->
  (forall k, a < k < i -> less (nth a x zero) (nth k x zero) = false) ->
  (forall k, j < k < b -> less (nth a x zero) (nth k x zero) = true) ->
  let r := sort.partitionEqualLoop zero less x a i j n in
  movedIn zero x (fst r) (a + 1) b /\
  a < snd r <= b /\
  (forall k, a < k < snd r -> less (nth a x zero) (nth k (fst r) zero) = false) /\
  (forall k, snd r <= k < b -> less (nth a x zero) (nth k (fst r) zero) = true).
Proof.
  induction n as [|n IH]; intros x a b i j Hai Hij Hjb Hb Hn Hlo Hhi;
    cbn [sort.partitionEqualLoop];
    destruct (scanUpEq_spec (j + 1 - i) x a i) as (Hi1 & Hup & Hupstop);
    set (i1 := sort.scanUpEq zero less x a i (j + 1 - i)) in *;
    destruct (scanDownEq_spec (j + 1 - i1) x a j) as (Hj1 & Hdn & Hdnstop);
    set (j1 := sort.scanDownEq zero less x a j (j + 1 - i1)) in *;
    clearbody j1; clearbody i1;
    assert (Hdone : j1 < i1 ->
              movedIn zero x x (a + 1) b /\ a < i1 <= b /\
              (forall k, a < k < i1 -> less (nth a x zero) (nth k x zero) = false) /\
              (forall k, i1 <= k < b -> less (nth a x zero) (nth k x zero) = true))
      by (intros Hlt; split; [apply movedIn_refl|]; split; [lia|]; split;
          intros k Hk;
          [destruct (Nat.lt_ge_cases k i); [apply Hlo|apply Hup]; lia
          |destruct (Nat.lt_ge_cases j k); [apply Hhi|apply Hdn]; lia]);
    (destruct (Nat.ltb_spec j1 i1) as [Hlt|Hge];
     [cbv zeta; cbn [fst snd]; exact (Hdone Hlt)|cbv zeta; cbn [fst snd]]).
  - exfalso. lia.
  - assert (Hi1j : less (nth a x zero) (nth i1 x zero) = true) by (apply Hupstop; lia).
    assert (Hj1i : less (nth a x zero) (nth j1 x zero) = false) by (apply Hdnstop; lia).
    assert (Hne : i1 <> j1) by (intros He; rewrite He in Hi1j; congruence).
    destruct (IH (sort.Swap x i1 j1) a b (S i1) (j1 - 1)) as (Hm & Hr & Hl & Hh).
    + lia.
    + lia.
    + lia.
    + rewrite Swap_length. lia.
    + lia.
    + intros k Hk. swap_cases;
        first [assumption
              |destruct (Nat.lt_ge_cases k i); [apply Hlo|apply Hup]; lia].
    + intros k Hk. swap_cases;
        first [assumption
              |destruct (Nat.lt_ge_cases j k); [apply Hhi|apply Hdn]; lia].
    + assert (Ha : (nth a (sort.Swap x i1 j1) zero) = (nth a x zero)) by (swap_cases; reflexivity).
      rewrite Ha in Hl, Hh.
      split; [|split; [lia|split; assumption]].
      eapply movedIn_trans; [|exact Hm]. apply movedIn_Swap; lia.
Qed.

Lemma partitionEqual_spec x a b pivot :
  a <= pivot < b -> b <= List.length x ->
  let r := sort.partitionEqual zero less x a b pivot in
  movedIn zero x (fst r) a b /\ a < snd r <= b /\
  (forall k, a <= k < snd r -> less (nth pivot x zero) (nth k (fst r) zero) = false) /\
  (forall k, snd r <= k < b -> less (nth pivot x zero) (nth k (fst r) zero) = true).
Proof.
  intros Hp Hb. unfold sort.partitionEqual.
  set (x0 := sort.Swap x a pivot).
  assert (Hm0 : movedIn zero x x0 a b) by (apply movedIn_Swap; lia).
  assert (Hx0 : (nth a x0 zero) = (nth pivot x zero)) by (unfold x0; swap_cases; reflexivity).
  assert (Hlen0 : List.length x0 = List.length x) by apply Swap_length.
  destruct (partitionEqualLoop_spec (b - a) x0 a b (a + 1) (b - 1))
    as (Hm & Hr & Hl & Hh);
    [lia | lia | lia | rewrite Hlen0; lia | lia | intros k Hk; lia
    | intros k Hk; lia |].
  cbv zeta.
  set (r := sort.partitionEqualLoop zero less x0 a (a + 1) (b - 1) (b - a))
    in *.
  destruct r as [x2 i2]. cbn [fst snd] in *.
  rewrite Hx0 in Hl, Hh.
  split.
  { eapply movedIn_trans; [exact Hm0|].
    eapply movedIn_widen; [| |exact Hm]; lia. }
  split; [lia|]. split; [|exact Hh].
  intros k Hk. destruct (Nat.eq_dec k a) as [->|Hne]; [|apply Hl; lia].
  destruct Hm as (_ & O & _). rewrite O by lia. rewrite Hx0.
  apply less_irrefl.
Qed.

(** ** reverseRange_func, breakPatterns_func, choosePivot_func *)

Lemma reverseLoop_moved : forall n x i j a b,
  a <= i -> j < b -> b <= List.length x ->
  movedIn zero x (sort.reverseLoop x i j n) a b.
Proof.
  induction n as [|n IH]; intros x i j a b Hi Hj Hb; cbn [sort.reverseLoop].
  - apply movedIn_refl.
  - destruct (Nat.ltb_spec i j); [|apply movedIn_refl].
    eapply movedIn_trans; [apply (movedIn_Swap x a b i j); lia|].
    apply IH; try lia. rewrite Swap_length. lia.
Qed.

Lemma reverseRange_moved x a b :
  a < b -> b <= List.length x ->
  movedIn zero x (sort.reverseRange x a b) a b.
Proof. intros Hab Hb. apply reverseLoop_moved; lia. Qed.

Lemma size_nat_size n : sort.bitsLen n = N.to_nat (N.size (N.of_nat n)).
Proof.
  unfold sort.bitsLen. destruct (N.of_nat n) as [|p]; [reflexivity|].
  cbn [N.size_nat N.size]. induction p as [p IH|p IH|]; cbn; try lia.
Qed.

(** [nextPowerOfTwo(length)] is above [length] and at most its double. *)
Lemma nextPowerOfTwo_bounds length :
  0 < length ->
  (N.of_nat length < sort.nextPowerOfTwo length <= 2 * N.of_nat length)%N.
Proof.
  intros Hl. unfold sort.nextPowerOfTwo. rewrite size_nat_size, N2Nat.id.
  pose proof (N.size_gt (N.of_nat length)) as Hgt.
  pose proof (N.size_le (N.of_nat length)) as Hle.
  split; [exact Hgt|].
  rewrite N.size_log2 in * by lia.
  rewrite N.pow_succ_r' in *. rewrite N.succ_double_spec in Hle. lia.
Qed.

Lemma breakLoop_moved : forall n x a b length idx modulus random i,
  length = b - a -> 0 < length -> b <= List.length x ->
  (N.of_nat length < modulus <= 2 * N.of_nat length)%N ->
  a <= idx - 1 + i -> idx - 1 + i + n <= b ->
  movedIn zero x (sort.breakLoop x a length idx modulus random i n) a b.
Proof.
  induction n as [|n IH]; intros x a b length idx modulus random i
    Hl Hpos Hb Hmod Hlo Hhi; cbn [sort.breakLoop].
  - apply movedIn_refl.
  - set (r := sort.xorshiftNext random).
    set (other0 := N.to_nat (N.land r (modulus - 1))).
    assert (Ho : other0 < 2 * length).
    { unfold other0. pose proof (N.land_le_r r (modulus - 1)). lia. }
    set (other := if length <=? other0 then other0 - length else other0).
    assert (Ho' : other < length).
    { unfold other. destruct (Nat.leb_spec length other0); lia. }
    eapply movedIn_trans;
      [apply (movedIn_Swap x a b (idx - 1 + i) (a + other)); lia|].
    replace (idx - 1 + S i) with (S (idx - 1 + i)) in * by lia.
    apply IH; auto; try lia. rewrite Swap_length. lia.
Qed.

Lemma quarter l : 8 <= l -> 2 <= l / 4 /\ 4 * (l / 4) <= l.
Proof.
  intros Hl. split.
  - apply Nat.div_le_lower_bound; lia.
  - apply Nat.Div0.mul_div_le.
Qed.

Lemma breakPatterns_moved x a b :
  a <= b <= List.length x ->
  movedIn zero x (sort.breakPatterns x a b) a b.
Proof.
  intros Hab. unfold sort.breakPatterns.
  destruct (Nat.leb_spec 8 (b - a)) as [Hl|]; [|apply movedIn_refl].
  destruct (quarter _ Hl) as [Hq1 Hq2].
  apply breakLoop_moved; try lia.
  apply nextPowerOfTwo_bounds. lia.
Qed.

Lemma order2_in x a b swaps :
  let r := sort.order2 zero less x a b swaps in
  (fst (fst r) = a /\ snd (fst r) = b) \/ (fst (fst r) = b /\ snd (fst r) = a).
Proof. unfold sort.order2. destruct (sort.Less _ _ _ _ _); cbn; auto. Qed.

Lemma median_in x a b c swaps :
  let r := sort.median zero less x a b c swaps in
  fst r = a \/ fst r = b \/ fst r = c.
Proof.
  unfold sort.median.
  pose proof (order2_in x a b swaps) as H1.
  destruct (sort.order2 zero less x a b swaps) as [[a1 b1] s1].
  pose proof (order2_in x b1 c s1) as H2.
  destruct (sort.order2 zero less x b1 c s1) as [[b2 c2] s2].
  pose proof (order2_in x a1 b2 s2) as H3.
  destruct (sort.order2 zero less x a1 b2 s2) as [[a3 b3] s3].
  cbn in *. intuition congruence.
Qed.

Lemma choosePivot_bounds x a b :
  8 <= b - a -> a <= fst (sort.choosePivot zero less x a b) < b.
Proof.
  intros Hl. unfold sort.choosePivot. cbv zeta.
  destruct (Nat.leb_spec 8 (b - a)) as [_|]; [|lia].
  set (q := (b - a) / 4).
  assert (Hq : 2 <= q /\ 4 * q <= b - a) by (apply quarter; lia).
  clearbody q.
  assert (Hin : forall i j k s,
            a + q - 1 <= i <= a + q * 3 + 1 ->
            a + q - 1 <= j <= a + q * 3 + 1 ->
            a + q - 1 <= k <= a + q * 3 + 1 ->
            a <= fst (sort.median zero less x i j k s) < b).
  { intros i j k s Hi Hj Hk.
    pose proof (median_in x i j k s) as H. cbv zeta in H. lia. }
  assert (Hadj : forall i s,
            a + q <= i <= a + q * 3 ->
            a + q - 1 <= fst (sort.medianAdjacent zero less x i s)
              <= a + q * 3 + 1).
  { intros i s Hi. unfold sort.medianAdjacent.
    pose proof (median_in x (i - 1) i (i + 1) s) as H. cbv zeta in H. lia. }
  assert (Hres : forall j s,
            a <= j < b ->
            a <= fst (if s =? 0 then (j, sort.increasingHint)
                      else if s =? sort.maxSwaps then (j, sort.decreasingHint)
                      else (j, sort.unknownHint)) < b).
  { intros j s Hj. destruct (s =? 0); [exact Hj|].
    destruct (s =? sort.maxSwaps); exact Hj. }
  destruct (Nat.leb_spec sort.shortestNinther (b - a)).
  - pose proof (Hadj (a + q * 1) 0 ltac:(lia)) as Hi.
    destruct (sort.medianAdjacent zero less x (a + q * 1) 0) as [i s1].
    pose proof (Hadj (a + q * 2) s1 ltac:(lia)) as Hj.
    destruct (sort.medianAdjacent zero less x (a + q * 2) s1) as [j s2].
    pose proof (Hadj (a + q * 3) s2 ltac:(lia)) as Hk.
    destruct (sort.medianAdjacent zero less x (a + q * 3) s2) as [k s3].
    cbn [fst] in *.
    pose proof (Hin i j k s3 Hi Hj Hk) as Hm.
    destruct (sort.median zero less x i j k s3) as [j' s4].
    apply Hres. exact Hm.
  - pose proof (Hin (a + q * 1) (a + q * 2) (a + q * 3) 0
                  ltac:(lia) ltac:(lia) ltac:(lia)) as Hm.
    destruct (sort.median zero less x (a + q * 1) (a + q * 2) (a + q * 3) 0)
      as [j' s4].
    apply Hres. exact Hm.
Qed.

(** ** partialInsertionSort_func *)

Lemma scanSorted_spec : forall n x i,
  i <= sort.scanSorted zero less x i n <= i + n /\
  (forall k, i <= k < sort.scanSorted zero less x i n ->
     less (nth k x zero) (nth (k - 1) x zero) = false) /\
  (sort.scanSorted zero less x i n < i + n ->
   less (nth (sort.scanSorted zero less x i n) x zero)
        (nth (sort.scanSorted zero less x i n - 1) x zero) = true).
Proof.
  induction n as [|n IH]; intros x i; cbn [sort.scanSorted].
  - (split; [lia|split]; [intros k Hk|intros Hk]; first [lia|assumption]).
  - rewrite Less_nth. destruct (less (nth i x zero) (nth (i - 1) x zero)) eqn:Hl; cbn [negb].
    + (split; [lia|split]; [intros k Hk|intros Hk]; first [lia|assumption]).
    + destruct (IH x (S i)) as (Hb & Hlo & Hstop).
      split; [lia|split].
      * intros k Hk. destruct (Nat.eq_dec k i) as [->|Hne]; auto.
        apply Hlo. lia.
      * intros Hlt. apply Hstop. lia.
Qed.

(** The loop that shifts to the left has no bound but index [1]: it
    stops at the range because the element before the range is less than
    none of it. *)
Lemma shiftLeft_sorts : forall j x a i,
  a <= j <= i -> i < List.length x ->
  sortedIn zero less x a j ->
  sortedIn zero less x j (i + 1) ->
  (forall p q, a <= p < j -> j < q <= i -> less (nth q x zero) (nth p x zero) = false) ->
  predOk zero less x a (i + 1) ->
  movedIn zero x (sort.shiftLeft zero less x j) a (i + 1) /\
  sortedIn zero less (sort.shiftLeft zero less x j) a (i + 1).
Proof.
  induction j as [|j IH]; intros x a i Hj Hi H1 H2 H3 Hpred;
    cbn [sort.shiftLeft].
  - split; [apply movedIn_refl|]. assert (a = 0) by lia. subst a. exact H2.
  - rewrite Less_nth. destruct (less (nth (S j) x zero) (nth j x zero)) eqn:Hless; cbn [negb].
    + assert (Ha : a < S j).
      { destruct (Nat.eq_dec a (S j)) as [->|]; [|lia].
        specialize (Hpred ltac:(lia) (S j) ltac:(lia)).
        replace (S j - 1) with j in Hpred by lia. congruence. }
      destruct (IH (sort.Swap x (S j) j) a i) as [Hm Hs].
      * lia.
      * rewrite Swap_length. lia.
      * intros p q Hp Hpq Hq. swap_cases. apply H1; lia.
      * intros p q Hp Hpq Hq. swap_cases;
          first [apply less_asym; assumption | apply H2; lia
                | apply H3; lia].
      * intros p q Hp Hq. swap_cases;
          first [apply H1; lia | apply H3; lia].
      * apply (movedIn_predOk x); [apply movedIn_Swap; lia|exact Hpred].
      * split; [|exact Hs].
        eapply movedIn_trans; [|exact Hm].
        apply movedIn_Swap; lia.
    + split; [apply movedIn_refl|].
      intros p q Hp Hpq Hq.
      destruct (Nat.lt_ge_cases q (S j)) as [Hq1|Hq1]; [apply H1; lia|].
      destruct (Nat.lt_ge_cases p (S j)) as [Hp1|Hp1]; [|apply H2; lia].
      destruct (Nat.eq_dec q (S j)) as [->|Hq2]; [|apply H3; lia].
      destruct (Nat.eq_dec p j) as [->|Hp2]; [exact Hless|].
      apply (notless_trans _ (nth j x zero)); [apply H1; lia|exact Hless].
Qed.

Lemma shiftRight_moved : forall n x j c b,
  c < j -> j + n <= b -> b <= List.length x ->
  movedIn zero x (sort.shiftRight zero less x j n) c b.
Proof.
  induction n as [|n IH]; intros x j c b Hc Hn Hb; cbn [sort.shiftRight].
  - apply movedIn_refl.
  - destruct (negb _); [apply movedIn_refl|].
    eapply movedIn_trans; [apply (movedIn_Swap x c b j (j - 1)); lia|].
    apply IH; try lia. rewrite Swap_length. lia.
Qed.

Lemma sortedIn_extend x a i i1 :
  a <= i -> i <= i1 ->
  sortedIn zero less x a i ->
  (forall k, i <= k < i1 -> less (nth k x zero) (nth (k - 1) x zero) = false) ->
  a < i ->
  sortedIn zero less x a i1.
Proof.
  intros Ha Hi Hs Hadj Hai. apply sortedIn_adjacent. intros k Hk Hk1.
  destruct (Nat.lt_ge_cases (S k) i) as [H|H].
  - apply Hs; lia.
  - specialize (Hadj (S k) ltac:(lia)).
    replace (S k - 1) with k in Hadj by lia. exact Hadj.
Qed.

Lemma partialInsertionLoop_spec : forall steps x a b i,
  a < i <= b -> b <= List.length x ->
  sortedIn zero less x a i -> predOk zero less x a b ->
  let r := sort.partialInsertionLoop zero less x a b i steps in
  movedIn zero x (fst r) a b /\
  (snd r = true -> sortedIn zero less (fst r) a b).
Proof.
  induction steps as [|steps IH]; intros x a b i Hi Hb Hs Hpred;
    cbn [sort.partialInsertionLoop].
  - cbn. split; [apply movedIn_refl|discriminate].
  - destruct (scanSorted_spec (b - i) x i) as (Hi1 & Hadj & Hstop).
    set (i1 := sort.scanSorted zero less x i (b - i)) in *. clearbody i1.
    assert (Hs1 : sortedIn zero less x a i1)
      by (apply (sortedIn_extend x a i i1); auto; lia).
    destruct (Nat.eqb_spec i1 b) as [->|Hne].
    { cbn. split; [apply movedIn_refl|auto]. }
    destruct (Nat.ltb_spec (b - a) sort.shortestShifting).
    { cbn. split; [apply movedIn_refl|discriminate]. }
    set (x1 := sort.Swap x i1 (i1 - 1)).
    assert (Hm1 : movedIn zero x x1 a b) by (apply movedIn_Swap; lia).
    assert (Hlen1 : List.length x1 = List.length x) by apply Swap_length.
    set (x2 := if 2 <=? i1 - a then sort.shiftLeft zero less x1 (i1 - 1)
               else x1).
    assert (H2 : movedIn zero x1 x2 a i1 /\ sortedIn zero less x2 a i1).
    { unfold x2. destruct (Nat.leb_spec 2 (i1 - a)).
      - replace i1 with (i1 - 1 + 1) at 2 4 by lia.
        apply shiftLeft_sorts.
        + lia.
        + lia.
        + intros p q Hp Hpq Hq. unfold x1. swap_cases. apply Hs1; lia.
        + intros p q Hp Hpq Hq. lia.
        + intros p q Hp Hq. lia.
        + replace (i1 - 1 + 1) with i1 by lia.
          apply (predOk_sub _ _ b); [lia|].
          apply (movedIn_predOk x); auto.
      - split; [apply movedIn_refl|]. intros p q Hp Hpq Hq. lia. }
    destruct H2 as [Hm2 Hs2].
    assert (Hlen2 : List.length x2 = List.length x)
      by (destruct Hm2 as (-> & _); exact Hlen1).
    set (x3 := if 2 <=? b - i1
               then sort.shiftRight zero less x2 (i1 + 1) (b - (i1 + 1))
               else x2).
    assert (Hm3 : movedIn zero x2 x3 i1 b).
    { unfold x3. destruct (Nat.leb_spec 2 (b - i1)); [|apply movedIn_refl].
      apply shiftRight_moved; lia. }
    assert (Hm : movedIn zero x x3 a b).
    { eapply movedIn_trans; [exact Hm1|].
      eapply movedIn_trans;
        [eapply movedIn_widen; [| |exact Hm2]; lia|].
      eapply movedIn_widen; [| |exact Hm3]; lia. }
    destruct (IH x3 a b i1) as [Hm4 Hs4].
    + lia.
    + destruct Hm as (-> & _). exact Hb.
    + apply (sortedIn_moved_outside x2 x3 a i1 i1 b); auto.
    + apply (movedIn_predOk x); auto.
    + cbv zeta. split; [|exact Hs4].
      eapply movedIn_trans; [exact Hm|exact Hm4].
Qed.

Lemma partialInsertionSort_spec x a b :
  a < b -> b <= List.length x -> predOk zero less x a b ->
  let r := sort.partialInsertionSort zero less x a b in
  movedIn zero x (fst r) a b /\
  (snd r = true -> sortedIn zero less (fst r) a b).
Proof.
  intros Hab Hb Hpred. unfold sort.partialInsertionSort.
  apply partialInsertionLoop_spec; auto; try lia.
  intros p q Hp Hpq Hq. lia.
Qed.

(** ** heapSort_func *)

Lemma siftDown_spec : forall fuel x root hi first lo y,
  lo <= root -> first + hi <= List.length x ->
  heapBut zero less x first lo hi root ->
  sort.siftDown zero less fuel x root hi first = Some y ->
  movedIn zero x y first (first + hi) /\ heapFrom zero less y first lo hi.
Proof.
  induction fuel as [|fuel IH]; intros x root hi first lo y Hlo Hlen
    [Hi Hii] Hrun; cbn [sort.siftDown] in Hrun; [discriminate|].
  cbv zeta in Hrun.
  destruct (Nat.leb_spec hi (2 * root + 1)) as [Hleaf|Hchild].
  { injection Hrun as <-. split; [apply movedIn_refl|].
    intros p c Hp Hc Hpc. apply Hi; auto. lia. }
  set (child := if (2 * root + 1 + 1 <? hi) &&
                   sort.Less zero less x (first + (2 * root + 1))
                     (first + (2 * root + 1) + 1)
                then 2 * root + 1 + 1 else 2 * root + 1) in *.
  assert (Hch : (child = 2 * root + 1 \/ child = 2 * root + 2) /\
                child < hi /\
                forall c, c < hi -> c = 2 * root + 1 \/ c = 2 * root + 2 ->
                  less (nth (first + child) x zero) (nth (first + c) x zero) = false).
  { unfold child. rewrite Less_nth.
    replace (first + (2 * root + 1) + 1) with (first + (2 * root + 2)) by lia.
    destruct (Nat.ltb_spec (2 * root + 1 + 1) hi) as [H2|H2]; cbn [andb].
    - destruct (less (nth (first + (2 * root + 1)) x zero) (nth (first + (2 * root + 2)) x zero))
        eqn:Hl.
      + split; [right; lia|]. split; [lia|].
        intros c Hc [-> | ->].
        * replace (2 * root + 1 + 1) with (2 * root + 2) by lia.
          now apply less_asym.
        * replace (2 * root + 1 + 1) with (2 * root + 2) by lia.
          apply notless_refl.
      + split; [left; lia|]. split; [lia|].
        intros c Hc [-> | ->]; [apply notless_refl|exact Hl].
    - split; [left; lia|]. split; [lia|].
      intros c Hc [-> | ->]; [apply notless_refl|lia]. }
  clearbody child. destruct Hch as (Hch & Hchi & Hmax).
  rewrite Less_nth in Hrun.
  destruct (less (nth (first + root) x zero) (nth (first + child) x zero)) eqn:Hl;
    cbn [negb] in Hrun.
  - set (x1 := sort.Swap x (first + root) (first + child)) in *.
    assert (Hlen1 : first + hi <= List.length x1)
      by (unfold x1; rewrite Swap_length; exact Hlen).
    assert (Hb1 : heapBut zero less x1 first lo hi child).
    { split.
      * intros p c Hp Hc Hpc Hne. unfold x1. swap_cases;
          first [apply less_asym; assumption
                | apply Hmax; lia
                | apply (Hii p child); lia
                | apply Hi; lia].
      * intros g c Hg Hc Hr Hcc. unfold x1. swap_cases;
          first [apply Hi; lia | apply Hmax; lia]. }
    destruct (IH x1 child hi first lo y ltac:(lia) Hlen1 Hb1 Hrun)
      as [Hm Hh].
    split; [|exact Hh].
    eapply movedIn_trans; [|exact Hm]. apply movedIn_Swap; lia.
  - injection Hrun as <-. split; [apply movedIn_refl|].
    intros p c Hp Hc Hpc.
    destruct (Nat.eq_dec p root) as [->|Hne]; [|apply Hi; auto].
    apply (notless_trans _ (nth (first + child) x zero)); [apply Hmax; lia|exact Hl].
Qed.

Lemma heapBuild_spec : forall i x hi first y,
  first + hi <= List.length x ->
  heapFrom zero less x first (i + 1) hi ->
  sort.heapBuild zero less x hi first i = Some y ->
  movedIn zero x y first (first + hi) /\ heapFrom zero less y first 0 hi.
Proof.
  induction i as [|i IH]; intros x hi first y Hlen Hh Hrun;
    cbn [sort.heapBuild] in Hrun;
    destruct (sort.siftDown zero less (S hi) x _ hi first) as [x'|] eqn:Hs;
    try discriminate;
    (apply siftDown_spec with (lo := i1) in Hs; auto) || idtac.
  - injection Hrun as <-.
    apply (siftDown_spec _ _ _ _ _ 0) in Hs; auto.
    split; [|intros g c Hg Hc Hr Hcc; lia].
    intros p c Hp Hc Hpc Hne. apply Hh; auto. lia.
  - apply (siftDown_spec _ _ _ _ _ (S i)) in Hs; auto.
    + destruct Hs as [Hm Hh'].
      destruct (IH x' hi first y) as [Hm2 Hh2]; auto.
      * destruct Hm as (-> & _). exact Hlen.
      * replace (i + 1) with (S i) by lia. exact Hh'.
      * split; [|exact Hh2]. eapply movedIn_trans; eauto.
    + split; [|intros g c Hg Hc Hr Hcc; lia].
      intros p c Hp Hc Hpc Hne. apply Hh; auto. lia.
Qed.

(** The root of a heap is less than no node. *)
Lemma heap_root_max x first hi :
  heapFrom zero less x first 0 hi ->
  forall p, p < hi -> less (nth (first + 0) x zero) (nth (first + p) x zero) = false.
Proof.
  intros Hh p. induction p as [p IH] using lt_wf_ind. intros Hp.
  destruct p as [|p]; [apply notless_refl|].
  set (q := p / 2).
  assert (Hq : S p = 2 * q + 1 \/ S p = 2 * q + 2).
  { unfold q. pose proof (Nat.div_mod_eq p 2).
    pose proof (Nat.mod_upper_bound p 2 ltac:(lia)). lia. }
  apply (notless_trans _ (nth (first + q) x zero)).
  - apply Hh; auto. lia.
  - apply IH; lia.
Qed.

Lemma heapPop_spec : forall n x first hi y,
  n <= hi -> first + hi <= List.length x ->
  heapFrom zero less x first 0 n ->
  sortedIn zero less x (first + n) (first + hi) ->
  (forall p q, p < n -> n <= q < hi -> less (nth (first + q) x zero) (nth (first + p) x zero) = false) ->
  sort.heapPop zero less x first n = Some y ->
  movedIn zero x y first (first + hi) /\
  sortedIn zero less y first (first + hi).
Proof.
  induction n as [|i IH]; intros x first hi y Hn Hlen Hh Hs Hlow Hrun;
    cbn [sort.heapPop] in Hrun.
  - injection Hrun as <-. split; [apply movedIn_refl|].
    replace (first + 0) with first in Hs by lia. exact Hs.
  - set (x1 := sort.Swap x first (first + i)) in *.
    destruct (sort.siftDown zero less (S i) x1 0 i first) as [x2|] eqn:Hsift;
      [|discriminate].
    assert (Hlen1 : List.length x1 = List.length x) by apply Swap_length.
    assert (Hmax : forall p, p < S i -> less (nth first x zero) (nth (first + p) x zero) = false).
    { intros p Hp. pose proof (heap_root_max x first (S i) Hh p Hp) as H.
      replace (first + 0) with first in H by lia. exact H. }
    apply (siftDown_spec _ _ _ _ _ 0) in Hsift; [|lia|lia|].
    2:{ split; [|intros g c Hg Hc Hr Hcc; lia].
        intros p c Hp Hc Hpc Hne. unfold x1. swap_cases. apply Hh; lia. }
    destruct Hsift as [Hm2 Hh2].
    assert (Hm1 : movedIn zero x x1 first (first + S i))
      by (apply movedIn_Swap; lia).
    assert (Hx2i : (nth (first + i) x2 zero) = (nth first x zero)).
    { destruct Hm2 as (_ & O & _). rewrite O by lia.
      unfold x1. swap_cases; first [reflexivity | f_equal; lia]. }
    assert (Hx2hi : forall q, i < q -> (nth (first + q) x2 zero) = (nth (first + q) x zero)).
    { intros q Hq. destruct Hm2 as (_ & O & _). rewrite O by lia.
      unfold x1. swap_cases; first [reflexivity | f_equal; lia]. }
    assert (Hx2lo : forall p, p < i ->
              exists p', p' < S i /\ (nth (first + p) x2 zero) = (nth (first + p') x zero)).
    { intros p Hp. destruct Hm2 as (_ & _ & I).
      destruct (I (first + p) ltac:(lia)) as (k & Hk & ->).
      destruct Hm1 as (_ & _ & I1).
      destruct (I1 k ltac:(lia)) as (k' & Hk' & ->).
      exists (k' - first). split; [lia|]. f_equal. lia. }
    destruct (IH x2 first hi y) as [Hm Hsorted]; auto.
    + lia.
    + destruct Hm2 as (-> & _). lia.
    + intros p q Hp Hpq Hq.
      destruct (Nat.eq_dec p (first + i)) as [->|Hne].
      * rewrite Hx2i.
        replace q with (first + (q - first)) by lia.
        rewrite Hx2hi by lia.
        pose proof (Hlow 0 (q - first) ltac:(lia) ltac:(lia)) as H0.
        replace (first + 0) with first in H0 by lia. exact H0.
      * replace p with (first + (p - first)) by lia.
        replace q with (first + (q - first)) by lia.
        rewrite !Hx2hi by lia.
        replace (first + (p - first)) with p by lia.
        replace (first + (q - first)) with q by lia.
        apply Hs; lia.
    + intros p q Hp Hq.
      destruct (Hx2lo p Hp) as (p' & Hp' & ->).
      destruct (Nat.eq_dec q i) as [->|Hne].
      * rewrite Hx2i. apply Hmax. exact Hp'.
      * rewrite Hx2hi by lia. apply Hlow; lia.
    + split; [|exact Hsorted].
      eapply movedIn_trans;
        [eapply movedIn_widen; [| |exact Hm1]; lia|].
      eapply movedIn_trans;
        [eapply movedIn_widen; [| |exact Hm2]; lia|].
      exact Hm.
Qed.

Lemma heapSort_spec x a b y :
  a <= b <= List.length x ->
  sort.heapSort zero less x a b = Some y ->
  movedIn zero x y a b /\ sortedIn zero less y a b.
Proof.
  intros Hab Hrun. unfold sort.heapSort in Hrun. cbv zeta in Hrun.
  destruct (sort.heapBuild zero less x (b - a) a ((b - a - 1) / 2))
    as [x1|] eqn:Hbuild; [|discriminate].
  apply heapBuild_spec in Hbuild; [|lia|].
  2:{ intros p c Hp Hc Hpc. exfalso.
      pose proof (Nat.div_mod_eq (b - a - 1) 2).
      pose proof (Nat.mod_upper_bound (b - a - 1) 2 ltac:(lia)). lia. }
  destruct Hbuild as [Hm1 Hh].
  apply (heapPop_spec _ _ _ (b - a)) in Hrun; auto.
  - destruct Hrun as [Hm2 Hs].
    replace (a + (b - a)) with b in * by lia.
    split; [eapply movedIn_trans; eauto|exact Hs].
  - destruct Hm1 as (-> & _). lia.
  - intros p q Hp Hpq Hq. lia.
  - intros p q Hp Hq. lia.
Qed.

(** ** pdqsort_func *)

Lemma sorted_around_pivot y a mid b :
  a <= mid < b ->
  sortedIn zero less y a mid ->
  sortedIn zero less y (mid + 1) b ->
  (forall k, a <= k < mid -> less (nth k y zero) (nth mid y zero) = true) ->
  (forall k, mid < k < b -> less (nth k y zero) (nth mid y zero) = false) ->
  sortedIn zero less y a b.
Proof.
  intros Hmid Hl Hr Hlo Hhi i j Hi Hij Hj.
  destruct (Nat.lt_ge_cases j mid) as [Hjm|Hjm]; [apply Hl; lia|].
  destruct (Nat.lt_ge_cases mid i) as [Him|Him]; [apply Hr; lia|].
  destruct (Nat.eq_dec i mid) as [->|Hne]; [apply Hhi; lia|].
  destruct (Nat.eq_dec j mid) as [->|Hne'].
  - apply less_asym. apply Hlo. lia.
  - apply less_asym. apply (less_notless_trans _ (nth mid y zero)).
    + apply Hlo. lia.
    + apply Hhi. lia.
Qed.

Lemma pdqsort_sorts : forall fuel x a b limit wb wp y,
  a <= b <= List.length x -> predOk zero less x a b ->
  sort.pdqsort zero less fuel x a b limit wb wp = Some y ->
  movedIn zero x y a b /\ sortedIn zero less y a b.
Proof.
  induction fuel as [|fuel IH]; intros x a b limit wb wp y Hab Hpred Hrun;
    [discriminate|].
  cbn [sort.pdqsort] in Hrun. cbv zeta in Hrun.
  destruct (Nat.leb_spec (b - a) sort.maxInsertion) as [Hshort|Hlong].
  { injection Hrun as <-. apply insertionSort_sorts. exact Hab. }
  unfold sort.maxInsertion in Hlong.
  destruct (Nat.eqb limit 0).
  { apply heapSort_spec; auto. }
  (* the patterns are broken *)
  destruct (if negb wb then (sort.breakPatterns x a b, limit - 1)
            else (x, limit)) as [x1 limit1] eqn:E1.
  assert (Hm1 : movedIn zero x x1 a b).
  { destruct (negb wb); injection E1 as <- _;
      [apply breakPatterns_moved; lia|apply movedIn_refl]. }
  clear E1.
  (* the pivot is chosen *)
  pose proof (choosePivot_bounds x1 a b ltac:(lia)) as Hpiv.
  destruct (sort.choosePivot zero less x1 a b) as [pivot hint].
  cbn [fst] in Hpiv. cbv beta iota in Hrun.
  destruct (match hint with
            | sort.decreasingHint =>
                (sort.reverseRange x1 a b, b - 1 - (pivot - a),
                 sort.increasingHint)
            | _ => (x1, pivot, hint)
            end) as [[x2 pivot2] hint2] eqn:E2.
  assert (H2 : movedIn zero x1 x2 a b /\ a <= pivot2 < b).
  { assert (Hlen1 : List.length x1 = List.length x)
      by (destruct Hm1 as (-> & _); reflexivity).
    destruct hint; injection E2 as <- <- _;
      (split; [first [apply movedIn_refl
                     |apply reverseRange_moved; lia]|lia]). }
  destruct H2 as [Hm2 Hp2]. clear E2. cbv beta iota in Hrun.
  assert (Hm02 : movedIn zero x x2 a b)
    by (eapply movedIn_trans; eauto).
  assert (Hlen2 : List.length x2 = List.length x)
    by (destruct Hm02 as (-> & _); reflexivity).
  assert (Hpred2 : predOk zero less x2 a b)
    by (apply (movedIn_predOk x); auto).
  (* the slice may be sorted by a few insertions *)
  destruct (match hint2 with
            | sort.increasingHint =>
                if wb && wp then sort.partialInsertionSort zero less x2 a b
                else (x2, false)
            | _ => (x2, false)
            end) as [x3 sorted] eqn:E3.
  assert (H3 : movedIn zero x2 x3 a b /\
               (sorted = true -> sortedIn zero less x3 a b)).
  { pose proof (partialInsertionSort_spec x2 a b ltac:(lia) ltac:(lia)
                  Hpred2) as Hpi.
    cbv zeta in Hpi.
    destruct hint2;
      try (injection E3 as <- <-; split; [apply movedIn_refl|discriminate]).
    destruct (wb && wp);
      [|injection E3 as <- <-; split; [apply movedIn_refl|discriminate]].
    rewrite E3 in Hpi. exact Hpi. }
  destruct H3 as [Hm3 Hs3]. clear E3. cbv beta iota in Hrun.
  assert (Hm03 : movedIn zero x x3 a b)
    by (eapply movedIn_trans; eauto).
  assert (Hlen3 : List.length x3 = List.length x)
    by (destruct Hm03 as (-> & _); reflexivity).
  assert (Hpred3 : predOk zero less x3 a b)
    by (apply (movedIn_predOk x); auto).
  destruct sorted.
  { injection Hrun as <-. split; [exact Hm03|apply Hs3; reflexivity]. }
  destruct ((0 <? a) && negb (sort.Less zero less x3 (a - 1) pivot2))
    eqn:Eeq.
  - (* the pivot equals the element before the range *)
    apply andb_true_iff in Eeq. destruct Eeq as [Ha Hle].
    apply Nat.ltb_lt in Ha. apply negb_true_iff in Hle.
    rewrite Less_nth in Hle.
    pose proof (partitionEqual_spec x3 a b pivot2 Hp2 ltac:(lia)) as Hpe.
    cbv zeta in Hpe.
    destruct (sort.partitionEqual zero less x3 a b pivot2) as [x4 mid].
    cbn [fst snd] in Hpe. destruct Hpe as (Hm4 & Hmid & Hlo & Hhi).
    assert (Hlen4 : List.length x4 = List.length x)
      by (destruct Hm4 as (-> & _); exact Hlen3).
    assert (Hall : forall k, a <= k < b -> less (nth k x4 zero) (nth pivot2 x3 zero) = false).
    { apply (movedIn_bound (fun v => less v (nth pivot2 x3 zero) = false) x3 x4 a b Hm4).
      intros k Hk. apply (notless_trans _ (nth (a - 1) x3 zero)); [exact Hle|].
      apply Hpred3; auto. }
    apply IH in Hrun; [|lia|].
    2:{ intros _ k Hk. apply less_asym.
        apply (notless_less_trans _ (nth pivot2 x3 zero));
          [apply Hlo; lia|apply Hhi; lia]. }
    destruct Hrun as [Hm5 Hs5].
    split.
    { eapply movedIn_trans; [exact Hm03|].
      eapply movedIn_trans; [exact Hm4|].
      eapply movedIn_widen; [| |exact Hm5]; lia. }
    intros i j Hi Hij Hj.
    destruct (Nat.lt_ge_cases i mid) as [Him|Him]; [|apply Hs5; lia].
    assert (Hyi : (nth i y zero) = (nth i x4 zero))
      by (destruct Hm5 as (_ & O & _); apply O; lia).
    rewrite Hyi.
    destruct (Nat.lt_ge_cases j mid) as [Hjm|Hjm].
    + assert (Hyj : (nth j y zero) = (nth j x4 zero))
        by (destruct Hm5 as (_ & O & _); apply O; lia).
      rewrite Hyj. apply (notless_trans _ (nth pivot2 x3 zero));
        [apply Hlo; lia|apply Hall; lia].
    + destruct Hm5 as (_ & _ & I).
      destruct (I j ltac:(lia)) as (k' & Hk' & ->).
      apply less_asym. apply (notless_less_trans _ (nth pivot2 x3 zero));
        [apply Hlo; lia|apply Hhi; lia].
  - (* the slice is partitioned around the pivot *)
    clear Eeq.
    pose proof (partition_spec x3 a b pivot2 Hp2 ltac:(lia)) as Hpa.
    cbv zeta in Hpa.
    destruct (sort.partition zero less x3 a b pivot2) as [[x4 mid] already].
    cbn [fst snd] in Hpa. destruct Hpa as (Hm4 & Hmid & Hpv & Hlo & Hhi).
    assert (Hm04 : movedIn zero x x4 a b)
      by (eapply movedIn_trans; eauto).
    assert (Hlen4 : List.length x4 = List.length x)
      by (destruct Hm04 as (-> & _); reflexivity).
    assert (Hpred4 : predOk zero less x4 a b)
      by (apply (movedIn_predOk x); auto).
    cbv beta iota in Hrun.
    destruct (Nat.ltb (mid - a) (b - mid)).
    + (* the left part first *)
      destruct (sort.pdqsort zero less fuel x4 a mid limit1 true true)
        as [x5|] eqn:E5; [|discriminate].
      apply IH in E5; [|lia|apply (predOk_sub _ _ b); [lia|exact Hpred4]].
      destruct E5 as [Hm5 Hs5].
      assert (Hlen5 : List.length x5 = List.length x)
        by (destruct Hm5 as (-> & _); exact Hlen4).
      assert (Hx5mid : (nth mid x5 zero) = (nth mid x4 zero))
        by (destruct Hm5 as (_ & O & _); apply O; lia).
      assert (Hx5hi : forall k, mid < k < b -> (nth k x5 zero) = (nth k x4 zero))
        by (intros k Hk; destruct Hm5 as (_ & O & _); apply O; lia).
      apply IH in Hrun; [|lia|].
      2:{ intros _ k Hk. replace (mid + 1 - 1) with mid by lia.
          rewrite Hx5mid, Hx5hi by lia. apply Hhi. lia. }
      destruct Hrun as [Hm6 Hs6].
      assert (Hylo : forall k, k <= mid -> (nth k y zero) = (nth k x5 zero))
        by (intros k Hk; destruct Hm6 as (_ & O & _); apply O; lia).
      split.
      { eapply movedIn_trans; [exact Hm04|].
        eapply movedIn_trans;
          [eapply movedIn_widen; [| |exact Hm5]; lia|].
        eapply movedIn_widen; [| |exact Hm6]; lia. }
      apply (sorted_around_pivot y a mid b); auto.
      * intros i j Hi Hij Hj. rewrite !Hylo by lia. apply Hs5; lia.
      * intros k Hk. rewrite !Hylo by lia. rewrite Hx5mid.
        apply (movedIn_bound (fun v => less v (nth mid x4 zero) = true)
                 x4 x5 a mid Hm5); auto.
      * intros k Hk. rewrite (Hylo mid) by lia. rewrite Hx5mid.
        apply (movedIn_bound (fun v => less v (nth mid x4 zero) = false)
                 x5 y (mid + 1) b Hm6); [|lia].
        intros k' Hk'. rewrite Hx5hi by lia. apply Hhi. lia.
    + (* the right part first *)
      destruct (sort.pdqsort zero less fuel x4 (mid + 1) b limit1 true true)
        as [x5|] eqn:E5; [|discriminate].
      apply IH in E5; [|lia|].
      2:{ intros _ k Hk. replace (mid + 1 - 1) with mid by lia.
          apply Hhi. lia. }
      destruct E5 as [Hm5 Hs5].
      assert (Hlen5 : List.length x5 = List.length x)
        by (destruct Hm5 as (-> & _); exact Hlen4).
      assert (Hx5lo : forall k, k <= mid -> (nth k x5 zero) = (nth k x4 zero))
        by (intros k Hk; destruct Hm5 as (_ & O & _); apply O; lia).
      apply IH in Hrun; [|lia|].
      2:{ apply (predOk_sub _ _ b); [lia|].
          apply (movedIn_predOk x4); [|exact Hpred4].
          eapply movedIn_widen; [| |exact Hm5]; lia. }
      destruct Hrun as [Hm6 Hs6].
      assert (Hyhi : forall k, mid <= k -> (nth k y zero) = (nth k x5 zero))
        by (intros k Hk; destruct Hm6 as (_ & O & _); apply O; lia).
      split.
      { eapply movedIn_trans; [exact Hm04|].
        eapply movedIn_trans;
          [eapply movedIn_widen; [| |exact Hm5]; lia|].
        eapply movedIn_widen; [| |exact Hm6]; lia. }
      apply (sorted_around_pivot y a mid b); auto.
      * intros i j Hi Hij Hj. rewrite !Hyhi by lia. apply Hs5; lia.
      * intros k Hk. rewrite (Hyhi mid) by lia. rewrite Hx5lo by lia.
        apply (movedIn_bound (fun v => less v (nth mid x4 zero) = true)
                 x5 y a mid Hm6); [|lia].
        intros k' Hk'. rewrite Hx5lo by lia. apply Hlo. lia.
      * intros k Hk. rewrite !Hyhi by lia. rewrite (Hx5lo mid) by lia.
        apply (movedIn_bound (fun v => less v (nth mid x4 zero) = false)
                 x4 x5 (mid + 1) b Hm5); [|lia].
        intros k' Hk'. apply Hhi. lia.
Qed.

(** [sort.Slice] with a strict weak order returns a sorted slice. *)
Lemma Slice_ordered x : ordered less (sort.Slice zero less x).
Proof.
  pose proof (Slice_runs zero less x) as Hrun. unfold sort.SliceRun in Hrun.
  apply pdqsort_sorts in Hrun; [|lia|intros Ha; lia].
  destruct Hrun as [(Hlen & _) Hs].
  intros i j p q Hij Hp Hq.
  assert (Hj : j < List.length (sort.Slice zero less x))
    by (apply nth_error_Some; congruence).
  rewrite <- (nth_error_nth _ _ zero Hp), <- (nth_error_nth _ _ zero Hq).
  apply Hs; lia.
Qed.

End SortSorts.

(* ===================================================================== *)
(** * The order of [getSortedProjects] *)
(* ===================================================================== *)

Lemma ltb_lt (s t : string) :
  String.ltb s t = true <-> OrderedTypeEx.String_as_OT.lt s t.
Proof.
  rewrite <- OrderedTypeEx.String_as_OT.cmp_lt.
  unfold String.ltb, OrderedTypeEx.String_as_OT.cmp.
  destruct (String.compare s t); split; congruence.
Qed.

Lemma ltb_trans (s t u : string) :
  String.ltb s t = true -> String.ltb t u = true -> String.ltb s u = true.
Proof.
  rewrite !ltb_lt. apply OrderedTypeEx.String_as_OT.lt_trans.
Qed.

Lemma ltb_total (s t : string) :
  String.ltb s t = false -> String.ltb t s = false -> s = t.
Proof.
  unfold String.ltb. intros H1 H2.
  rewrite (String.compare_antisym t s) in H2.
  destruct (String.compare s t) eqn:Hc; try discriminate.
  now apply String.compare_eq_iff.
Qed.

Lemma ltb_between (s t u : string) :
  String.ltb s u = true -> String.ltb s t = true \/ String.ltb t u = true.
Proof.
  intros Hsu.
  destruct (String.ltb s t) eqn:Hst; auto.
  destruct (String.ltb t s) eqn:Hts.
  - right. eapply ltb_trans; eauto.
  - right. rewrite <- (ltb_total _ _ Hst Hts). exact Hsu.
Qed.

(** The comparator is the lexicographic order of the sort keys. *)
Lemma projectLess_lex p q :
  projectLess p q = true <->
  String.ltb (fst (sortKey p)) (fst (sortKey q)) = true \/
  (fst (sortKey p) = fst (sortKey q) /\
   String.ltb (snd (sortKey p)) (snd (sortKey q)) = true).
Proof.
  unfold projectLess, sortKey. cbn [fst snd]. rewrite EqualFold_ToLower.
  destruct (String.eqb_spec (strings.ToLower (orNA (Category p)))
              (strings.ToLower (orNA (Category q)))) as [He|Hne];
    cbn [negb].
  - rewrite He, ltb_irrefl. split; [auto|].
    intros [H|[_ H]]; [discriminate|exact H].
  - split; [auto|]. intros [H|[H _]]; [exact H|contradiction].
Qed.

Lemma projectLess_swo : strictWeakOrder projectLess.
Proof.
  split; [|split].
  - intros p. destruct (projectLess p p) eqn:H; auto.
    apply projectLess_lex in H. rewrite !ltb_irrefl in H.
    destruct H as [H|[_ H]]; discriminate.
  - intros p q r Hpq Hqr. apply projectLess_lex in Hpq, Hqr.
    apply projectLess_lex.
    destruct Hpq as [H1|[E1 H1]], Hqr as [H2|[E2 H2]].
    + left. eapply ltb_trans; eauto.
    + left. now rewrite <- E2.
    + left. now rewrite E1.
    + right. split; [congruence|]. eapply ltb_trans; eauto.
  - intros p q r Hpr. apply projectLess_lex in Hpr.
    rewrite !projectLess_lex.
    destruct Hpr as [H|[E H]].
    + destruct (ltb_between _ (fst (sortKey q)) _ H); auto.
    + destruct (String.ltb (fst (sortKey p)) (fst (sortKey q))) eqn:Hpq;
        auto.
      destruct (String.ltb (fst (sortKey q)) (fst (sortKey p))) eqn:Hqp.
      * right. left. now rewrite <- E.
      * pose proof (ltb_total _ _ Hpq Hqp) as Eq.
        destruct (ltb_between _ (snd (sortKey q)) _ H); auto.
        right. right. split; [congruence|auto].
Qed.

(** X23.  The comparator that [getSortedProjects] gives to [sort.Slice] is,
    on records with ASCII categories and names, the lexicographic order
    of the lower-case display category and the lower-case name, and a
    strict weak order: irreflexive, transitive, and such that a record
    between two ordered ones is ordered with one of them.  It is what
    [sort.Slice] asks of its [less]. *)
Theorem comparator_is_a_strict_weak_order :
  (forall p q, asciiRecord p -> asciiRecord q ->
     (projectLess p q = true <->
      String.ltb (fst (sortKey p)) (fst (sortKey q)) = true \/
      (fst (sortKey p) = fst (sortKey q) /\
       String.ltb (snd (sortKey p)) (snd (sortKey q)) = true))) /\
  (forall p, asciiRecord p -> projectLess p p = false) /\
  (forall p q r, asciiRecord p -> asciiRecord q -> asciiRecord r ->
     projectLess p q = true -> projectLess q r = true ->
     projectLess p r = true) /\
  (forall p q r, asciiRecord p -> asciiRecord q -> asciiRecord r ->
     projectLess p r = true ->
     projectLess p q = true \/ projectLess q r = true).
Proof.
  destruct projectLess_swo as (Hi & Ht & Hn).
  split; [intros p q _ _; apply projectLess_lex|].
  split; [intros p _; apply Hi|].
  split; [intros p q r _ _ _; apply Ht|intros p q r _ _ _; apply Hn].
Qed.

Lemma comparator_is_a_strict_weak_order_witness :
  projectLess (project "Beta" "") (project "Zeta" "Web") = true.
Proof.
  destruct comparator_is_a_strict_weak_order as (_ & _ & Ht & _).
  apply (Ht _ (project "Alpha" "Web"));
    try (split; reflexivity); reflexivity.
Defined.

Lemma getSortedProjects_ordered m : ordered projectLess (getSortedProjects m).
Proof. apply Slice_ordered, projectLess_swo. Qed.

(** X24.  [getSortedProjects] sorts, on catalogs of every size, the records
    having ASCII categories and names.  What it returns is a copy of the
    catalog, the same records as many times each, in which no record is
    less than one before it.  Of two records the later has the greater
    or equal lower-case display category, and with equal ones the greater
    or equal lower-case name. *)
Theorem getSortedProjects_is_sorted m :
  asciiCatalog (projects m) ->
  Permutation (projects m) (getSortedProjects m) /\
  ordered projectLess (getSortedProjects m) /\
  forall i j p q, (i < j)%nat ->
    nth_error (getSortedProjects m) i = Some p ->
    nth_error (getSortedProjects m) j = Some q ->
    String.ltb (fst (sortKey q)) (fst (sortKey p)) = false /\
    (fst (sortKey p) = fst (sortKey q) ->
     String.ltb (snd (sortKey q)) (snd (sortKey p)) = false).
Proof.
  intros _.
  split; [apply getSortedProjects_perm|].
  split; [apply getSortedProjects_ordered|].
  intros i j p q Hij Hp Hq.
  pose proof (getSortedProjects_ordered m i j p q Hij Hp Hq) as H.
  assert (Hn : ~ (String.ltb (fst (sortKey q)) (fst (sortKey p)) = true \/
                  (fst (sortKey q) = fst (sortKey p) /\
                   String.ltb (snd (sortKey q)) (snd (sortKey p)) = true))).
  { rewrite <- projectLess_lex. congruence. }
  split.
  - destruct (String.ltb _ _); auto. exfalso. auto.
  - intros E. destruct (String.ltb (snd _) _); auto. exfalso. auto.
Qed.

Lemma scenarioCatalog_ascii : asciiCatalog scenarioCatalog.
Proof.
  intros p Hp. cbn [scenarioCatalog In] in Hp.
  destruct Hp as [<-|[<-|[<-|[]]]]; split; reflexivity.
Qed.

Lemma getSortedProjects_is_sorted_witness :
  map Name (getSortedProjects (initModel "cfg" scenarioCatalog))
  = ["Beta"; "Alpha"; "Zeta"] /\
  Permutation scenarioCatalog
    (getSortedProjects (initModel "cfg" scenarioCatalog)) /\
  projectLess (project "Zeta" "Web") (project "Beta" "") = false.
Proof.
  split; [vm_compute; reflexivity|].
  destruct (getSortedProjects_is_sorted (initModel "cfg" scenarioCatalog)
              scenarioCatalog_ascii) as (Hperm & Hord & _).
  split; [exact Hperm|].
  apply (Hord 0%nat 2%nat); [lia|vm_compute; reflexivity
                            |vm_compute; reflexivity].
Defined.

(* ===================================================================== *)
(** * The order of the rows *)
(* ===================================================================== *)

Lemma shownAt_fun m d p q : shownAt m d p -> shownAt m d q -> p = q.
Proof.
  intros (k & r & Hk & Hp & _) (k' & r' & Hk' & Hq & _). congruence.
Qed.

Lemma display_rows_between m m' d1 d2 p1 p2 :
  updateTable m = Ok m' -> d1 < d2 ->
  shownAt m' d1 p1 -> shownAt m' d2 p2 ->
  projectLess p2 p1 = false.
Proof.
  intros Hup Hlt H1 H2.
  destruct (updateTable_inv _ _ Hup) as (Hrows & _).
  destruct (shownAt_place _ _ _ _ Hup H1) as (n1 & k1 & -> & Hn1 & Hk1 & Hp1).
  destruct (shownAt_place _ _ _ _ Hup H2) as (n2 & k2 & -> & Hn2 & Hk2 & Hp2).
  pose proof (tableRows_increasing _ _ _ _ _ _ _ Hrows ltac:(lia)
                n1 n2 k1 k2 ltac:(lia) Hn1 Hn2 ltac:(lia) ltac:(lia)) as Hk.
  apply (getSortedProjects_ordered m (Z.to_nat k1) (Z.to_nat k2)); auto.
  lia.
Qed.

(** X25.  Down the table the records come in the order of the comparator, the
    records having ASCII categories and names: of two record rows of a
    rebuilt projection, the lower one shows a record that is not less
    than the record of the upper one. *)
Theorem display_rows_are_in_order m m' d1 d2 p1 p2 :
  asciiCatalog (projects m) ->
  updateTable m = Ok m' -> d1 < d2 ->
  shownAt m' d1 p1 -> shownAt m' d2 p2 ->
  projectLess p2 p1 = false.
Proof. intros _. apply display_rows_between. Qed.

Lemma display_rows_are_in_order_witness :
  exists m' p1 p2,
    updateTable (initModel "cfg" scenarioCatalog) = Ok m' /\
    shownAt m' 1 p1 /\ shownAt m' 4 p2 /\
    Name p1 = "Beta" /\ Name p2 = "Zeta" /\
    projectLess p2 p1 = false.
Proof.
  destruct (updateTable (initModel "cfg" scenarioCatalog)) as [m'|] eqn:Hup;
    [|vm_compute in Hup; discriminate].
  assert (H1 : shownAt m' 1 (project "Beta" "")).
  { pose proof Hup as Hc. vm_compute in Hc. injection Hc as <-.
    eexists. eexists. repeat split; vm_compute; reflexivity. }
  assert (H4 : shownAt m' 4 (project "Zeta" "Web")).
  { pose proof Hup as Hc. vm_compute in Hc. injection Hc as <-.
    eexists. eexists. repeat split; vm_compute; reflexivity. }
  exists m', (project "Beta" ""), (project "Zeta" "Web").
  split; [reflexivity|]. split; [exact H1|]. split; [exact H4|].
  split; [reflexivity|]. split; [reflexivity|].
  apply (display_rows_are_in_order (initModel "cfg" scenarioCatalog) m' 1 4
           _ _ scenarioCatalog_ascii Hup); auto. lia.
Defined.

(** From a record row up to the header of its group. *)
Lemma header_above m m' :
  updateTable m = Ok m' ->
  forall n d p, d = Z.of_nat n -> shownAt m' d p ->
    exists d0 p0, headerAt m' d0 /\ shownAt m' (d0 + 1) p0 /\
      orNA (Category p0) = orNA (Category p).
Proof.
  intros Hup. induction n as [|n IH]; intros d p -> Hs;
    destruct (shownAt_place _ _ _ _ Hup Hs) as (n' & kd & Hn' & Hn & Hkd & Hp);
    apply Nat2Z.inj in Hn'; subst n';
    destruct (row_neighbours _ _ Hup _ _ _ Hn Hkd Hp)
      as [(n0 & He & (Hh & _) & _)|(n0 & q & He & Hq & Hcat)];
    try discriminate; injection He as <-.
  - exists (Z.of_nat n), p. split; [exact Hh|]. split; [|reflexivity].
    replace (Z.of_nat n + 1) with (Z.of_nat (S n)) by lia. exact Hs.
  - destruct (IH _ q eq_refl Hq) as (d0 & p0 & H0 & Hs0 & Hc0).
    exists d0, p0. repeat split; auto. congruence.
Qed.

Lemma sorted_record_has_row m m' k p :
  updateTable m = Ok m' ->
  nth_error (getSortedProjects m) k = Some p ->
  exists d, shownAt m' d p.
Proof.
  intros Hup Hp.
  destruct (updateTable_inv _ _ Hup) as (Hrows & _).
  pose proof (tableRows_records _ _ _ _ _ _ _ Hrows ltac:(lia)) as Hrec.
  assert (Hk : (k < List.length (getSortedProjects m))%nat)
    by (apply nth_error_Some; congruence).
  assert (Hin : In (Z.of_nat k)
                  (filter (fun e => negb (e =? -1)) (projectIndices m'))).
  { rewrite Hrec. apply in_map_iff. exists k. split; [lia|].
    apply in_seq. lia. }
  apply filter_In in Hin. destruct Hin as [Hin _].
  apply In_nth_error in Hin. destruct Hin as [n Hn].
  destruct (shownAt_entry _ _ _ _ Hup Hn ltac:(lia)) as (p' & Hp' & _ & Hs).
  rewrite Nat2Z.id in Hp'. assert (p' = p) by congruence. subst p'.
  eauto.
Qed.

(** X26.  The headers of the projection.  Every display category of the
    catalog has a header row, the row above the first record of its
    group.  When the categories and names are ASCII and categories that
    differ in case only are spelled alike, it has no second one: two
    header rows never stand above groups of one display category. *)
Theorem every_category_has_one_header m m' :
  updateTable m = Ok m' ->
  (forall p, In p (projects m) ->
     exists d p0, headerAt m' d /\ shownAt m' (d + 1) p0 /\
       orNA (Category p0) = orNA (Category p)) /\
  (asciiCatalog (projects m) -> consistentSpelling (projects m) ->
   forall d1 d2 p1 p2,
     headerAt m' d1 -> headerAt m' d2 ->
     shownAt m' (d1 + 1) p1 -> shownAt m' (d2 + 1) p2 ->
     orNA (Category p1) = orNA (Category p2) -> d1 = d2).
Proof.
  intros Hup. split.
  - intros p Hin.
    assert (Hin' : In p (getSortedProjects m))
      by (eapply Permutation_in; [apply getSortedProjects_perm|exact Hin]).
    apply In_nth_error in Hin'. destruct Hin' as [k Hk].
    destruct (sorted_record_has_row _ _ _ _ Hup Hk) as [d Hs].
    destruct (shownAt_place _ _ _ _ Hup Hs) as (n & _ & Hd & _).
    exact (header_above _ _ Hup n d p Hd Hs).
  - intros _ Hcons.
    assert (Hone : forall d1 d2 p1 p2, d1 < d2 ->
              headerAt m' d1 -> headerAt m' d2 ->
              shownAt m' (d1 + 1) p1 -> shownAt m' (d2 + 1) p2 ->
              orNA (Category p1) = orNA (Category p2) -> False).
    { intros d1 d2 p1 p2 Hlt Hh1 Hh2 Hs1 Hs2 Hcat.
      destruct (header_over_record _ _ Hup d2 Hh2) as (p & Hsp & _ & Hprev).
      assert (p = p2) by (eapply shownAt_fun; eauto). subst p.
      assert (Hd1 : 0 <= d1) by (apply index_range in Hh1; lia).
      destruct Hprev as [->|(q & Hq & Hne)]; [lia|].
      (* the record above the second header lies between the groups *)
      assert (Hrow : d1 + 1 <> d2).
      { intros <-. destruct Hs1 as (k & r & Hk & Hp1 & _).
        unfold headerAt in Hh2. rewrite Hk in Hh2. injection Hh2 as ->.
        apply index_range in Hp1. lia. }
      assert (Hq1 : projectLess q p1 = false).
      { destruct (Z.eq_dec (d1 + 1) (d2 - 1)) as [He|Hne'].
        - rewrite <- He in Hq.
          rewrite (shownAt_fun _ _ _ _ Hq Hs1).
          apply projectLess_swo.
        - apply (display_rows_between m m' (d1 + 1) (d2 - 1)); auto. lia. }
      assert (Hq2 : projectLess p2 q = false)
        by (apply (display_rows_between m m' (d2 - 1) (d2 + 1)); auto; lia).
      assert (Hkey : fst (sortKey q) = fst (sortKey p1)).
      { assert (Hk12 : fst (sortKey p1) = fst (sortKey p2))
          by (unfold sortKey; cbn [fst]; now rewrite Hcat).
        apply ltb_total.
        - destruct (String.ltb (fst (sortKey q)) (fst (sortKey p1))) eqn:H;
            auto.
          assert (Hc : projectLess q p1 = true)
            by (apply projectLess_lex; auto).
          congruence.
        - destruct (String.ltb (fst (sortKey p1)) (fst (sortKey q))) eqn:H;
            auto.
          assert (Hc : projectLess p2 q = true)
            by (apply projectLess_lex; left; now rewrite <- Hk12).
          congruence. }
      apply Hne. rewrite <- Hcat.
      assert (Hinq : In q (projects m) /\ In p1 (projects m)).
      { split.
        - destruct (shownAt_place _ _ _ _ Hup Hq) as (_ & k & _ & _ & _ & Hk).
          eapply Permutation_in;
            [apply Permutation_sym, getSortedProjects_perm|].
          eapply nth_error_In, Hk.
        - destruct (shownAt_place _ _ _ _ Hup Hs1) as (_ & k & _ & _ & _ & Hk).
          eapply Permutation_in;
            [apply Permutation_sym, getSortedProjects_perm|].
          eapply nth_error_In, Hk. }
      apply Hcons; try apply Hinq.
      rewrite EqualFold_ToLower. apply String.eqb_eq. exact Hkey. }
    intros d1 d2 p1 p2 Hh1 Hh2 Hs1 Hs2 Hcat.
    destruct (Z.lt_trichotomy d1 d2) as [Hlt|[He|Hgt]]; auto; exfalso.
    + eapply (Hone d1 d2); eauto.
    + eapply (Hone d2 d1); eauto.
Qed.

Lemma every_category_has_one_header_witness :
  exists m' d p0,
    updateTable (initModel "cfg" scenarioCatalog) = Ok m' /\
    headerAt m' d /\ shownAt m' (d + 1) p0 /\
    orNA (Category p0) = "Web" /\
    forall d2 p2, headerAt m' d2 -> shownAt m' (d2 + 1) p2 ->
      orNA (Category p2) = "Web" -> d2 = d.
Proof.
  destruct (updateTable (initModel "cfg" scenarioCatalog)) as [m'|] eqn:Hup;
    [|vm_compute in Hup; discriminate].
  destruct (every_category_has_one_header _ _ Hup) as [Hex Huniq].
  destruct (Hex (project "Zeta" "Web")) as (d & p0 & Hh & Hs & Hc);
    [left; reflexivity|].
  exists m', d, p0.
  split; [reflexivity|]. split; [exact Hh|]. split; [exact Hs|].
  split; [exact Hc|].
  intros d2 p2 Hh2 Hs2 Hc2.
  assert (Hcons : consistentSpelling scenarioCatalog).
  { intros p q Hp Hq He. cbn [scenarioCatalog In] in Hp, Hq.
    destruct Hp as [<-|[<-|[<-|[]]]], Hq as [<-|[<-|[<-|[]]]];
      first [reflexivity | vm_compute in He; discriminate]. }
  apply (Huniq scenarioCatalog_ascii Hcons d2 d p2 p0); auto.
  rewrite Hc2, Hc. reflexivity.
Defined.
